(** * Payment decline / revenue leakage data generator

    A shallow embedding of [src/data_generator.py].  The script is a single
    straight-line batch computation that threads one NumPy generator through
    every sampling step.  It is modelled as a program in a state-and-error
    monad over an abstract generator; IEEE-754 binary64 values are the
    [spec_float] values of the Standard Library at precision 53. *)

From Stdlib Require Import ZArith List String Ascii Lia Bool SpecFloat DecimalString DecimalNat.
From stdpp Require Import base tactics option list strings.
Import ListNotations.

Local Open Scope string_scope.
Local Open Scope list_scope.
Local Open Scope Z_scope.

(** ** binary64 arithmetic *)

Module F64.

Definition prec : Z := 53.
Definition emax : Z := 1024.

Abbreviation float := spec_float.

Definition add : float -> float -> float := SFadd prec emax.
Definition sub : float -> float -> float := SFsub prec emax.
Definition mul : float -> float -> float := SFmul prec emax.
Definition div : float -> float -> float := SFdiv prec emax.
Definition opp : float -> float := SFopp.
Definition ltb : float -> float -> bool := SFltb.
Definition leb : float -> float -> bool := SFleb.
Definition gtb (x y : float) : bool := SFltb y x.

Definition is_nan (x : float) : bool :=
  match x with S754_nan => true | _ => false end.

(** a zero or a finite double: neither NaN nor an infinity *)
Definition is_finite (x : float) : bool :=
  match x with S754_zero _ | S754_finite _ _ _ => true | _ => false end.

(** Conversion of a Python [int] to a double (exact below 2^53). *)
Definition of_Z (n : Z) : float := binary_normalize prec emax n 0 false.

(** A decimal literal [n / 10^d], correctly rounded, as the Python parser
    reads it: [lit 45 2] is the double written [0.45]. *)
Definition lit (n : Z) (d : Z) : float := div (of_Z n) (of_Z (10 ^ d)).

Definition zero : float := S754_zero false.
Definition one : float := of_Z 1.

(** C [rint] in the default rounding mode: nearest integer, ties to even,
    the sign of the argument kept. *)
Definition rint (x : float) : float :=
  match x with
  | S754_finite s m e =>
      match e with
      | Zneg p =>
          let mrs := SpecFloat.iter_pos shr_1 p (shr_record_of_loc (Zpos m) loc_Exact) in
          match round_nearest_even (shr_m mrs) (loc_of_shr_record mrs) with
          | Zpos k => binary_round prec emax s k 0
          | _ => S754_zero s
          end
      | _ => x
      end
  | _ => x
  end.

End F64.

Import F64.

(** ** NumPy and Python primitives on doubles *)

(** Python's builtin [max(a, b)]: [b] replaces [a] only when [b > a]. *)
Definition py_max (a b : float) : float := if gtb b a then b else a.

(** [np.clip] on doubles: [min(max(x, lo), hi)] where a NaN [x] is kept. *)
Definition npy_max (a b : float) : float :=
  if is_nan a then a else if gtb a b then a else b.
Definition npy_min (a b : float) : float :=
  if is_nan a then a else if ltb a b then a else b.
Definition np_clip (x lo hi : float) : float := npy_min (npy_max x lo) hi.

(** [np.round(x, decimals)] for [decimals > 0]:
    multiply by [10^decimals], [rint], divide. *)
Definition np_round (decimals : Z) (x : float) : float :=
  let f := of_Z (10 ^ decimals) in div (rint (mul x f)) f.

(** The reductions [ndarray.min()] and [ndarray.max()]; a NaN element
    propagates, an empty array has no result. *)
Definition np_minimum (a b : float) : float :=
  if ltb a b || is_nan a then a else b.
Definition np_maximum (a b : float) : float :=
  if gtb a b || is_nan a then a else b.
Definition array_min (l : list float) : option float :=
  match l with [] => None | x :: r => Some (fold_left np_minimum r x) end.
Definition array_max (l : list float) : option float :=
  match l with [] => None | x :: r => Some (fold_left np_maximum r x) end.

(** ** Dimension tables *)

Record category := { cat_weight : float; avg_amount : Z; fail_base : float }.
Record geography := { geo_weight : float; geo_fail_mult : float; geo_currency : string }.
Record method := { pm_weight : float; pm_fail_mult : float }.

Definition MERCHANT_CATEGORIES : list (string * category) :=
  [ ("E-commerce",        {| cat_weight := lit 28 2; avg_amount := 85;  fail_base := lit 9 2 |});
    ("SaaS/Subscription", {| cat_weight := lit 18 2; avg_amount := 55;  fail_base := lit 6 2 |});
    ("Travel",            {| cat_weight := lit 12 2; avg_amount := 420; fail_base := lit 13 2 |});
    ("Retail",            {| cat_weight := lit 14 2; avg_amount := 65;  fail_base := lit 7 2 |});
    ("Marketplaces",      {| cat_weight := lit 10 2; avg_amount := 140; fail_base := lit 11 2 |});
    ("Gaming",            {| cat_weight := lit 8 2;  avg_amount := 25;  fail_base := lit 10 2 |});
    ("Healthcare",        {| cat_weight := lit 6 2;  avg_amount := 310; fail_base := lit 5 2 |});
    ("Food & Delivery",   {| cat_weight := lit 4 2;  avg_amount := 38;  fail_base := lit 8 2 |}) ].

Definition GEOGRAPHIES : list (string * geography) :=
  [ ("US", {| geo_weight := lit 42 2; geo_fail_mult := lit 100 2; geo_currency := "USD" |});
    ("EU", {| geo_weight := lit 20 2; geo_fail_mult := lit 90 2;  geo_currency := "EUR" |});
    ("UK", {| geo_weight := lit 10 2; geo_fail_mult := lit 92 2;  geo_currency := "GBP" |});
    ("IN", {| geo_weight := lit 8 2;  geo_fail_mult := lit 135 2; geo_currency := "INR" |});
    ("BR", {| geo_weight := lit 6 2;  geo_fail_mult := lit 145 2; geo_currency := "BRL" |});
    ("SG", {| geo_weight := lit 5 2;  geo_fail_mult := lit 85 2;  geo_currency := "SGD" |});
    ("CA", {| geo_weight := lit 5 2;  geo_fail_mult := lit 95 2;  geo_currency := "CAD" |});
    ("AU", {| geo_weight := lit 4 2;  geo_fail_mult := lit 88 2;  geo_currency := "AUD" |}) ].

Definition PAYMENT_METHODS : list (string * method) :=
  [ ("Credit Card",    {| pm_weight := lit 38 2; pm_fail_mult := lit 90 2 |});
    ("Debit Card",     {| pm_weight := lit 25 2; pm_fail_mult := lit 110 2 |});
    ("Digital Wallet", {| pm_weight := lit 18 2; pm_fail_mult := lit 75 2 |});
    ("Bank Transfer",  {| pm_weight := lit 10 2; pm_fail_mult := lit 120 2 |});
    ("BNPL",           {| pm_weight := lit 9 2;  pm_fail_mult := lit 140 2 |}) ].

(** Failure codes: code, (is_retryable, description). *)
Definition FAILURE_CODES : list (string * (bool * string)) :=
  [ ("insufficient_funds",     (true,  "Insufficient funds - retry after top-up"));
    ("card_expired",           (false, "Card expired - requires new card"));
    ("do_not_honor",           (true,  "Generic bank decline - retryable"));
    ("incorrect_cvc",          (false, "CVC mismatch - requires customer action"));
    ("lost_card",              (false, "Card reported lost - permanent block"));
    ("stolen_card",            (false, "Card reported stolen - permanent block"));
    ("processing_error",       (true,  "Processor error - retry immediately"));
    ("network_timeout",        (true,  "Network timeout - retry"));
    ("velocity_exceeded",      (true,  "Velocity limit hit - retry after cooldown"));
    ("fraud_suspected",        (false, "Fraud flag - requires review"));
    ("currency_not_supported", (false, "Currency mismatch - not retryable"));
    ("amount_too_large",       (false, "Exceeds card limit - not retryable")) ].

Definition RETRY_CODES : list string :=
  map fst (filter (fun kv => fst (snd kv) = true) FAILURE_CODES).
Definition NON_RETRY_CODES : list string :=
  map fst (filter (fun kv => fst (snd kv) = false) FAILURE_CODES).

Definition RETRY_RECOVERY : list (string * float) :=
  [ ("insufficient_funds", lit 45 2);
    ("do_not_honor",       lit 60 2);
    ("processing_error",   lit 82 2);
    ("network_timeout",    lit 88 2);
    ("velocity_exceeded",  lit 55 2) ].

(** ** Python dictionaries as insertion-ordered association lists *)

Fixpoint dict_lookup {V : Type} (d : list (string * V)) (k : string) : option V :=
  match d with
  | [] => None
  | (k', v) :: r => if String.eqb k' k then Some v else dict_lookup r k
  end.

Definition dict_keys {V : Type} (d : list (string * V)) : list string := map fst d.

(** [d.get(k, dflt)] *)
Definition dict_get {V : Type} (d : list (string * V)) (k : string) (dflt : V) : V :=
  match dict_lookup d k with Some v => v | None => dflt end.

(** ** Calendar: [pd.Timestamp] at second resolution

    An instant is its number of seconds since 1970-01-01T00:00:00; the
    script never produces a sub-second instant.  The civil calendar is the
    proleptic Gregorian one. *)

Module Calendar.

Definition days_from_civil (y m d : Z) : Z :=
  let y' := if m <=? 2 then y - 1 else y in
  let era := y' / 400 in
  let yoe := y' - era * 400 in
  let doy := (153 * (if 2 <? m then m - 3 else m + 9) + 2) / 5 + d - 1 in
  let doe := yoe * 365 + yoe / 4 - yoe / 100 + doy in
  era * 146097 + doe - 719468.

Definition civil_from_days (z0 : Z) : Z * Z * Z :=
  let z := z0 + 719468 in
  let era := z / 146097 in
  let doe := z - era * 146097 in
  let yoe := (doe - doe / 1460 + doe / 36524 - doe / 146096) / 365 in
  let y := yoe + era * 400 in
  let doy := doe - (365 * yoe + yoe / 4 - yoe / 100) in
  let mp := (5 * doy + 2) / 153 in
  let d := doy - (153 * mp + 2) / 5 + 1 in
  let m := if mp <? 10 then mp + 3 else mp - 9 in
  (if m <=? 2 then y + 1 else y, m, d).

(** [pd.Timestamp("YYYY-MM-DD")]: midnight at the start of that day. *)
Definition Timestamp (y m d : Z) : Z := days_from_civil y m d * 86400.

Definition date (t : Z) : Z * Z * Z := civil_from_days (t / 86400).
Definition year (t : Z) : Z := fst (fst (date t)).
Definition month (t : Z) : Z := snd (fst (date t)).
Definition hour (t : Z) : Z := (t mod 86400) / 3600.
(** Monday = 0 .. Sunday = 6; 1970-01-01 was a Thursday. *)
Definition dayofweek (t : Z) : Z := (t / 86400 + 3) mod 7.

End Calendar.

(** ** The random generator

    [numpy.random.Generator] as an interface: every sampling method maps a
    generator state to the drawn value and the next state.  The laws are the
    part of NumPy's documented contract the script relies on: a draw of
    [size = n] has [n] elements ([choice] raises on an empty population and
    [integers] on an empty range), [choice] returns members of the
    population it was given, [integers(low, high)] lies in the half-open
    [low, high). *)

Class Generator (G : Type) := {
  default_rng : Z -> G;
  (** [rng.choice(a, size=n, p=p)]; [p = None] is the uniform choice *)
  choice : list string -> option (list float) -> nat -> G -> list string * G;
  (** [rng.lognormal(mean, sigma)], one scalar *)
  lognormal : float -> float -> G -> float * G;
  (** [rng.integers(low, high, size=n)] *)
  integers : Z -> Z -> nat -> G -> list Z * G;
  (** [rng.normal(loc, scale, size=n)] *)
  normal : float -> float -> nat -> G -> list float * G;
  (** [rng.random(size=n)] *)
  random : nat -> G -> list float * G;
  (** [rng.random()], one scalar *)
  random_scalar : G -> float * G;
  (** [rng.power(a, size=n)] *)
  power : float -> nat -> G -> list float * G
}.

Class GeneratorLaws (G : Type) `{Generator G} : Prop := {
  choice_length : forall a p n g, a <> [] -> length (fst (choice a p n g)) = n;
  choice_member : forall a p n g x, In x (fst (choice a p n g)) -> In x a;
  integers_length : forall lo hi n g, lo < hi -> length (fst (integers lo hi n g)) = n;
  integers_range : forall lo hi n g x,
    In x (fst (integers lo hi n g)) -> lo <= x < hi;
  normal_length : forall mu sd n g, length (fst (normal mu sd n g)) = n;
  random_length : forall n g, length (fst (random n g)) = n;
  power_length : forall a n g, length (fst (power a n g)) = n;
  (** every drawn real is a double *)
  lognormal_valid : forall mean sigma g,
    valid_binary prec emax (fst (lognormal mean sigma g)) = true;
  normal_valid : forall mu sd n g x,
    In x (fst (normal mu sd n g)) -> valid_binary prec emax x = true
}.

(** ** Exceptions and the pipeline monad *)

Inductive exn :=
| KeyError (k : string)
| IndexError
| ValueError.

Definition M (G A : Type) : Type := G -> exn + (A * G).

Definition ret {G A} (a : A) : M G A := fun g => inr (a, g).
Definition bind {G A B} (c : M G A) (k : A -> M G B) : M G B :=
  fun g => match c g with inl e => inl e | inr (a, g') => k a g' end.
Definition raise {G A} (e : exn) : M G A := fun _ => inl e.
(** a call on the generator *)
Definition draw {G A} (f : G -> A * G) : M G A := fun g => inr (f g).
(** a fallible step that does not touch the generator *)
Definition try {G A} (r : exn + A) : M G A :=
  fun g => match r with inl e => inl e | inr a => inr (a, g) end.

Declare Scope pipeline_scope.
Delimit Scope pipeline_scope with pipeline.
Notation "x <~ c ;; k" := (bind c (fun x => k))
  (at level 100, c at next level, right associativity) : pipeline_scope.

Local Open Scope pipeline_scope.

Fixpoint mapM {G A B} (f : A -> M G B) (l : list A) : M G (list B) :=
  match l with
  | [] => ret []
  | a :: r => b <~ f a ;; bs <~ mapM f r ;; ret (b :: bs)
  end.

Fixpoint foldM {G A B} (f : B -> A -> M G B) (l : list A) (b : B) : M G B :=
  match l with
  | [] => ret b
  | a :: r => b' <~ f b a ;; foldM f r b'
  end.

Definition bindE {A B} (r : exn + A) (k : A -> exn + B) : exn + B :=
  match r with inl e => inl e | inr a => k a end.

Declare Scope exn_scope.
Delimit Scope exn_scope with exn.
Notation "x <~ c ;; k" := (bindE c (fun x => k))
  (at level 100, c at next level, right associativity) : exn_scope.

(** [d[k]] *)
Definition getitem {V} (d : list (string * V)) (k : string) : exn + V :=
  match dict_lookup d k with Some v => inr v | None => inl (KeyError k) end.

(** [a[i]] on a list or array *)
Definition index {A} (a : list A) (i : nat) : exn + A :=
  match a !! i with Some v => inr v | None => inl IndexError end.

Fixpoint mapE {A B} (f : A -> exn + B) (l : list A) : exn + list B :=
  match l with
  | [] => inr []
  | a :: r =>
      match f a with
      | inl e => inl e
      | inr b => match mapE f r with inl e => inl e | inr bs => inr (b :: bs) end
      end
  end.

(** ** Array helpers *)

(** [np.where(mask)[0]]: the positions that hold [True], increasing. *)
Fixpoint where_from (k : nat) (mask : list bool) : list nat :=
  match mask with
  | [] => []
  | b :: r => if b then k :: where_from (S k) r else where_from (S k) r
  end.
Definition np_where (mask : list bool) : list nat := where_from 0 mask.

(** [a[mask]] for a boolean mask of the same length. *)
Fixpoint boolean_index {A} (a : list A) (mask : list bool) : list A :=
  match a, mask with
  | x :: a', b :: m' => if b then x :: boolean_index a' m' else boolean_index a' m'
  | _, _ => []
  end.

(** The dtype [<U30] keeps at most 30 characters of a string. *)
Definition U30 (s : string) : string := String.substring 0 30 s.

(** [a[idx] = vals] for an index array and a sequence of the same length
    (a sequence of another length is a shape error; broadcasting of a
    one-element sequence is not used by the script). *)
Definition setitem_fancy (a : list string) (idx : list nat) (vals : list string)
  : exn + list string :=
  if negb (Nat.eqb (length idx) (length vals)) then inl ValueError
  else if negb (forallb (fun i => Nat.ltb i (length a)) idx) then inl IndexError
  else inr (fold_left (fun acc iv => <[fst iv := U30 (snd iv)]> acc) (combine idx vals) a).

Definition astype_int (b : bool) : Z := if b then 1 else 0.

(** [f"{prefix}{i:0{w}d}"] *)
Definition zfill (w : nat) (s : string) : string :=
  String.concat "" (repeat "0" (w - String.length s)) ++ s.
Definition fmt_id (prefix : string) (w : nat) (i : nat) : string :=
  prefix ++ zfill w (NilEmpty.string_of_uint (Nat.to_uint i)).

(** ** The script *)

(** The output table, one list per column, in the order of the file. *)
Record DataFrame := {
  transaction_id : list string;
  timestamp : list Z;
  merchant_id : list string;
  merchant_category : list string;
  geography_ : list string;
  currency : list string;
  payment_method : list string;
  amount_usd : list float;
  pre_auth_risk_score : list float;
  status : list string;
  failure_code : list string;
  is_retryable : list Z;
  retry_recovered : list Z;
  is_recoverable : list Z;
  hour_of_day : list Z;
  day_of_week : list Z;
  is_weekend : list Z;
  month : list Z;
  year : list Z
}.

(** The module-level variables of the script once it has run.  [outcomes]
    is the array [rng.random(size=N)] compared with [fail_probs], which the
    script does not name. *)
Record Globals := {
  merchant_cats : list string;
  geos : list string;
  pay_methods : list string;
  amounts : list float;
  total_seconds : Z;
  raw_seconds : list Z;
  timestamps : list Z;
  hour_mult : list float;
  raw_risk : list float;
  risk_min : float;
  risk_max : float;
  risk_score_base : list float;
  noise : list float;
  risk_score : list float;
  fail_probs : list float;
  outcomes : list float;
  is_failed : list bool;
  failed_idx : list nat;
  retryable_mask : list bool;
  retry_assigns : list string;
  nonretry_assigns : list string;
  assigned_codes : list string;
  failure_codes : list string;
  retryable : list bool;
  recovered : list bool;
  recoverable : list bool;
  merchant_pop : list float;
  merchant_ids : list string;
  df : DataFrame
}.

Definition N : nat := Z.to_nat 1000000.
Definition n_merchants : nat := 5000.

Definition start_ts : Z := Calendar.Timestamp 2023 7 1.
Definition end_ts : Z := Calendar.Timestamp 2024 12 31.

Definition THRESHOLD : float := lit 45 2.
Definition SIGMA : float := lit 25 3.

Definition amount_risk (amount : float) : float :=
  np_clip (div (sub amount (of_Z 50)) (of_Z 1000)) (of_Z 0) (lit 12 2).

(** One element of the [assigned_codes] comprehension. *)
Definition code_for (retryable_mask : list bool) (retry_assigns nonretry_assigns : list string)
    (i : nat) : exn + string :=
  (b <~ index retryable_mask i ;;
   if b : bool then index retry_assigns i else index nonretry_assigns i)%exn.

(** One element of the [is_retryable] comprehension. *)
Definition retryable_of (c : string) : exn + bool :=
  if negb (String.eqb c "success")
  then (e <~ getitem FAILURE_CODES c ;; inr (fst e))%exn
  else inr false.

Section Script.

Context {G : Type} `{Generator G}.

(** [np.log], [np.exp] and [ndarray.sum]: the platform's, left abstract. *)
Variable np_log np_exp : float -> float.
Variable np_sum : list float -> float.

Definition sigmoid (x : float) : float := div (of_Z 1) (add (of_Z 1) (np_exp (opp x))).

Definition fail_prob (score : float) : float :=
  np_clip (add (mul (sigmoid (div (sub score THRESHOLD) SIGMA)) (lit 40 2)) (lit 3 2))
          (lit 2 2) (lit 90 2).

(** One element of the [amounts] comprehension: a dictionary access, one
    scalar draw, the floor at 1.0. *)
Definition draw_amount (mc : string) : M G float :=
  cat <~ try (getitem MERCHANT_CATEGORIES mc) ;;
  x <~ draw (lognormal (np_log (of_Z (avg_amount cat))) (lit 7 1)) ;;
  ret (py_max (lit 10 1) x).

(** One iteration of the recovery loop. *)
Definition recovery_step (failure_codes : list string)
    (retry_recovered : list bool) (idx : nat) : M G (list bool) :=
  code <~ try (index failure_codes idx) ;;
  let recovery_rate := dict_get RETRY_RECOVERY code (lit 50 2) in
  u <~ draw random_scalar ;;
  ret (<[idx := ltb u recovery_rate]> retry_recovered).

Definition script (N : nat) : M G Globals :=
  (* 2. sample dimensions *)
  let mc_keys := dict_keys MERCHANT_CATEGORIES in
  let mc_w := map (fun kv => cat_weight (snd kv)) MERCHANT_CATEGORIES in
  merchant_cats <~ draw (choice mc_keys (Some mc_w) N) ;;
  let geo_keys := dict_keys GEOGRAPHIES in
  let geo_w := map (fun kv => geo_weight (snd kv)) GEOGRAPHIES in
  geos <~ draw (choice geo_keys (Some geo_w) N) ;;
  let pm_keys := dict_keys PAYMENT_METHODS in
  let pm_w := map (fun kv => pm_weight (snd kv)) PAYMENT_METHODS in
  pay_methods <~ draw (choice pm_keys (Some pm_w) N) ;;
  (* 3. transaction amounts *)
  amounts <~ mapM draw_amount merchant_cats ;;
  let amounts := map (np_round 2) amounts in
  (* 4. timestamps *)
  let total_seconds := end_ts - start_ts in
  raw_seconds <~ draw (integers 0 total_seconds N) ;;
  let timestamps := map (fun s => start_ts + s) raw_seconds in
  let hours := map Calendar.hour timestamps in
  let hour_mult :=
    map (fun h => if (9 <=? h) && (h <=? 22) then lit 10 1 else lit 5 1) hours in
  let dow := map Calendar.dayofweek timestamps in
  let weekend := map (fun d => (d =? 5) || (d =? 6)) dow in
  (* 5. risk score and sigmoid failure model *)
  mc_base <~ try (mapE (fun mc => c <~ getitem MERCHANT_CATEGORIES mc ;; inr (fail_base c))%exn merchant_cats) ;;
  geo_mult <~ try (mapE (fun g => c <~ getitem GEOGRAPHIES g ;; inr (geo_fail_mult c))%exn geos) ;;
  pm_mult <~ try (mapE (fun pm => c <~ getitem PAYMENT_METHODS pm ;; inr (pm_fail_mult c))%exn pay_methods) ;;
  let amount_risks := map amount_risk amounts in
  let raw_risk :=
    zip_with add (zip_with mul (zip_with mul mc_base geo_mult) pm_mult) amount_risks in
  risk_min <~ try (from_option inr (inl ValueError) (array_min raw_risk)) ;;
  risk_max <~ try (from_option inr (inl ValueError) (array_max raw_risk)) ;;
  let risk_score_base :=
    map (fun r => div (sub r risk_min) (sub risk_max risk_min)) raw_risk in
  noise <~ draw (normal (of_Z 0) (lit 4 2) N) ;;
  let pre_auth_risk_score :=
    map (fun x => np_clip x (of_Z 0) (of_Z 1)) (zip_with add risk_score_base noise) in
  let fail_probs := map fail_prob pre_auth_risk_score in
  outcomes <~ draw (random N) ;;
  let is_failed := zip_with ltb outcomes fail_probs in
  (* 6. failure codes *)
  let failure_codes :=
    map (fun b : bool => U30 (if b then "pending_code" else "success")) is_failed in
  let failed_idx := np_where is_failed in
  let n_failed := length failed_idx in
  mask_draws <~ draw (random n_failed) ;;
  let retryable_mask := map (fun u => ltb u (lit 60 2)) mask_draws in
  retry_assigns <~ draw (choice RETRY_CODES None n_failed) ;;
  nonretry_assigns <~ draw (choice NON_RETRY_CODES None n_failed) ;;
  assigned_codes <~ try (mapE (code_for retryable_mask retry_assigns nonretry_assigns)
                              (seq 0 n_failed)) ;;
  failure_codes <~ try (setitem_fancy failure_codes failed_idx assigned_codes) ;;
  (* 7. retryable flag and recovery *)
  is_retryable <~ try (mapE retryable_of failure_codes) ;;
  retry_recovered <~ foldM (recovery_step failure_codes)
      (boolean_index failed_idx retryable_mask) (replicate N false) ;;
  let is_recoverable :=
    zip_with andb (zip_with andb is_retryable (map negb retry_recovered)) is_failed in
  (* 8. merchant ids *)
  merchant_pop <~ draw (power (lit 3 1) n_merchants) ;;
  let pop_sum := np_sum merchant_pop in
  let merchant_pop := map (fun x => div x pop_sum) merchant_pop in
  merchant_ids <~ draw (choice (map (fmt_id "MID_" 5) (seq 0 n_merchants))
                               (Some merchant_pop) N) ;;
  (* 9. assemble the table *)
  currencies <~ try (mapE (fun g => c <~ getitem GEOGRAPHIES g ;; inr (geo_currency c))%exn geos) ;;
  let frame := {|
    transaction_id := map (fmt_id "TXN_" 7) (seq 0 N);
    timestamp := timestamps;
    merchant_id := merchant_ids;
    merchant_category := merchant_cats;
    geography_ := geos;
    currency := currencies;
    payment_method := pay_methods;
    amount_usd := amounts;
    pre_auth_risk_score := map (np_round 4) pre_auth_risk_score;
    status := map (fun b : bool => if b then "failed" else "success") is_failed;
    failure_code := failure_codes;
    is_retryable := map astype_int is_retryable;
    retry_recovered := map astype_int retry_recovered;
    is_recoverable := map astype_int is_recoverable;
    hour_of_day := hours;
    day_of_week := dow;
    is_weekend := map astype_int weekend;
    month := map Calendar.month timestamps;
    year := map Calendar.year timestamps |} in
  ret {|
    merchant_cats := merchant_cats; geos := geos; pay_methods := pay_methods;
    amounts := amounts; total_seconds := total_seconds;
    raw_seconds := raw_seconds; timestamps := timestamps; hour_mult := hour_mult;
    raw_risk := raw_risk; risk_min := risk_min; risk_max := risk_max;
    risk_score_base := risk_score_base; noise := noise;
    risk_score := pre_auth_risk_score; fail_probs := fail_probs;
    outcomes := outcomes; is_failed := is_failed; failed_idx := failed_idx;
    retryable_mask := retryable_mask; retry_assigns := retry_assigns;
    nonretry_assigns := nonretry_assigns; assigned_codes := assigned_codes;
    failure_codes := failure_codes; retryable := is_retryable;
    recovered := retry_recovered; recoverable := is_recoverable;
    merchant_pop := merchant_pop; merchant_ids := merchant_ids; df := frame |}.

(** A run: the generator is created from the seed, then the script runs. *)
Definition run (seed : Z) (N : nat) : exn + Globals :=
  match script N (default_rng seed) with
  | inl e => inl e
  | inr (gl, _) => inr gl
  end.

End Script.

(** ** The summary printed after the table is saved

    [is_failed.sum()], [is_retryable.sum()] and [is_recoverable.sum()]:
    the sum of a boolean array counts its [True] entries. *)

Definition bool_sum (a : list bool) : Z :=
  fold_left (fun s (b : bool) => s + astype_int b) a 0.

Definition n_failed_total (gl : Globals) : Z := bool_sum (is_failed gl).
Definition n_retryable (gl : Globals) : Z := bool_sum (retryable gl).
Definition n_recoverable (gl : Globals) : Z := bool_sum (recoverable gl).

(** ** Saving the table

    [df.to_csv(out_path, index=False)] writes the text pandas makes of the
    table to [out_path].  The serialiser is pandas', a function of the
    table; it is a parameter here, as [np.exp] is.  What the script leaves
    behind is the path and the text of the file. *)


Section Save.

Context {G : Type} `{Generator G}.
Variable np_log np_exp : float -> float.
Variable np_sum : list float -> float.
Variable to_csv : DataFrame -> string.


End Save.

(** ** The order of draws

    A generator that records every call made on it, in order, next to the
    state of the generator it wraps. *)

Inductive draw_event :=
| Choice (a : list string) (p : option (list float)) (n : nat)
| Lognormal (mean sigma : float)
| Integers (lo hi : Z) (n : nat)
| Normal (mu sd : float) (n : nat)
| Random (n : nat)
| RandomScalar
| Power (a : float) (n : nat).

Definition logged {G A} (ev : draw_event) (f : G -> A * G)
  : G * list draw_event -> A * (G * list draw_event) :=
  fun gl => let (a, g') := f (fst gl) in (a, (g', snd gl ++ [ev])).

#[export] Instance traced (G : Type) `{Generator G} : Generator (G * list draw_event) := {|
  default_rng := fun seed => (default_rng seed, []);
  choice := fun a p n => logged (Choice a p n) (choice a p n);
  lognormal := fun mean sigma => logged (Lognormal mean sigma) (lognormal mean sigma);
  integers := fun lo hi n => logged (Integers lo hi n) (integers lo hi n);
  normal := fun mu sd n => logged (Normal mu sd n) (normal mu sd n);
  random := fun n => logged (Random n) (random n);
  random_scalar := logged RandomScalar random_scalar;
  power := fun a n => logged (Power a n) (power a n)
|}.

(** The calls the script makes for a batch of [N] rows whose final
    variables are [gl]: dimension sampling, amounts, timestamps, noise,
    outcomes, retryable class, code assignment, recovery, merchants. *)
Definition draw_order (np_log : float -> float) (N : nat) (gl : Globals)
  : list draw_event :=
  [ Choice (dict_keys MERCHANT_CATEGORIES)
           (Some (map (fun kv => cat_weight (snd kv)) MERCHANT_CATEGORIES)) N;
    Choice (dict_keys GEOGRAPHIES)
           (Some (map (fun kv => geo_weight (snd kv)) GEOGRAPHIES)) N;
    Choice (dict_keys PAYMENT_METHODS)
           (Some (map (fun kv => pm_weight (snd kv)) PAYMENT_METHODS)) N ]
  ++ flat_map (fun mc =>
        match dict_lookup MERCHANT_CATEGORIES mc with
        | Some c => [Lognormal (np_log (of_Z (avg_amount c))) (lit 7 1)]
        | None => []
        end) (merchant_cats gl)
  ++ [ Integers 0 (end_ts - start_ts) N;
       Normal (of_Z 0) (lit 4 2) N;
       Random N;
       Random (length (failed_idx gl));
       Choice RETRY_CODES None (length (failed_idx gl));
       Choice NON_RETRY_CODES None (length (failed_idx gl)) ]
  ++ repeat RandomScalar
       (length (boolean_index (failed_idx gl) (retryable_mask gl)))
  ++ [ Power (lit 3 1) n_merchants;
       Choice (map (fmt_id "MID_" 5) (seq 0 n_merchants))
              (Some (merchant_pop gl)) N ].

(** A run on the recording generator, with the log it leaves. *)
Definition traced_run {G : Type} `{Generator G}
    (np_log np_exp : float -> float) (np_sum : list float -> float)
    (seed : Z) (N : nat) : exn + (Globals * list draw_event) :=
  match script (G := G * list draw_event) np_log np_exp np_sum N (default_rng seed) with
  | inl e => inl e
  | inr (gl, (_, log)) => inr (gl, log)
  end.

(** ** A concrete generator

    A 64-bit linear congruential generator that satisfies the laws, at
    which the theorems below are instantiated; they hold for every
    generator that satisfies the laws. *)

Module Lcg.

Definition next (s : Z) : Z :=
  (s * 6364136223846793005 + 1442695040888963407) mod 2 ^ 64.

(** the top 53 bits of the state as a double in [0, 1) *)
Definition unit_float (s : Z) : float :=
  binary_normalize prec emax (s / 2 ^ 11) (-53) false.

Fixpoint sample {A} (f : Z -> A) (n : nat) (s : Z) : list A * Z :=
  match n with
  | O => ([], s)
  | S n' => let s' := next s in
            let (l, s'') := sample f n' s' in (f s' :: l, s'')
  end.

Definition pick (a : list string) (s : Z) : string :=
  nth (Z.to_nat ((s / 2 ^ 33) mod Z.of_nat (length a))) a (hd "" a).

Definition lcg_choice (a : list string) (p : option (list float)) (n : nat) (s : Z)
  : list string * Z :=
  match a with [] => ([], s) | _ => sample (pick a) n s end.

Definition lcg_integers (lo hi : Z) (n : nat) (s : Z) : list Z * Z :=
  if lo <? hi then sample (fun s => lo + (s / 2 ^ 20) mod (hi - lo)) n s else ([], s).

(** Doubles drawn from fixed tables. *)
Definition amounts_table : list float :=
  [ lit 5 1; lit 1234 2; lit 8550 2; lit 42099 2; lit 999 3; lit 250000 2;
    lit 6001 2; lit 17 0; lit 31415 2; lit 100 2; lit 7777 2; lit 12 1 ].
Definition noise_table : list float :=
  [ lit 1 2; opp (lit 3 2); lit 45 3; opp (lit 8 2); of_Z 0; lit 2 2;
    opp (lit 1 3); lit 6 2; opp (lit 55 3); lit 11 2 ].

Definition popularity_table : list float :=
  [ lit 1 3; lit 2 1; lit 5 2; lit 75 2; lit 1 6; lit 33 2; lit 9 1; lit 4 3 ].

Definition pick_float (t : list float) (s : Z) : float :=
  nth (Z.to_nat ((s / 2 ^ 33) mod Z.of_nat (length t))) t (of_Z 0).

Definition lcg_lognormal (mean sigma : float) (s : Z) : float * Z :=
  let s' := next s in (pick_float amounts_table s', s').

#[export] Instance lcg : Generator Z := {|
  default_rng := fun seed => seed mod 2 ^ 64;
  choice := lcg_choice;
  lognormal := lcg_lognormal;
  integers := lcg_integers;
  normal := fun mu sd n s => sample (pick_float noise_table) n s;
  random := fun n s => sample unit_float n s;
  random_scalar := fun s => let s' := next s in (unit_float s', s');
  power := fun a n s => sample (pick_float popularity_table) n s
|}.

(** Series stand-ins for the platform's [exp], [log] and [sum], used with
    the concrete generator only. *)
Fixpoint exp_terms (x term acc : float) (k : Z) (fuel : nat) : float :=
  match fuel with
  | O => acc
  | S f => let term' := div (mul term x) (of_Z k) in
           exp_terms x term' (add acc term') (k + 1) f
  end.
Definition exp_pos (x : float) : float := exp_terms x (of_Z 1) (of_Z 1) 1 40.
Definition exp (x : float) : float :=
  match x with
  | S754_nan => S754_nan
  | S754_infinity s => if s then S754_zero false else x
  | _ => if ltb x (of_Z 0) then div (of_Z 1) (exp_pos (opp x)) else exp_pos x
  end.
Fixpoint log_terms (y y2 pow acc : float) (k : Z) (fuel : nat) : float :=
  match fuel with
  | O => acc
  | S f => let pow' := mul pow y2 in
           log_terms y y2 pow' (add acc (div pow' (of_Z k))) (k + 2) f
  end.
Definition log (x : float) : float :=
  let y := div (sub x (of_Z 1)) (add x (of_Z 1)) in
  mul (of_Z 2) (log_terms y (mul y y) y y 3 60).
Definition sum (l : list float) : float := fold_left add l (of_Z 0).




End Lcg.

(** ** Generators without state

    Draws that follow a fixed pattern, whatever the seed.  With
    [vary = false] every array draw repeats one value, so all rows of a
    batch are alike; with [vary = true] a draw from a population walks
    through it in order.  Both satisfy the laws. *)

Module Pattern.

Definition member (vary : bool) (a : list string) (k : nat) : string :=
  nth (if vary then k mod length a else 0)%nat a (hd "" a).

Definition pattern_choice (vary : bool) (a : list string) (p : option (list float))
    (n : nat) (g : unit) : list string * unit :=
  (match a with [] => [] | _ => map (member vary a) (seq 0 n) end, g).

Definition pattern_integers (lo hi : Z) (n : nat) (g : unit) : list Z * unit :=
  (if lo <? hi then replicate n lo else [], g).

Definition pattern (vary : bool) : Generator unit := {|
  default_rng := fun _ => tt;
  choice := pattern_choice vary;
  lognormal := fun _ _ g => (of_Z 100, g);
  integers := pattern_integers;
  normal := fun _ _ n g => (replicate n (of_Z 0), g);
  random := fun n g => (replicate n (of_Z 0), g);
  random_scalar := fun g => (of_Z 0, g);
  power := fun _ n g => (replicate n (of_Z 1), g)
|}.

End Pattern.

(** * Properties *)

(** ** Running the monad *)

Lemma bind_inr {G A B} (c : M G A) (k : A -> M G B) g r :
  bind c k g = inr r -> exists a g1, c g = inr (a, g1) /\ k a g1 = inr r.
Proof.
  unfold bind. destruct (c g) as [e | [a g1]]; [discriminate | eauto].
Qed.

Lemma draw_inr {G A} (f : G -> A * G) g a g1 :
  draw f g = inr (a, g1) -> a = fst (f g) /\ g1 = snd (f g).
Proof. unfold draw. intros [= E]. rewrite E. auto. Qed.

Lemma try_inr {G A} (r : exn + A) (g : G) a g1 :
  try r g = inr (a, g1) -> r = inr a /\ g1 = g.
Proof. unfold try. destruct r; [discriminate | intros [= -> ->]; auto]. Qed.

Lemma ret_inr {G A} (a : A) (g : G) b g1 :
  ret a g = inr (b, g1) -> b = a /\ g1 = g.
Proof. unfold ret. intros [= -> ->]. auto. Qed.

Lemma bindE_inr {A B} (r : exn + A) (k : A -> exn + B) b :
  bindE r k = inr b -> exists a, r = inr a /\ k a = inr b.
Proof. destruct r; simpl; [discriminate | eauto]. Qed.

Lemma mapE_inr {A B} (f : A -> exn + B) l l' :
  mapE f l = inr l' -> Forall2 (fun x y => f x = inr y) l l'.
Proof.
  revert l'. induction l as [| a l IH]; simpl; intros l' E.
  - injection E as <-. constructor.
  - destruct (f a) as [e | b] eqn:Ea; [discriminate |].
    destruct (mapE f l) as [e | bs]; [discriminate |].
    injection E as <-. constructor; auto.
Qed.

Lemma mapE_total {A B} (f : A -> exn + B) l :
  Forall (fun x => exists y, f x = inr y) l -> exists l', mapE f l = inr l'.
Proof.
  induction 1 as [| a l [y Ey] _ [l' El']]; simpl; [eauto |].
  rewrite Ey, El'. eauto.
Qed.

Lemma mapM_inr {G A B} (f : A -> M G B) l g l' g' :
  mapM f l g = inr (l', g') ->
  Forall2 (fun x y => exists g1 g2, f x g1 = inr (y, g2)) l l'.
Proof.
  revert g l' g'. induction l as [| a l IH]; simpl; intros g l' g' E.
  - apply ret_inr in E as [-> _]. constructor.
  - apply bind_inr in E as (b & g1 & Eb & E).
    apply bind_inr in E as (bs & g2 & Ebs & E).
    apply ret_inr in E as [-> _]. constructor; [exists g, g1; exact Eb | eapply IH; exact Ebs].
Qed.

Lemma mapM_total {G A B} (f : A -> M G B) l :
  (forall x g, In x l -> exists y g', f x g = inr (y, g')) ->
  forall g, exists l' g', mapM f l g = inr (l', g').
Proof.
  induction l as [| a l IH]; intros Hf g; simpl.
  - unfold ret. eauto.
  - destruct (Hf a g) as (y & g1 & Ey); [now left |].
    destruct (IH (fun x g Hx => Hf x g (or_intror Hx)) g1) as (l' & g2 & El).
    unfold bind. rewrite Ey, El. unfold ret. eauto.
Qed.

(** ** Arrays *)

Lemma where_from_spec mask k i :
  i ∈ where_from k mask <-> exists j, i = (k + j)%nat /\ mask !! j = Some true.
Proof.
  revert k. induction mask as [| b mask IH]; intros k; simpl.
  - split; [intros Hi; inversion Hi | intros (j & _ & Hj); discriminate].
  - assert (Hrec : i ∈ where_from (S k) mask <->
              exists j, i = (k + S j)%nat /\ mask !! j = Some true).
    { rewrite IH. split; intros (j & -> & Hj); exists j; split; auto; lia. }
    destruct b.
    + rewrite elem_of_cons, Hrec. split.
      * intros [-> | (j & -> & Hj)]; [exists 0%nat | exists (S j)]; split; auto; lia.
      * intros ([| j] & -> & Hj); [left; lia | right; eauto].
    + rewrite Hrec. split.
      * intros (j & -> & Hj). exists (S j). auto.
      * intros ([| j] & -> & Hj); [discriminate | eauto].
Qed.

Lemma np_where_spec mask i : i ∈ np_where mask <-> mask !! i = Some true.
Proof.
  unfold np_where. rewrite where_from_spec. split.
  - intros (j & -> & Hj). exact Hj.
  - intros Hi. exists i. auto.
Qed.

Lemma where_from_NoDup mask k : NoDup (where_from k mask).
Proof.
  revert k. induction mask as [| b mask IH]; intros k; simpl; [constructor |].
  destruct b; [| apply IH].
  constructor; [| apply IH].
  rewrite where_from_spec. intros (j & Hj & _). lia.
Qed.

Lemma np_where_NoDup mask : NoDup (np_where mask).
Proof. apply where_from_NoDup. Qed.

Lemma boolean_index_spec {A} (a : list A) mask x :
  x ∈ boolean_index a mask ->
  exists j, a !! j = Some x /\ mask !! j = Some true.
Proof.
  revert mask. induction a as [| y a IH]; intros [| b mask]; simpl;
    try (intros Hx; inversion Hx; fail).
  destruct b.
  - rewrite elem_of_cons. intros [-> | Hx]; [exists 0%nat; auto |].
    destruct (IH _ Hx) as (j & ? & ?). exists (S j). auto.
  - intros Hx. destruct (IH _ Hx) as (j & ? & ?). exists (S j). auto.
Qed.

(** The scatter [a[idx] = vals] for pairwise distinct positions. *)
Lemma scatter_length (idx : list nat) (vals acc : list string) :
  length (fold_left (fun acc iv => <[fst iv := U30 (snd iv)]> acc) (combine idx vals) acc)
  = length acc.
Proof.
  revert vals acc. induction idx as [| i idx IH]; intros [| v vals] acc; simpl; auto.
  rewrite IH. apply length_insert.
Qed.

Lemma scatter_other (idx : list nat) (vals acc : list string) i :
  i ∉ idx ->
  fold_left (fun acc iv => <[fst iv := U30 (snd iv)]> acc) (combine idx vals) acc !! i
  = acc !! i.
Proof.
  revert vals acc. induction idx as [| k idx IH]; intros [| v vals] acc Hi; simpl; auto.
  rewrite not_elem_of_cons in Hi. destruct Hi as [Hne Hi].
  rewrite IH by assumption. apply list_lookup_insert_ne. auto.
Qed.

Lemma scatter_hit (idx : list nat) (vals acc : list string) j i v :
  NoDup idx -> Forall (fun i => (i < length acc)%nat) idx ->
  idx !! j = Some i -> vals !! j = Some v ->
  fold_left (fun acc iv => <[fst iv := U30 (snd iv)]> acc) (combine idx vals) acc !! i
  = Some (U30 v).
Proof.
  revert vals acc j. induction idx as [| k idx IH]; intros [| w vals] acc j Hnd Hlt Hi Hv;
    try discriminate.
  apply NoDup_cons in Hnd as [Hk Hnd]. apply Forall_cons in Hlt as [Hklt Hlt].
  destruct j as [| j]; simpl in *.
  - injection Hi as ->. injection Hv as ->.
    rewrite scatter_other by assumption.
    apply list_lookup_insert_eq. assumption.
  - eapply IH; eauto. eapply Forall_impl; [exact Hlt |].
    intros ?; simpl. rewrite length_insert. auto.
Qed.

Lemma setitem_fancy_inr a idx vals a' :
  setitem_fancy a idx vals = inr a' ->
  length idx = length vals /\ Forall (fun i => (i < length a)%nat) idx /\
  a' = fold_left (fun acc iv => <[fst iv := U30 (snd iv)]> acc) (combine idx vals) a.
Proof.
  unfold setitem_fancy.
  destruct (Nat.eqb (length idx) (length vals)) eqn:El; simpl; [| discriminate].
  destruct (forallb (fun i => Nat.ltb i (length a)) idx) eqn:Ef; simpl; [| discriminate].
  intros [= <-]. apply Nat.eqb_eq in El. split; [auto | split; [| auto]].
  rewrite forallb_forall in Ef. apply List.Forall_forall. intros i Hi.
  apply Nat.ltb_lt. auto.
Qed.

(** ** Rounding to binary64

    What the rounding function of [SpecFloat] does to a non-negative
    integer mantissa, stated on integers. *)

Module Rounding.

(** *** Digits *)

Lemma digits2_size m : digits2_pos m = Pos.size m.
Proof. induction m; simpl; congruence. Qed.

Lemma digits_bounds m :
  2 ^ (Zpos (digits2_pos m) - 1) <= Zpos m < 2 ^ Zpos (digits2_pos m).
Proof.
  rewrite digits2_size. split.
  - pose proof (Pos.size_le m) as Hle.
    assert (Hpow : 2 ^ Zpos (Pos.size m) = Zpos (2 ^ Pos.size m)) by (rewrite Pos2Z.inj_pow; reflexivity).
    assert (Hsplit : 2 ^ Zpos (Pos.size m) = 2 * 2 ^ (Zpos (Pos.size m) - 1)).
    { rewrite <- Z.pow_succ_r by lia. f_equal. lia. }
    lia.
  - pose proof (Pos.size_gt m) as Hgt.
    rewrite <- Pos2Z.inj_pow. lia.
Qed.

Lemma Zdigits2_nonneg m : 0 <= Zdigits2 m.
Proof. destruct m; simpl; lia. Qed.

Lemma Zdigits2_bounds m :
  0 < m -> 2 ^ (Zdigits2 m - 1) <= m < 2 ^ Zdigits2 m.
Proof. destruct m; try lia. intros _. apply digits_bounds. Qed.

(** the number of digits is determined by the binade *)
Lemma Zdigits2_unique m d :
  0 < m -> 2 ^ (d - 1) <= m < 2 ^ d -> Zdigits2 m = d.
Proof.
  intros Hm [Hlo Hhi]. pose proof (Zdigits2_bounds m Hm) as [Hlo' Hhi'].
  pose proof (Zdigits2_nonneg m).
  assert (Hd : 0 < d).
  { destruct (Z_lt_le_dec 0 d); auto.
    assert (2 ^ d <= 1); [| lia].
    destruct (Z.eq_dec d 0) as [-> | ?]; [simpl; lia |].
    rewrite Z.pow_neg_r by lia. lia. }
  assert (Zdigits2 m <> 0) by (destruct m; simpl; lia).
  destruct (Z.lt_trichotomy (Zdigits2 m) d) as [Hlt | [Heq | Hgt]]; auto.
  - assert (2 ^ Zdigits2 m <= 2 ^ (d - 1)) by (apply Z.pow_le_mono_r; lia). lia.
  - assert (2 ^ d <= 2 ^ (Zdigits2 m - 1)) by (apply Z.pow_le_mono_r; lia). lia.
Qed.

Lemma Zdigits2_le a b : 0 <= a <= b -> Zdigits2 a <= Zdigits2 b.
Proof.
  intros [Ha Hab]. destruct (Z.eq_dec a 0) as [-> | Hne]; [apply Zdigits2_nonneg |].
  pose proof (Zdigits2_bounds a ltac:(lia)) as [Hlo _].
  pose proof (Zdigits2_bounds b ltac:(lia)) as [_ Hhi].
  destruct (Z_lt_le_dec (Zdigits2 b) (Zdigits2 a)); [| lia].
  assert (2 ^ Zdigits2 b <= 2 ^ (Zdigits2 a - 1)); [| lia].
  apply Z.pow_le_mono_r; lia.
Qed.

(** digits of a mantissa shifted right *)
Lemma Zdigits2_shift m n :
  0 < m -> 0 <= n < Zdigits2 m -> Zdigits2 (m / 2 ^ n) = Zdigits2 m - n.
Proof.
  intros Hm Hn. pose proof (Zdigits2_bounds m Hm) as [Hlo Hhi].
  assert (Hp : 0 < 2 ^ n) by (apply Z.pow_pos_nonneg; lia).
  assert (Hlo' : 2 ^ (Zdigits2 m - n - 1) <= m / 2 ^ n).
  { apply Z.div_le_lower_bound; [lia |].
    rewrite <- Z.pow_add_r by lia. replace (n + (Zdigits2 m - n - 1)) with (Zdigits2 m - 1) by lia.
    exact Hlo. }
  assert (Hhi' : m / 2 ^ n < 2 ^ (Zdigits2 m - n)).
  { apply Z.div_lt_upper_bound; [lia |].
    rewrite <- Z.pow_add_r by lia. replace (n + (Zdigits2 m - n)) with (Zdigits2 m) by lia.
    exact Hhi. }
  apply Zdigits2_unique.
  - assert (0 < 2 ^ (Zdigits2 m - n - 1)) by (apply Z.pow_pos_nonneg; lia). lia.
  - split; [exact Hlo' | exact Hhi'].
Qed.

Lemma Zdigits2_shift_le m n :
  0 <= m -> 0 <= n -> Zdigits2 (m / 2 ^ n) <= Z.max 0 (Zdigits2 m - n).
Proof.
  intros Hm Hn. destruct (Z.eq_dec m 0) as [-> | Hne].
  { rewrite Z.div_0_l by (apply Z.pow_nonzero; lia). simpl. lia. }
  destruct (Z_lt_le_dec n (Zdigits2 m)).
  - rewrite Zdigits2_shift by lia. lia.
  - pose proof (Zdigits2_bounds m ltac:(lia)) as [_ Hhi].
    assert (2 ^ Zdigits2 m <= 2 ^ n) by (apply Z.pow_le_mono_r; lia).
    rewrite Z.div_small by lia. simpl. lia.
Qed.

(** *** Shifting a mantissa right *)

Lemma iter_pos_iter {A} (f : A -> A) p x : SpecFloat.iter_pos f p x = Pos.iter f x p.
Proof.
  revert x. induction p as [p IH | p IH |]; intros x; simpl.
  - rewrite !IH, !Pos.iter_swap. reflexivity.
  - rewrite !IH. reflexivity.
  - reflexivity.
Qed.

Lemma shr_1_m mrs : 0 <= shr_m mrs -> shr_m (shr_1 mrs) = shr_m mrs / 2.
Proof.
  destruct mrs as [m r s]. simpl. intros Hm.
  destruct m as [| [p | p |] | p]; simpl; try lia; try reflexivity.
  - rewrite Pos2Z.inj_xI. apply Z.div_unique with (r := 1); lia.
  - rewrite Pos2Z.inj_xO. apply Z.div_unique with (r := 0); lia.
Qed.

Definition exact_record (mrs : shr_record) : Prop :=
  shr_r mrs = false /\ shr_s mrs = false.

Lemma shr_1_exact mrs :
  0 <= shr_m mrs -> exact_record mrs -> shr_m mrs mod 2 = 0 -> exact_record (shr_1 mrs).
Proof.
  destruct mrs as [m r s]. unfold exact_record. simpl. intros Hm [-> ->] Hmod.
  destruct m as [| [p | p |] | p]; simpl; auto; try lia.
  - rewrite Pos2Z.inj_xI in Hmod. rewrite Z.add_comm, Z.mul_comm, Z.mod_add in Hmod by lia.
    discriminate.
  - discriminate.
Qed.

Lemma shr_iter_m p mrs :
  0 <= shr_m mrs ->
  shr_m (SpecFloat.iter_pos shr_1 p mrs) = shr_m mrs / 2 ^ Zpos p.
Proof.
  intros Hm. rewrite iter_pos_iter. induction p as [| p IH] using Pos.peano_ind.
  - simpl. rewrite shr_1_m by assumption. reflexivity.
  - rewrite Pos.iter_succ, shr_1_m.
    + rewrite IH, Pos2Z.inj_succ, Z.pow_succ_r by lia.
      rewrite Z.div_div by (try apply Z.pow_pos_nonneg; lia).
      f_equal. lia.
    + rewrite IH. apply Z.div_pos; [lia | apply Z.pow_pos_nonneg; lia].
Qed.

Lemma shr_iter_exact p mrs :
  0 <= shr_m mrs -> exact_record mrs -> shr_m mrs mod 2 ^ Zpos p = 0 ->
  exact_record (SpecFloat.iter_pos shr_1 p mrs).
Proof.
  intros Hm Hex. rewrite iter_pos_iter. induction p as [| p IH] using Pos.peano_ind.
  - simpl. intros Hmod. apply shr_1_exact; auto.
  - intros Hmod. rewrite Pos.iter_succ.
    rewrite Pos2Z.inj_succ, Z.pow_succ_r in Hmod by lia.
    assert (Hp : 0 < 2 ^ Zpos p) by (apply Z.pow_pos_nonneg; lia).
    apply Z.mod_divide in Hmod; [| lia]. destruct Hmod as [q Hq].
    pose proof (shr_iter_m p mrs Hm) as Hm'. rewrite iter_pos_iter in Hm'.
    apply shr_1_exact.
    + rewrite Hm'. apply Z.div_pos; lia.
    + apply IH. rewrite Hq. replace (q * (2 * 2 ^ Zpos p)) with ((q * 2) * 2 ^ Zpos p) by lia.
      apply Z.mod_mul. lia.
    + rewrite Hm', Hq. replace (q * (2 * 2 ^ Zpos p)) with ((q * 2) * 2 ^ Zpos p) by lia.
      rewrite Z.div_mul by lia. apply Z.mod_mul. lia.
Qed.

End Rounding.

Module RoundAux.
Import Rounding.

Abbreviation fexp' := (fexp prec emax).

Lemma fexp_eq e : fexp' e = Z.max (e - 53) (-1074).
Proof. reflexivity. Qed.

Lemma fexp_mono a b : a <= b -> fexp' a <= fexp' b.
Proof. rewrite !fexp_eq. lia. Qed.

Lemma record_of_loc_m m l : shr_m (shr_record_of_loc m l) = m.
Proof. destruct l as [| []]; reflexivity. Qed.

Lemma loc_of_record_of_loc m l : loc_of_shr_record (shr_record_of_loc m l) = l.
Proof. destruct l as [| []]; reflexivity. Qed.

Lemma exact_record_loc mrs : exact_record mrs <-> loc_of_shr_record mrs = loc_Exact.
Proof.
  destruct mrs as [m [] []]; unfold exact_record; simpl; split;
    try discriminate; try tauto; intros [? ?]; discriminate.
Qed.

(** the shift to the exponent of the format *)
Definition shift_of (m e : Z) : Z := Z.max 0 (fexp' (Zdigits2 m + e) - e).

Lemma shr_fexp_spec m e l :
  0 <= m ->
  e + shift_of m e = snd (shr_fexp prec emax m e l) /\
  shr_m (fst (shr_fexp prec emax m e l)) = m / 2 ^ shift_of m e /\
  (shift_of m e = 0 -> loc_of_shr_record (fst (shr_fexp prec emax m e l)) = l) /\
  (l = loc_Exact -> m mod 2 ^ shift_of m e = 0 ->
   loc_of_shr_record (fst (shr_fexp prec emax m e l)) = loc_Exact).
Proof.
  intros Hm. unfold shr_fexp, shr, shift_of.
  destruct (fexp' (Zdigits2 m + e) - e) as [| p | p] eqn:En; simpl fst; simpl snd.
  - change (Z.max 0 0) with 0. rewrite Z.add_0_r, Z.pow_0_r, Z.div_1_r.
    rewrite record_of_loc_m, loc_of_record_of_loc. auto.
  - replace (Z.max 0 (Zpos p)) with (Zpos p) by lia.
    rewrite shr_iter_m by (rewrite record_of_loc_m; exact Hm).
    rewrite record_of_loc_m. split_and!; auto; try lia.
    intros -> Hmod. apply exact_record_loc. apply shr_iter_exact.
    + simpl. exact Hm.
    + split; reflexivity.
    + simpl. exact Hmod.
  - replace (Z.max 0 (Zneg p)) with 0 by lia. rewrite Z.add_0_r, Z.pow_0_r, Z.div_1_r.
    rewrite record_of_loc_m, loc_of_record_of_loc. auto.
Qed.

Lemma round_nearest_even_bounds m l :
  m <= round_nearest_even m l <= m + 1.
Proof. destruct l as [| []]; simpl; try lia. destruct (Z.even m); lia. Qed.

Lemma round_nearest_even_exact m : round_nearest_even m loc_Exact = m.
Proof. reflexivity. Qed.

(** The result of rounding, by the integers it goes through: the first
    shift, the rounded mantissa, the second shift. *)
Record rounds (mx ex : Z) (lx : location) (m1 e1 m2 m3 e3 : Z) : Prop := {
  rd_e1 : e1 = ex + shift_of mx ex;
  rd_m1 : m1 = mx / 2 ^ shift_of mx ex;
  rd_m2 : m1 <= m2 <= m1 + 1;
  rd_exact : lx = loc_Exact -> mx mod 2 ^ shift_of mx ex = 0 -> m2 = m1;
  rd_e3 : e3 = e1 + shift_of m2 e1;
  rd_m3 : m3 = m2 / 2 ^ shift_of m2 e1
}.

Definition pack (sx : bool) (m3 e3 : Z) : float :=
  match m3 with
  | Z0 => S754_zero sx
  | Zpos m => if e3 <=? 971 then S754_finite sx m e3 else S754_infinity sx
  | Zneg _ => S754_nan
  end.

Lemma binary_round_aux_spec sx mx ex lx :
  0 <= mx ->
  exists m1 e1 m2 m3 e3,
    rounds mx ex lx m1 e1 m2 m3 e3 /\
    binary_round_aux prec emax sx mx ex lx = pack sx m3 e3.
Proof.
  intros Hm. unfold binary_round_aux.
  pose proof (shr_fexp_spec mx ex lx Hm) as (He1 & Hm1 & _ & Hex).
  destruct (shr_fexp prec emax mx ex lx) as [mrs1 e1]. simpl fst in *; simpl snd in *.
  set (m2 := round_nearest_even (shr_m mrs1) (loc_of_shr_record mrs1)).
  assert (Hm1nn : 0 <= shr_m mrs1).
  { rewrite Hm1. apply Z.div_pos; [lia | apply Z.pow_pos_nonneg; unfold shift_of; lia]. }
  assert (Hm2 : shr_m mrs1 <= m2 <= shr_m mrs1 + 1) by apply round_nearest_even_bounds.
  pose proof (shr_fexp_spec m2 e1 loc_Exact ltac:(lia)) as (He3 & Hm3 & _ & _).
  destruct (shr_fexp prec emax m2 e1 loc_Exact) as [mrs3 e3]. simpl fst in *; simpl snd in *.
  exists (shr_m mrs1), e1, m2, (shr_m mrs3), e3. split.
  - constructor.
    + symmetry. exact He1.
    + exact Hm1.
    + exact Hm2.
    + intros Hl Hmod. unfold m2. rewrite (Hex Hl Hmod). reflexivity.
    + symmetry. exact He3.
    + exact Hm3.
  - unfold pack. reflexivity.
Qed.

End RoundAux.

Module Bounds.
Import Rounding RoundAux.

Lemma pow2_pos n : 0 <= n -> 0 < 2 ^ n.
Proof. intros. apply Z.pow_pos_nonneg; lia. Qed.

Lemma pow2_split a b k : k <= a -> a <= b -> 2 ^ (b - k) = 2 ^ (b - a) * 2 ^ (a - k).
Proof. intros. rewrite <- Z.pow_add_r by lia. f_equal. lia. Qed.

Lemma pow2_le a b : 0 <= a <= b -> 2 ^ a <= 2 ^ b.
Proof. intros. apply Z.pow_le_mono_r; lia. Qed.

Lemma shift_of_nonneg m e : 0 <= shift_of m e.
Proof. unfold shift_of. lia. Qed.

Lemma shift_of_exp m e : fexp' (Zdigits2 m + e) <= e + shift_of m e.
Proof. unfold shift_of. lia. Qed.

(** a mantissa of at most 53 digits is below 2^53 *)
Lemma digits_53_lt m : 0 <= m -> Zdigits2 m <= 53 -> m < 2 ^ 53.
Proof.
  intros Hm Hd. destruct (Z.eq_dec m 0) as [-> | Hne]; [reflexivity |].
  pose proof (Zdigits2_bounds m ltac:(lia)) as [_ Hhi].
  pose proof (Zdigits2_nonneg m).
  assert (2 ^ Zdigits2 m <= 2 ^ 53) by (apply pow2_le; lia). lia.
Qed.

Lemma lt_53_digits m : 0 <= m < 2 ^ 53 -> Zdigits2 m <= 53.
Proof.
  intros [Hm Hlt]. destruct (Z.eq_dec m 0) as [-> | Hne]; [simpl; lia |].
  pose proof (Zdigits2_bounds m ltac:(lia)) as [Hlo _].
  destruct (Z_lt_le_dec 53 (Zdigits2 m)); [| lia].
  assert (2 ^ 53 <= 2 ^ (Zdigits2 m - 1)) by (apply pow2_le; lia). lia.
Qed.

(** a shift that ends above the smallest exponent leaves 53 digits *)
Lemma shift_full m e :
  0 < m -> 0 < shift_of m e -> -1074 < e + shift_of m e ->
  2 ^ 52 <= m / 2 ^ shift_of m e.
Proof.
  unfold shift_of. rewrite fexp_eq. intros Hm Hn He.
  pose proof (Zdigits2_bounds m Hm) as [Hlo Hhi].
  set (d := Zdigits2 m) in *.
  assert (Hneq : Z.max 0 (Z.max (d + e - 53) (-1074) - e) = d - 53) by lia.
  rewrite Hneq in *.
  apply Z.div_le_lower_bound; [apply pow2_pos; lia |].
  rewrite <- Z.pow_add_r by lia. replace (d - 53 + 52) with (d - 1) by lia. exact Hlo.
Qed.

(** a mantissa of 53 digits at a higher exponent is above the bound *)
Lemma above_binade (mb m eb e k : Z) :
  0 <= mb < 2 ^ 53 -> 2 ^ 52 <= m -> eb < e -> k <= eb ->
  mb * 2 ^ (eb - k) <= m * 2 ^ (e - k).
Proof.
  intros Hmb Hm He Hk.
  rewrite (pow2_split eb e k) by lia.
  pose proof (pow2_pos (eb - k) ltac:(lia)).
  assert (2 ^ 1 <= 2 ^ (e - eb)) by (apply pow2_le; lia).
  change (2 ^ 1) with 2 in *. change (2 ^ 53) with (2 * 2 ^ 52) in Hmb.
  assert (H52 : 0 < 2 ^ 52) by reflexivity.
  remember (2 ^ 52) as T. remember (2 ^ (e - eb)) as Q. remember (2 ^ (eb - k)) as P.
  assert (Hstep : mb <= m * Q).
  { apply Z.le_trans with (m * 2); [lia |]. apply Z.mul_le_mono_nonneg_l; lia. }
  rewrite Z.mul_assoc. apply Z.mul_le_mono_nonneg_r; lia.
Qed.

(** digits compare like values *)
Lemma digits_of_le (a b ea eb k : Z) :
  0 < a -> 0 < b -> k <= ea -> k <= eb ->
  a * 2 ^ (ea - k) <= b * 2 ^ (eb - k) ->
  Zdigits2 a + ea <= Zdigits2 b + eb.
Proof.
  intros Ha Hb Hka Hkb Hle.
  pose proof (Zdigits2_bounds a Ha) as [Hlo _].
  pose proof (Zdigits2_bounds b Hb) as [_ Hhi].
  pose proof (Zdigits2_nonneg a). pose proof (Zdigits2_nonneg b).
  assert (Hda : 0 < Zdigits2 a) by (destruct a; simpl in *; lia).
  destruct (Z_lt_le_dec (Zdigits2 b + eb) (Zdigits2 a + ea)) as [Hlt | ?]; [| lia].
  exfalso.
  assert (H1 : 2 ^ (Zdigits2 a - 1 + (ea - k)) <= a * 2 ^ (ea - k)).
  { rewrite Z.pow_add_r by lia. apply Z.mul_le_mono_nonneg_r; [apply Z.pow_nonneg; lia | exact Hlo]. }
  assert (H2 : b * 2 ^ (eb - k) < 2 ^ (Zdigits2 b + (eb - k))).
  { rewrite Z.pow_add_r by lia. apply Z.mul_lt_mono_pos_r; [apply pow2_pos; lia | exact Hhi]. }
  assert (H3 : 2 ^ (Zdigits2 b + (eb - k)) <= 2 ^ (Zdigits2 a - 1 + (ea - k)))
    by (apply pow2_le; lia).
  lia.
Qed.

Section Canonical.

Variables (mb : positive) (eb : Z).
Hypothesis Hcan : fexp' (Zdigits2 (Zpos mb) + eb) = eb.

Lemma canonical_emin : -1074 <= eb.
Proof. rewrite fexp_eq in Hcan. lia. Qed.

Lemma canonical_digits : Zdigits2 (Zpos mb) <= 53.
Proof. rewrite fexp_eq in Hcan. lia. Qed.

Lemma canonical_lt : Zpos mb < 2 ^ 53.
Proof. apply digits_53_lt; [lia | apply canonical_digits]. Qed.

Lemma canonical_normal : -1074 < eb -> 2 ^ 52 <= Zpos mb.
Proof.
  intros He. rewrite fexp_eq in Hcan.
  pose proof (Zdigits2_bounds (Zpos mb) ltac:(lia)) as [Hlo _].
  replace (Zdigits2 (Zpos mb) - 1) with 52 in Hlo by lia. exact Hlo.
Qed.

(** Rounding is above every double below the value rounded. *)
Lemma rounds_lower mx ex lx m1 e1 m2 m3 e3 k :
  rounds mx ex lx m1 e1 m2 m3 e3 -> 0 <= mx ->
  k <= ex -> k <= eb ->
  Zpos mb * 2 ^ (eb - k) <= mx * 2 ^ (ex - k) ->
  (eb < e3 \/ (e3 = eb /\ Zpos mb <= m3)) /\
  Zpos mb * 2 ^ (eb - k) <= m3 * 2 ^ (e3 - k).
Proof.
  intros [He1 Hm1 Hm2 _ He3 Hm3] Hmx Hkx Hkb Hle.
  pose proof canonical_emin as Hemin. pose proof canonical_lt as Hblt.
  pose proof (pow2_pos (eb - k) ltac:(lia)) as Hpb.
  pose proof (pow2_pos (ex - k) ltac:(lia)) as Hpx.
  assert (Hmx0 : 0 < mx) by nia.
  pose proof (shift_of_nonneg mx ex) as Hn1. pose proof (shift_of_nonneg m2 e1) as Hn2.
  (* the first shift does not go below the exponent of the bound *)
  assert (Hdig : Zdigits2 (Zpos mb) + eb <= Zdigits2 mx + ex)
    by (apply (digits_of_le (Zpos mb) mx eb ex k); auto; lia).
  assert (Heb1 : eb <= e1).
  { rewrite He1. pose proof (shift_of_exp mx ex). pose proof (fexp_mono _ _ Hdig). lia. }
  assert (Hp1 : 0 < 2 ^ shift_of mx ex) by (apply pow2_pos; lia).
  (* after the first shift *)
  assert (H1 : (e1 = eb -> Zpos mb <= m1) /\ Zpos mb * 2 ^ (eb - k) <= m1 * 2 ^ (e1 - k)).
  { destruct (Z.eq_dec e1 eb) as [Heq | Hne].
    - assert (Hb1 : Zpos mb <= m1).
      { rewrite Hm1. apply Z.div_le_lower_bound; [lia |].
        rewrite (pow2_split ex eb k) in Hle by lia.
        replace (eb - ex) with (shift_of mx ex) in Hle by lia. nia. }
      split; [auto |]. rewrite Heq. nia.
    - split; [intros; lia |].
      destruct (Z.eq_dec (shift_of mx ex) 0) as [Hz | Hnz].
      + rewrite Hm1, He1, Hz, Z.pow_0_r, Z.div_1_r, Z.add_0_r. exact Hle.
      + apply above_binade; try lia.
        rewrite Hm1. apply shift_full; lia. }
  destruct H1 as [H1s H1v].
  assert (Hp1k : 0 < 2 ^ (e1 - k)) by (apply pow2_pos; lia).
  assert (H2v : Zpos mb * 2 ^ (eb - k) <= m2 * 2 ^ (e1 - k)) by nia.
  assert (Hm20 : 0 < m2) by nia.
  destruct (Z.eq_dec (shift_of m2 e1) 0) as [Hz | Hnz].
  - rewrite Hm3, He3, Hz, Z.pow_0_r, Z.div_1_r, Z.add_0_r. split; [| exact H2v].
    destruct (Z.eq_dec e1 eb) as [Heq | Hne]; [right | left; lia].
    split; [exact Heq |]. specialize (H1s Heq). lia.
  - split; [left; lia |].
    apply above_binade; try lia.
    rewrite Hm3. apply shift_full; lia.
Qed.

(** Rounding is below every double above the value rounded; it returns
    the double itself only when the value is that double. *)
Lemma rounds_upper mx ex lx m1 e1 m2 m3 e3 k :
  rounds mx ex lx m1 e1 m2 m3 e3 -> 0 <= mx ->
  ex <= fexp' (Zdigits2 mx + ex) ->
  k <= ex -> k <= eb ->
  mx * 2 ^ (ex - k) <= Zpos mb * 2 ^ (eb - k) ->
  (mx * 2 ^ (ex - k) = Zpos mb * 2 ^ (eb - k) -> lx = loc_Exact) ->
  0 <= m3 /\ (e3 < eb \/ (e3 = eb /\ m3 <= Zpos mb)) /\
  m3 * 2 ^ (e3 - k) <= Zpos mb * 2 ^ (eb - k).
Proof.
  intros [He1 Hm1 Hm2 Hex He3 Hm3] Hmx H0 Hkx Hkb Hle Heq.
  pose proof canonical_emin as Hemin. pose proof canonical_lt as Hblt.
  pose proof (pow2_pos (eb - k) ltac:(lia)) as Hpb.
  pose proof (pow2_pos (ex - k) ltac:(lia)) as Hpx.
  pose proof (shift_of_nonneg mx ex) as Hn1. pose proof (shift_of_nonneg m2 e1) as Hn2.
  assert (Hp1 : 0 < 2 ^ shift_of mx ex) by (apply pow2_pos; lia).
  assert (Hn1eq : e1 = fexp' (Zdigits2 mx + ex)) by (unfold shift_of in He1; lia).
  assert (Hm10 : 0 <= m1) by (rewrite Hm1; apply Z.div_pos; lia).
  (* the first shift stays at or below the exponent of the bound *)
  assert (He1b : e1 <= eb).
  { rewrite Hn1eq. destruct (Z.eq_dec mx 0) as [-> | Hne].
    - simpl Zdigits2 in *. rewrite fexp_eq in *. lia.
    - rewrite <- Hcan. apply fexp_mono.
      apply (digits_of_le mx (Zpos mb) ex eb k); auto; lia. }
  assert (He1min : -1074 <= e1) by (rewrite Hn1eq, fexp_eq; lia).
  (* at most 53 digits are left *)
  assert (Hd1 : m1 < 2 ^ 53).
  { apply digits_53_lt; [exact Hm10 |]. rewrite Hm1.
    pose proof (Zdigits2_shift_le mx (shift_of mx ex) Hmx Hn1).
    rewrite Hn1eq, fexp_eq in He1. lia. }
  assert (Hm3nn : 0 <= m3).
  { rewrite Hm3. apply Z.div_pos; [lia | apply pow2_pos; lia]. }
  split; [exact Hm3nn |].
  assert (Hp1k : 0 < 2 ^ (e1 - k)) by (apply pow2_pos; lia).
  destruct (Z.eq_dec e1 eb) as [Hee | Hne].
  - (* same exponent as the bound *)
    assert (Hub : mx <= Zpos mb * 2 ^ shift_of mx ex).
    { rewrite (pow2_split ex eb k) in Hle by lia.
      replace (eb - ex) with (shift_of mx ex) in Hle by lia. nia. }
    assert (Hm1b : m1 <= Zpos mb).
    { rewrite Hm1. apply Z.div_le_upper_bound; [lia |]. lia. }
    assert (Hm2b : m2 <= Zpos mb).
    { destruct (Z.eq_dec m1 (Zpos mb)) as [Hmm | Hmm]; [| lia].
      assert (Hlow : m1 * 2 ^ shift_of mx ex <= mx).
      { rewrite Hm1, Z.mul_comm. apply Z.mul_div_le. lia. }
      assert (Hval : mx = Zpos mb * 2 ^ shift_of mx ex) by nia.
      rewrite Hex; [lia | |].
      - apply Heq. rewrite (pow2_split ex eb k) by lia.
        replace (eb - ex) with (shift_of mx ex) by lia.
        rewrite Z.mul_assoc, <- Hval. reflexivity.
      - apply Z.mod_divide; [lia |]. exists (Zpos mb). exact Hval. }
    assert (Hz : shift_of m2 e1 = 0).
    { unfold shift_of.
      assert (Zdigits2 m2 <= Zdigits2 (Zpos mb)) by (apply Zdigits2_le; lia).
      pose proof (fexp_mono (Zdigits2 m2 + e1) (Zdigits2 (Zpos mb) + eb) ltac:(lia)). lia. }
    rewrite Hm3, He3, Hz, Z.pow_0_r, Z.div_1_r, Z.add_0_r, Hee.
    split; [right; split; [reflexivity | exact Hm2b] |]. nia.
  - (* a smaller exponent *)
    assert (Hnorm : 2 ^ 52 <= Zpos mb) by (apply canonical_normal; lia).
    assert (Hm2b : m2 <= 2 ^ 53) by lia.
    assert (Hstep : 2 ^ (eb - k) = 2 ^ (eb - e1) * 2 ^ (e1 - k)) by (apply pow2_split; lia).
    assert (H2 : 2 <= 2 ^ (eb - e1)).
    { change 2 with (2 ^ 1) at 1. apply pow2_le. lia. }
    destruct (Z.eq_dec m2 (2 ^ 53)) as [Hfull | Hnf].
    + assert (Hz : shift_of m2 e1 = 1).
      { unfold shift_of. rewrite Hfull. change (Zdigits2 (2 ^ 53)) with 54.
        rewrite fexp_eq. lia. }
      rewrite Hm3, He3, Hz, Hfull. change (2 ^ 53 / 2 ^ 1) with (2 ^ 52).
      split.
      * destruct (Z.eq_dec (e1 + 1) eb); [right | left]; lia.
      * replace (e1 + 1 - k) with (1 + (e1 - k)) by lia.
        rewrite Z.pow_add_r by lia. change (2 ^ 1) with 2.
        change (2 ^ 53) with (2 * 2 ^ 52) in *. nia.
    + assert (Hz : shift_of m2 e1 = 0).
      { unfold shift_of. pose proof (lt_53_digits m2 ltac:(lia)).
        rewrite fexp_eq. lia. }
      rewrite Hm3, He3, Hz, Z.pow_0_r, Z.div_1_r, Z.add_0_r.
      split; [left; lia |].
      change (2 ^ 53) with (2 * 2 ^ 52) in *. nia.
Qed.

End Canonical.

(** The rounded mantissa has at most 53 digits. *)
Lemma rounds_digits mx ex lx m1 e1 m2 m3 e3 :
  rounds mx ex lx m1 e1 m2 m3 e3 -> 0 <= mx -> 0 <= m3 < 2 ^ 53.
Proof.
  intros [He1 Hm1 Hm2 _ He3 Hm3] Hmx.
  pose proof (shift_of_nonneg mx ex) as Hn1. pose proof (shift_of_nonneg m2 e1) as Hn2.
  assert (Hm10 : 0 <= m1) by (rewrite Hm1; apply Z.div_pos; [lia | apply pow2_pos; lia]).
  assert (Hd1 : m1 < 2 ^ 53).
  { apply digits_53_lt; [exact Hm10 |]. rewrite Hm1.
    pose proof (Zdigits2_shift_le mx (shift_of mx ex) Hmx Hn1).
    pose proof (shift_of_exp mx ex) as Hs. rewrite fexp_eq in Hs. lia. }
  assert (Hp2 : 0 < 2 ^ shift_of m2 e1) by (apply pow2_pos; lia).
  split; [rewrite Hm3; apply Z.div_pos; lia |].
  destruct (Z.eq_dec m2 (2 ^ 53)) as [Hfull | Hnf].
  - pose proof (shift_of_exp m2 e1) as Hs. rewrite Hfull in Hs.
    change (Zdigits2 (2 ^ 53)) with 54 in Hs. rewrite fexp_eq in Hs.
    rewrite Hm3, Hfull in *. apply Z.div_lt_upper_bound; [lia |].
    assert (2 ^ 1 <= 2 ^ shift_of (2 ^ 53) e1) by (apply pow2_le; lia).
    change (2 ^ 1) with 2 in *. lia.
  - rewrite Hm3. apply Z.le_lt_trans with m2; [| lia].
    apply Z.div_le_upper_bound; [lia |]. nia.
Qed.

End Bounds.

Module Values.
Import Rounding RoundAux Bounds.

(** [vle m1 e1 m2 e2]: [m1 * 2^e1 <= m2 * 2^e2], on integers. *)
Definition vle (m1 e1 m2 e2 : Z) : Prop :=
  m1 * 2 ^ (e1 - Z.min e1 e2) <= m2 * 2 ^ (e2 - Z.min e1 e2).

Lemma vle_scale m1 e1 m2 e2 k :
  k <= e1 -> k <= e2 ->
  (vle m1 e1 m2 e2 <-> m1 * 2 ^ (e1 - k) <= m2 * 2 ^ (e2 - k)).
Proof.
  intros H1 H2. unfold vle. set (k0 := Z.min e1 e2).
  rewrite (pow2_split k0 e1 k), (pow2_split k0 e2 k) by lia.
  pose proof (pow2_pos (k0 - k) ltac:(lia)) as Hp.
  rewrite !Z.mul_assoc. split; intros Hle.
  - apply Z.mul_le_mono_nonneg_r; lia.
  - apply Z.mul_le_mono_pos_r in Hle; lia.
Qed.

Lemma vle_at m1 e1 m2 e2 k :
  k <= e1 -> k <= e2 -> vle m1 e1 m2 e2 -> m1 * 2 ^ (e1 - k) <= m2 * 2 ^ (e2 - k).
Proof. intros H1 H2. apply (proj1 (vle_scale m1 e1 m2 e2 k H1 H2)). Qed.

Lemma vle_of m1 e1 m2 e2 k :
  k <= e1 -> k <= e2 -> m1 * 2 ^ (e1 - k) <= m2 * 2 ^ (e2 - k) -> vle m1 e1 m2 e2.
Proof. intros H1 H2. apply (proj2 (vle_scale m1 e1 m2 e2 k H1 H2)). Qed.

Lemma vle_refl m e : vle m e m e.
Proof. unfold vle. lia. Qed.

Lemma vle_trans m1 e1 m2 e2 m3 e3 :
  vle m1 e1 m2 e2 -> vle m2 e2 m3 e3 -> vle m1 e1 m3 e3.
Proof.
  intros H12 H23.
  assert (Hk1 : Z.min e1 (Z.min e2 e3) <= e1) by lia.
  assert (Hk2 : Z.min e1 (Z.min e2 e3) <= e2) by lia.
  assert (Hk3 : Z.min e1 (Z.min e2 e3) <= e3) by lia.
  apply (vle_at _ _ _ _ _ Hk1 Hk2) in H12. apply (vle_at _ _ _ _ _ Hk2 Hk3) in H23.
  apply (vle_of _ _ _ _ _ Hk1 Hk3). lia.
Qed.

(** multiplying both sides by a positive mantissa and shifting exponents *)
Lemma vle_mul m1 e1 m2 e2 c ec :
  0 < c -> vle m1 e1 m2 e2 -> vle (m1 * c) (e1 + ec) (m2 * c) (e2 + ec).
Proof.
  intros Hc H.
  assert (Hk1 : Z.min e1 e2 <= e1) by lia. assert (Hk2 : Z.min e1 e2 <= e2) by lia.
  apply (vle_at _ _ _ _ _ Hk1 Hk2) in H.
  apply (vle_of _ _ _ _ (Z.min e1 e2 + ec)); try lia.
  replace (e1 + ec - (Z.min e1 e2 + ec)) with (e1 - Z.min e1 e2) by lia.
  replace (e2 + ec - (Z.min e1 e2 + ec)) with (e2 - Z.min e1 e2) by lia.
  replace (m1 * c * 2 ^ (e1 - Z.min e1 e2)) with (m1 * 2 ^ (e1 - Z.min e1 e2) * c) by ring.
  replace (m2 * c * 2 ^ (e2 - Z.min e1 e2)) with (m2 * 2 ^ (e2 - Z.min e1 e2) * c) by ring.
  apply Z.mul_le_mono_nonneg_r; lia.
Qed.

(** *** Shapes of results *)

Lemma pack_zero sx e3 : pack sx 0 e3 = S754_zero sx.
Proof. reflexivity. Qed.

Lemma pack_pos sx m3 e3 :
  0 < m3 -> e3 <= 971 -> pack sx m3 e3 = S754_finite sx (Z.to_pos m3) e3.
Proof.
  intros Hm He. destruct m3 as [| p | p]; try lia. simpl.
  apply Z.leb_le in He. rewrite He. reflexivity.
Qed.

Lemma pack_not_nan sx m3 e3 : 0 <= m3 -> is_nan (pack sx m3 e3) = false.
Proof.
  intros Hm. destruct m3 as [| p | p]; try lia; simpl; auto.
  destruct (e3 <=? 971); reflexivity.
Qed.

(** a result that is a double or an infinity of the given sign *)
Definition signed (sx : bool) (x : float) : Prop :=
  match x with
  | S754_zero s | S754_infinity s | S754_finite s _ _ => s = sx
  | S754_nan => False
  end.

Lemma pack_signed sx m3 e3 : 0 <= m3 -> signed sx (pack sx m3 e3).
Proof.
  intros Hm. destruct m3 as [| p | p]; try lia; simpl; auto.
  destruct (e3 <=? 971); reflexivity.
Qed.

Lemma signed_nonneg x : signed false x -> leb (of_Z 0) x = true.
Proof. destruct x as [[] | [] | | [] m e]; simpl; intros Hs; try reflexivity; try discriminate; destruct Hs. Qed.

(** *** The rounding function on its own *)

Section Round.

Variables (mb : positive) (eb : Z).
Hypothesis Hcan : fexp' (Zdigits2 (Zpos mb) + eb) = eb.
Hypothesis Hmax : eb <= 971.

Lemma binary_round_aux_upper sx mx ex lx :
  0 <= mx -> ex <= fexp' (Zdigits2 mx + ex) ->
  vle mx ex (Zpos mb) eb ->
  (vle (Zpos mb) eb mx ex -> lx = loc_Exact) ->
  exists m3 e3,
    binary_round_aux prec emax sx mx ex lx = pack sx m3 e3 /\
    0 <= m3 /\ e3 <= 971 /\
    (e3 < eb \/ (e3 = eb /\ m3 <= Zpos mb)) /\
    vle m3 e3 (Zpos mb) eb.
Proof.
  intros Hmx H0 Hle Heq.
  destruct (binary_round_aux_spec sx mx ex lx Hmx) as (m1 & e1 & m2 & m3 & e3 & Hr & ->).
  assert (Hk1 : Z.min ex eb <= ex) by lia. assert (Hk2 : Z.min ex eb <= eb) by lia.
  set (k := Z.min ex eb) in *.
  apply (vle_at _ _ _ _ _ Hk1 Hk2) in Hle.
  destruct (rounds_upper mb eb Hcan mx ex lx m1 e1 m2 m3 e3 k Hr Hmx H0) as (Hm3 & Hsyn & Hval);
    try lia.
  { intros E. apply Heq. apply (vle_of _ _ _ _ k); lia. }
  assert (He3 : ex <= e3).
  { destruct Hr as [He1 _ _ _ He3 _].
    pose proof (shift_of_nonneg mx ex). pose proof (shift_of_nonneg m2 e1). lia. }
  exists m3, e3. split_and!; auto; try lia.
  apply (vle_of _ _ _ _ k); lia.
Qed.

Lemma binary_round_aux_lower sx mx ex lx :
  0 <= mx -> vle (Zpos mb) eb mx ex ->
  exists m3 e3,
    binary_round_aux prec emax sx mx ex lx = pack sx m3 e3 /\
    0 < m3 /\
    (eb < e3 \/ (e3 = eb /\ Zpos mb <= m3)) /\
    vle (Zpos mb) eb m3 e3.
Proof.
  intros Hmx Hle.
  destruct (binary_round_aux_spec sx mx ex lx Hmx) as (m1 & e1 & m2 & m3 & e3 & Hr & ->).
  assert (Hk1 : Z.min ex eb <= ex) by lia. assert (Hk2 : Z.min ex eb <= eb) by lia.
  set (k := Z.min ex eb) in *.
  apply (vle_at _ _ _ _ _ Hk2 Hk1) in Hle.
  destruct (rounds_lower mb eb Hcan mx ex lx m1 e1 m2 m3 e3 k Hr Hmx) as (Hsyn & Hval);
    try lia.
  assert (He3 : ex <= e3).
  { destruct Hr as [He1 _ _ _ He3 _].
    pose proof (shift_of_nonneg mx ex). pose proof (shift_of_nonneg m2 e1). lia. }
  exists m3, e3. split_and!; auto.
  - pose proof (pow2_pos (eb - k) ltac:(lia)). pose proof (pow2_pos (e3 - k) ltac:(lia)). nia.
  - apply (vle_of _ _ _ _ k); lia.
Qed.

End Round.

Lemma iter_xO mx d : Zpos (Pos.iter xO mx d) = Zpos mx * 2 ^ Zpos d.
Proof.
  induction d as [| d IH] using Pos.peano_ind.
  - simpl. lia.
  - rewrite Pos.iter_succ, Pos2Z.inj_xO, IH, Pos2Z.inj_succ, Z.pow_succ_r by lia. lia.
Qed.

(** [binary_round] aligns the mantissa first, which keeps the value. *)
Lemma shl_align_spec mx ex ex' :
  let '(mz, ez) := shl_align mx ex ex' in
  ez = Z.min ex ex' /\ Zpos mz = Zpos mx * 2 ^ (ex - ez).
Proof.
  unfold shl_align. destruct (ex' - ex) as [| d | d] eqn:Ed.
  - split; [lia |]. replace (ex - ex) with 0 by lia. simpl. lia.
  - split; [lia |]. replace (ex - ex) with 0 by lia. simpl. lia.
  - split; [lia |]. replace (ex - ex') with (Zpos d) by lia.
    apply iter_xO.
Qed.

Lemma binary_round_aligned sx mx ex :
  exists mz ez,
    binary_round prec emax sx mx ex = binary_round_aux prec emax sx (Zpos mz) ez loc_Exact /\
    ez <= ex /\ Zpos mz = Zpos mx * 2 ^ (ex - ez) /\
    ez <= fexp' (Zdigits2 (Zpos mz) + ez).
Proof.
  unfold binary_round.
  pose proof (shl_align_spec mx ex (fexp' (Zpos (digits2_pos mx) + ex))) as Hs.
  destruct (shl_align mx ex (fexp' (Zpos (digits2_pos mx) + ex))) as [mz ez].
  destruct Hs as [Hez Hmz]. exists mz, ez. split_and!; auto; try lia.
  assert (Hd : Zdigits2 (Zpos mz) = Zdigits2 (Zpos mx) + (ex - ez)).
  { apply Zdigits2_unique; [lia |].
    pose proof (digits_bounds mx) as [Hlo Hhi]. simpl Zdigits2. rewrite Hmz.
    pose proof (pow2_pos (ex - ez) ltac:(lia)).
    replace (Zpos (digits2_pos mx) + (ex - ez) - 1) with (Zpos (digits2_pos mx) - 1 + (ex - ez)) by lia.
    rewrite !Z.pow_add_r by lia. nia. }
  rewrite Hd. simpl Zdigits2.
  replace (Zpos (digits2_pos mx) + (ex - ez) + ez) with (Zpos (digits2_pos mx) + ex) by lia.
  lia.
Qed.

End Values.

Module Division.
Import Rounding RoundAux Bounds Values.

Lemma new_location_zero nb : new_location nb 0 = loc_Exact.
Proof. unfold new_location, new_location_even, new_location_odd. destruct (Z.even nb); reflexivity. Qed.

(** The integer quotient that [SFdiv] rounds. *)
Definition div_exp (m1 e1 m2 e2 : Z) : Z :=
  Z.min (fexp' (Zdigits2 m1 + e1 - (Zdigits2 m2 + e2))) (e1 - e2).

Lemma div_core_spec m1 e1 m2 e2 :
  0 < m1 -> 0 < m2 ->
  let e' := div_exp m1 e1 m2 e2 in
  let s := e1 - e2 - e' in
  exists l,
    SFdiv_core_binary prec emax m1 e1 m2 e2 = (m1 * 2 ^ s / m2, e', l) /\
    ((m1 * 2 ^ s) mod m2 = 0 -> l = loc_Exact).
Proof.
  intros H1 H2 e' s. unfold SFdiv_core_binary. fold (div_exp m1 e1 m2 e2). fold e'. fold s.
  assert (Hs : 0 <= s) by (unfold s, e', div_exp; lia).
  assert (Hm' : match s with Zpos _ => Z.shiftl m1 s | Z0 => m1 | Zneg _ => 0 end = m1 * 2 ^ s).
  { destruct s as [| p | p] eqn:Es; try lia. apply Z.shiftl_mul_pow2. lia. }
  rewrite Hm'. unfold Z.div, Z.modulo.
  destruct (Z.div_eucl (m1 * 2 ^ s) m2) as [q r]. simpl.
  eexists. split; [reflexivity |]. intros ->. apply new_location_zero.
Qed.

Lemma quotient_lower m1 m2 s :
  0 < m1 -> 0 < m2 -> 0 <= s -> 0 <= Zdigits2 m1 - 1 + s - Zdigits2 m2 ->
  2 ^ (Zdigits2 m1 - 1 + s - Zdigits2 m2) <= m1 * 2 ^ s / m2.
Proof.
  intros H1 H2 Hs Ht.
  pose proof (Zdigits2_bounds m1 H1) as [Hlo _]. pose proof (Zdigits2_bounds m2 H2) as [_ Hhi].
  pose proof (Zdigits2_nonneg m2) as Hd2.
  assert (Hd1 : 0 < Zdigits2 m1) by (destruct m1; simpl in *; lia).
  apply Z.div_le_lower_bound; [lia |].
  set (t := Zdigits2 m1 - 1 + s - Zdigits2 m2) in *.
  pose proof (pow2_pos t Ht) as Hpt. pose proof (pow2_pos s Hs) as Hps.
  apply Z.le_trans with (2 ^ Zdigits2 m2 * 2 ^ t).
  - apply Z.mul_le_mono_nonneg_r; lia.
  - rewrite <- Z.pow_add_r by lia.
    replace (Zdigits2 m2 + t) with (Zdigits2 m1 - 1 + s) by (unfold t; lia).
    rewrite Z.pow_add_r by lia. apply Z.mul_le_mono_nonneg_r; lia.
Qed.

Lemma digits_lower m t : 0 <= t -> 2 ^ t <= m -> t + 1 <= Zdigits2 m.
Proof.
  intros Ht Hm. pose proof (pow2_pos t Ht).
  pose proof (Zdigits2_bounds m ltac:(lia)) as [_ Hhi].
  pose proof (Zdigits2_nonneg m).
  destruct (Z_lt_le_dec (Zdigits2 m) (t + 1)); [| lia].
  assert (2 ^ Zdigits2 m <= 2 ^ t) by (apply pow2_le; lia). lia.
Qed.

(** above the smallest exponent the quotient has at least 53 digits *)
Lemma quotient_full m1 e1 m2 e2 :
  0 < m1 -> 0 < m2 -> -1074 < div_exp m1 e1 m2 e2 ->
  2 ^ 52 <= m1 * 2 ^ (e1 - e2 - div_exp m1 e1 m2 e2) / m2 /\
  Zdigits2 m1 + e1 - (Zdigits2 m2 + e2)
  <= Zdigits2 (m1 * 2 ^ (e1 - e2 - div_exp m1 e1 m2 e2) / m2) + div_exp m1 e1 m2 e2.
Proof.
  intros H1 H2 He. set (e' := div_exp m1 e1 m2 e2) in *. set (s := e1 - e2 - e').
  assert (Hle : e' <= Zdigits2 m1 + e1 - (Zdigits2 m2 + e2) - 53).
  { unfold e', div_exp in *. rewrite fexp_eq in *. lia. }
  assert (Hs : 0 <= s) by (unfold s, e', div_exp; lia).
  assert (Ht : 52 <= Zdigits2 m1 - 1 + s - Zdigits2 m2) by (unfold s; lia).
  pose proof (quotient_lower m1 m2 s H1 H2 Hs ltac:(lia)) as Hq.
  split.
  - apply Z.le_trans with (2 ^ (Zdigits2 m1 - 1 + s - Zdigits2 m2)); [| exact Hq].
    apply pow2_le. lia.
  - assert (Ht0 : 0 <= Zdigits2 m1 - 1 + s - Zdigits2 m2) by lia.
    pose proof (digits_lower _ _ Ht0 Hq). unfold s in *. lia.
Qed.

Lemma div_core_format m1 e1 m2 e2 :
  0 < m1 -> 0 < m2 ->
  let e' := div_exp m1 e1 m2 e2 in
  let q := m1 * 2 ^ (e1 - e2 - e') / m2 in
  e' <= fexp' (Zdigits2 q + e').
Proof.
  intros H1 H2 e' q. destruct (Z_le_gt_dec e' (-1074)) as [Hlow | Hhigh].
  - rewrite fexp_eq. lia.
  - pose proof (quotient_full m1 e1 m2 e2 H1 H2 ltac:(fold e'; lia)) as [_ Hd].
    fold e' in Hd. fold q in Hd.
    pose proof (fexp_mono _ _ Hd). unfold e' at 1, div_exp. lia.
Qed.

Section Quotient.

Variables (ma mc ea ec : Z).
Hypothesis (Hma : 0 < ma) (Hmc : 0 < mc).

Let e' := div_exp ma ea mc ec.
Let q := ma * 2 ^ (ea - ec - e') / mc.

Lemma quotient_nonneg : 0 <= q.
Proof.
  unfold q. apply Z.div_pos; [| lia].
  assert (0 <= ea - ec - e') by (unfold e', div_exp; lia).
  pose proof (pow2_pos (ea - ec - e') ltac:(lia)). lia.
Qed.

(** a quotient of a smaller by a larger value is at most one *)
Lemma quotient_upper :
  vle ma ea mc ec ->
  vle q e' (2 ^ 52) (-52) /\
  (vle (2 ^ 52) (-52) q e' -> (ma * 2 ^ (ea - ec - e')) mod mc = 0).
Proof.
  intros Hle. assert (Hs : 0 <= ea - ec - e') by (unfold e', div_exp; lia).
  pose proof (pow2_pos (ea - ec - e') Hs) as Hps.
  destruct (Z_le_gt_dec e' 0) as [Hneg | Hpos].
  - (* the quotient is an integer multiple of 2^e' *)
    apply (vle_at _ _ _ _ (ec + e')) in Hle; try lia.
    replace (ea - (ec + e')) with (ea - ec - e') in Hle by lia.
    replace (ec - (ec + e')) with (- e') in Hle by lia.
    pose proof (pow2_pos (- e') ltac:(lia)) as Hpe.
    assert (Hq : q <= 2 ^ (- e')).
    { unfold q. apply Z.div_le_upper_bound; [lia |]. lia. }
    assert (Hk : Z.min e' (-52) <= e') by lia. assert (Hk' : Z.min e' (-52) <= -52) by lia.
    set (k := Z.min e' (-52)) in *.
    pose proof (pow2_pos (e' - k) ltac:(lia)) as Hp1.
    assert (Hone : 2 ^ 52 * 2 ^ (-52 - k) = 2 ^ (- e') * 2 ^ (e' - k)).
    { rewrite <- !Z.pow_add_r by lia. f_equal. lia. }
    split.
    + apply (vle_of _ _ _ _ k); try lia. rewrite Hone.
      apply Z.mul_le_mono_nonneg_r; lia.
    + intros Hge. apply (vle_at _ _ _ _ k) in Hge; try lia. rewrite Hone in Hge.
      apply Z.mul_le_mono_pos_r in Hge; [| lia].
      assert (Hqe : q = 2 ^ (- e')) by lia.
      pose proof (Z.mul_div_le (ma * 2 ^ (ea - ec - e')) mc Hmc) as Hfloor. fold q in Hfloor.
      assert (Hexact : ma * 2 ^ (ea - ec - e') = q * mc) by nia.
      rewrite Hexact. apply Z.mod_mul. lia.
  - (* the quotient is zero *)
    apply (vle_at _ _ _ _ ec) in Hle; try (unfold e', div_exp in *; lia).
    rewrite Z.sub_diag, Z.pow_0_r, Z.mul_1_r in Hle.
    assert (Hlt : 2 * 2 ^ (ea - ec - e') <= 2 ^ (ea - ec)).
    { change 2 with (2 ^ 1) at 1. rewrite <- Z.pow_add_r by lia. apply pow2_le. lia. }
    assert (Hq : q = 0).
    { unfold q. apply Z.div_small. split; [lia |]. nia. }
    rewrite Hq. split.
    + apply (vle_of _ _ _ _ (-52)); lia.
    + intros Hge. apply (vle_at _ _ _ _ (-52)) in Hge; lia.
Qed.

(** a quotient of a larger by a smaller value is at least one *)
Lemma quotient_lower_one : vle mc ec ma ea -> vle (2 ^ 52) (-52) q e'.
Proof.
  intros Hle. assert (Hs : 0 <= ea - ec - e') by (unfold e', div_exp; lia).
  pose proof (pow2_pos (ea - ec - e') Hs) as Hps.
  destruct (Z_le_gt_dec e' 0) as [Hneg | Hpos].
  - apply (vle_at _ _ _ _ (ec + e')) in Hle; try lia.
    replace (ea - (ec + e')) with (ea - ec - e') in Hle by lia.
    replace (ec - (ec + e')) with (- e') in Hle by lia.
    pose proof (pow2_pos (- e') ltac:(lia)) as Hpe.
    assert (Hq : 2 ^ (- e') <= q).
    { unfold q. apply Z.div_le_lower_bound; lia. }
    assert (Hk : Z.min e' (-52) <= e') by lia. assert (Hk' : Z.min e' (-52) <= -52) by lia.
    set (k := Z.min e' (-52)) in *.
    pose proof (pow2_pos (e' - k) ltac:(lia)) as Hp1.
    assert (Hone : 2 ^ 52 * 2 ^ (-52 - k) = 2 ^ (- e') * 2 ^ (e' - k)).
    { rewrite <- !Z.pow_add_r by lia. f_equal. lia. }
    apply (vle_of _ _ _ _ k); try lia. rewrite Hone.
    apply Z.mul_le_mono_nonneg_r; lia.
  - pose proof (quotient_full ma ea mc ec Hma Hmc ltac:(fold e'; lia)) as [Hq _].
    fold e' in Hq. fold q in Hq.
    pose proof (pow2_pos (e' - -52) ltac:(lia)).
    apply (vle_of _ _ _ _ (-52)); lia.
Qed.

End Quotient.

End Division.

Module Operations.
Import Rounding RoundAux Bounds Values Division.

Lemma of_Z_1 : of_Z 1 = S754_finite false 4503599627370496 (-52).
Proof. vm_compute. reflexivity. Qed.

Lemma of_Z_0 : of_Z 0 = S754_zero false.
Proof. reflexivity. Qed.

Lemma pow2_52 : 2 ^ 52 = 4503599627370496.
Proof. vm_compute. reflexivity. Qed.

Lemma compare_same_exp p q e :
  SFcompare (S754_finite false p e) (S754_finite false q e)
  = Some (Z.pos p ?= Z.pos q).
Proof.
  unfold SFcompare. rewrite Z.compare_refl, Pos.compare_cont_spec.
  change (Z.pos p ?= Z.pos q) with (Pos.compare p q).
  destruct (Pos.compare p q); reflexivity.
Qed.

Lemma compare_lower_exp p q e1 e2 :
  e1 < e2 -> SFcompare (S754_finite false p e1) (S754_finite false q e2) = Some Lt.
Proof.
  intros Hlt. unfold SFcompare. apply Z.compare_lt_iff in Hlt. rewrite Hlt. reflexivity.
Qed.

Lemma leb_pack_one m3 e3 :
  0 <= m3 -> e3 <= 971 -> (e3 < -52 \/ (e3 = -52 /\ m3 <= 2 ^ 52)) ->
  leb (pack false m3 e3) (of_Z 1) = true.
Proof.
  intros Hm He Hs. rewrite of_Z_1. rewrite pow2_52 in Hs.
  destruct m3 as [| p | p]; try lia; [reflexivity |].
  unfold pack. apply Z.leb_le in He. rewrite He.
  unfold leb, SFleb.
  destruct Hs as [Hlt | [-> Hle]].
  - rewrite compare_lower_exp by exact Hlt. reflexivity.
  - rewrite compare_same_exp.
    destruct (Z.compare_spec (Z.pos p) 4503599627370496) as [| | Hgt];
      try reflexivity.
    exfalso. apply (Z.lt_irrefl (Z.pos p)).
    eapply Z.le_lt_trans; [exact Hle | exact Hgt].
Qed.

Lemma leb_one_pack m3 e3 :
  0 < m3 -> (-52 < e3 \/ (e3 = -52 /\ 2 ^ 52 <= m3)) ->
  leb (of_Z 1) (pack false m3 e3) = true.
Proof.
  intros Hm Hs. rewrite of_Z_1. rewrite pow2_52 in Hs.
  destruct m3 as [| p | p]; try lia.
  unfold pack. destruct (e3 <=? 971); [| reflexivity].
  unfold leb, SFleb.
  destruct Hs as [Hlt | [-> Hle]].
  - rewrite compare_lower_exp by exact Hlt. reflexivity.
  - rewrite compare_same_exp.
    destruct (Z.compare_spec 4503599627370496 (Z.pos p)) as [| | Hgt];
      try reflexivity.
    exfalso. apply (Z.lt_irrefl (Z.pos p)).
    eapply Z.lt_le_trans; [exact Hgt | exact Hle].
Qed.

Lemma one_canonical : fexp' (Zdigits2 (Zpos 4503599627370496) + -52) = -52.
Proof. reflexivity. Qed.

Section Constant.

(** A double [c = mc * 2^ec] that is the positive integer [T]. *)
Variables (mc : positive) (ec T : Z).
Hypothesis Hcan : fexp' (Zdigits2 (Zpos mc) + ec) = ec.
Hypothesis Hnorm : 2 ^ 52 <= Zpos mc.
Hypothesis Hec : ec <= 0.
Hypothesis HT : Zpos mc = T * 2 ^ (- ec).

Let c : float := S754_finite false mc ec.

Lemma constant_digits : Zdigits2 (Zpos mc) = 53.
Proof.
  apply Zdigits2_unique; [lia |]. split; [exact Hnorm |].
  apply (canonical_lt mc ec Hcan).
Qed.

Lemma constant_positive : 0 < T.
Proof. pose proof (pow2_pos (- ec) ltac:(lia)). nia. Qed.

(** the value of [c] is the integer [T] *)
Lemma vle_constant_l m e : vle m e (Zpos mc) ec <-> vle m e T 0.
Proof.
  assert (Hk1 : Z.min e ec <= e) by lia. assert (Hk2 : Z.min e ec <= ec) by lia.
  assert (Hk3 : Z.min e ec <= 0) by lia.
  assert (Hval : Zpos mc * 2 ^ (ec - Z.min e ec) = T * 2 ^ (0 - Z.min e ec)).
  { rewrite HT, <- Z.mul_assoc, <- Z.pow_add_r by lia. do 2 f_equal. lia. }
  split; intros H.
  - apply (vle_at _ _ _ _ _ Hk1 Hk2) in H. apply (vle_of _ _ _ _ _ Hk1 Hk3). lia.
  - apply (vle_at _ _ _ _ _ Hk1 Hk3) in H. apply (vle_of _ _ _ _ _ Hk1 Hk2). lia.
Qed.

Lemma vle_constant_r m e : vle (Zpos mc) ec m e <-> vle T 0 m e.
Proof.
  assert (Hk1 : Z.min e ec <= e) by lia. assert (Hk2 : Z.min e ec <= ec) by lia.
  assert (Hk3 : Z.min e ec <= 0) by lia.
  assert (Hval : Zpos mc * 2 ^ (ec - Z.min e ec) = T * 2 ^ (0 - Z.min e ec)).
  { rewrite HT, <- Z.mul_assoc, <- Z.pow_add_r by lia. do 2 f_equal. lia. }
  split; intros H.
  - apply (vle_at _ _ _ _ _ Hk2 Hk1) in H. apply (vle_of _ _ _ _ _ Hk3 Hk1). lia.
  - apply (vle_at _ _ _ _ _ Hk3 Hk1) in H. apply (vle_of _ _ _ _ _ Hk2 Hk1). lia.
Qed.

(** *** Multiplication by the constant *)

Lemma mul_format (m : positive) e :
  e + ec <= fexp' (Zdigits2 (Zpos (m * mc)) + (e + ec)).
Proof.
  assert (Zdigits2 (Zpos mc) <= Zdigits2 (Zpos (m * mc))).
  { apply Zdigits2_le. rewrite Pos2Z.inj_mul. nia. }
  rewrite constant_digits in *. rewrite fexp_eq. lia.
Qed.

Lemma mul_upper (m : positive) e :
  vle (Zpos m) e 1 0 ->
  exists m3 e3,
    mul (S754_finite false m e) c = pack false m3 e3 /\
    0 <= m3 /\ e3 <= 971 /\ vle m3 e3 (Zpos mc) ec.
Proof.
  intros Hle.
  assert (Hec' : ec <= 971) by lia.
  destruct (binary_round_aux_upper mc ec Hcan Hec' false (Zpos (m * mc)) (e + ec) loc_Exact)
    as (m3 & e3 & Heq & Hm3 & He3 & _ & Hval); try lia.
  - apply mul_format.
  - rewrite Pos2Z.inj_mul.
    pose proof (vle_mul _ _ _ _ (Zpos mc) ec ltac:(lia) Hle) as H.
    rewrite Z.mul_1_l, Z.add_0_l in H. exact H.
  - reflexivity.
  - exists m3, e3. split_and!; auto.
Qed.

Lemma mul_lower (m : positive) e :
  vle 1 0 (Zpos m) e ->
  exists m3 e3,
    mul (S754_finite false m e) c = pack false m3 e3 /\
    0 < m3 /\ vle (Zpos mc) ec m3 e3.
Proof.
  intros Hle.
  assert (Hec' : ec <= 971) by lia.
  destruct (binary_round_aux_lower mc ec Hcan Hec' false (Zpos (m * mc)) (e + ec) loc_Exact)
    as (m3 & e3 & Heq & Hm3 & _ & Hval); try lia.
  - rewrite Pos2Z.inj_mul.
    pose proof (vle_mul _ _ _ _ (Zpos mc) ec ltac:(lia) Hle) as H.
    rewrite Z.mul_1_l, Z.add_0_l in H. exact H.
  - exists m3, e3. split_and!; auto.
Qed.

(** *** Rounding to an integer *)

Lemma binary_round_upper (k : positive) :
  Zpos k <= T ->
  exists mr er,
    binary_round prec emax false k 0 = pack false mr er /\
    0 <= mr /\ er <= 971 /\ vle mr er (Zpos mc) ec.
Proof.
  intros Hk. destruct (binary_round_aligned false k 0) as (mz & ez & -> & Hez & Hmz & Hfmt).
  assert (Hec' : ec <= 971) by lia.
  destruct (binary_round_aux_upper mc ec Hcan Hec' false (Zpos mz) ez loc_Exact)
    as (m3 & e3 & Heq & Hm3 & He3 & _ & Hval); try lia; auto.
  - apply vle_constant_l. apply (vle_of _ _ _ _ ez); try lia.
    rewrite Hmz, Z.sub_diag, Z.pow_0_r, Z.mul_1_r.
    pose proof (pow2_pos (0 - ez) ltac:(lia)). nia.
  - exists m3, e3. split_and!; auto.
Qed.

Lemma binary_round_lower (k : positive) :
  T <= Zpos k ->
  exists mr er,
    binary_round prec emax false k 0 = pack false mr er /\
    0 < mr /\ vle (Zpos mc) ec mr er.
Proof.
  intros Hk. destruct (binary_round_aligned false k 0) as (mz & ez & -> & Hez & Hmz & Hfmt).
  assert (Hec' : ec <= 971) by lia.
  destruct (binary_round_aux_lower mc ec Hcan Hec' false (Zpos mz) ez loc_Exact)
    as (m3 & e3 & Heq & Hm3 & _ & Hval); try lia.
  - apply vle_constant_r. apply (vle_of _ _ _ _ ez); try lia.
    rewrite Hmz, Z.sub_diag, Z.pow_0_r, Z.mul_1_r.
    pose proof (pow2_pos (0 - ez) ltac:(lia)). nia.
  - exists m3, e3. split_and!; auto.
Qed.

Lemma rint_neg (m q : positive) :
  rint (S754_finite false m (Zneg q)) =
    match round_nearest_even (Zpos m / 2 ^ Zpos q)
            (loc_of_shr_record
               (SpecFloat.iter_pos shr_1 q (shr_record_of_loc (Zpos m) loc_Exact))) with
    | Zpos k => binary_round prec emax false k 0
    | _ => S754_zero false
    end.
Proof.
  unfold rint. rewrite shr_iter_m by (simpl; lia). reflexivity.
Qed.

Lemma rint_upper m3 e3 :
  0 <= m3 -> e3 <= 971 -> vle m3 e3 (Zpos mc) ec ->
  exists mr er,
    rint (pack false m3 e3) = pack false mr er /\
    0 <= mr /\ er <= 971 /\ vle mr er (Zpos mc) ec.
Proof.
  intros Hm He Hle.
  destruct m3 as [| p | p]; try lia.
  { exists 0, e3. split_and!; auto. }
  rewrite pack_pos by lia. simpl Z.to_pos.
  destruct e3 as [| e | q].
  - exists (Zpos p), 0. split_and!; auto; try (rewrite pack_pos by lia; reflexivity).
  - exists (Zpos p), (Zpos e). split_and!; auto; try (rewrite pack_pos by lia; reflexivity).
  - rewrite rint_neg.
    set (l := loc_of_shr_record _).
    pose proof (round_nearest_even_bounds (Zpos p / 2 ^ Zpos q) l) as Hb.
    assert (Hp : 0 < 2 ^ Zpos q) by (apply pow2_pos; lia).
    apply vle_constant_l in Hle. apply (vle_at _ _ _ _ (Zneg q)) in Hle; try lia.
    rewrite Z.sub_diag, Z.pow_0_r, Z.mul_1_r in Hle.
    replace (0 - Zneg q) with (Zpos q) in Hle by lia.
    assert (Hfl : Zpos p / 2 ^ Zpos q <= T).
    { apply Z.div_le_upper_bound; lia. }
    assert (Hk : round_nearest_even (Zpos p / 2 ^ Zpos q) l <= T).
    { destruct (Z.eq_dec (Zpos p / 2 ^ Zpos q) T) as [Heq | Hne]; [| lia].
      assert (Hlow : 2 ^ Zpos q * (Zpos p / 2 ^ Zpos q) <= Zpos p) by (apply Z.mul_div_le; lia).
      assert (Hval : Zpos p = T * 2 ^ Zpos q) by nia.
      assert (Hl : l = loc_Exact).
      { unfold l. apply exact_record_loc. apply shr_iter_exact.
        - simpl. lia.
        - split; reflexivity.
        - simpl. rewrite Hval. apply Z.mod_mul. lia. }
      rewrite Hl. simpl. lia. }
    assert (H0 : 0 <= Zpos p / 2 ^ Zpos q) by (apply Z.div_pos; lia).
    destruct (round_nearest_even (Zpos p / 2 ^ Zpos q) l) as [| k | k]; try lia.
    + exists 0, 0. split_and!; auto; try lia.
      all: apply (vle_of _ _ _ _ (Z.min 0 ec)); try lia.
      all: pose proof (pow2_pos (ec - Z.min 0 ec) ltac:(lia)); lia.
    + apply binary_round_upper. exact Hk.
Qed.

Lemma rint_lower m3 e3 :
  0 < m3 -> vle (Zpos mc) ec m3 e3 ->
  exists mr er,
    rint (pack false m3 e3) = pack false mr er /\
    0 < mr /\ vle (Zpos mc) ec mr er.
Proof.
  intros Hm Hle.
  destruct m3 as [| p | p]; try lia.
  destruct (Z_le_gt_dec e3 971) as [He | He].
  2:{ exists (Zpos p), e3. split_and!; auto. simpl.
      destruct (Z.leb_spec e3 971); [lia | reflexivity]. }
  rewrite pack_pos by lia. simpl Z.to_pos.
  destruct e3 as [| e | q].
  - exists (Zpos p), 0. split_and!; auto; try (rewrite pack_pos by lia; reflexivity).
  - exists (Zpos p), (Zpos e). split_and!; auto; try (rewrite pack_pos by lia; reflexivity).
  - rewrite rint_neg.
    set (l := loc_of_shr_record _).
    pose proof (round_nearest_even_bounds (Zpos p / 2 ^ Zpos q) l) as Hb.
    assert (Hp : 0 < 2 ^ Zpos q) by (apply pow2_pos; lia).
    apply vle_constant_r in Hle. apply (vle_at _ _ _ _ (Zneg q)) in Hle; try lia.
    rewrite Z.sub_diag, Z.pow_0_r, Z.mul_1_r in Hle.
    replace (0 - Zneg q) with (Zpos q) in Hle by lia.
    assert (Hfl : T <= Zpos p / 2 ^ Zpos q).
    { apply Z.div_le_lower_bound; lia. }
    pose proof constant_positive as HTpos.
    destruct (round_nearest_even (Zpos p / 2 ^ Zpos q) l) as [| k | k]; try lia.
    apply binary_round_lower. lia.
Qed.

(** *** Division by the constant *)

Lemma div_finite (ma : positive) ea :
  exists l,
    div (S754_finite false ma ea) c =
      binary_round_aux prec emax false
        (Zpos ma * 2 ^ (ea - ec - div_exp (Zpos ma) ea (Zpos mc) ec) / Zpos mc)
        (div_exp (Zpos ma) ea (Zpos mc) ec) l /\
    ((Zpos ma * 2 ^ (ea - ec - div_exp (Zpos ma) ea (Zpos mc) ec)) mod Zpos mc = 0 ->
     l = loc_Exact).
Proof.
  destruct (div_core_spec (Zpos ma) ea (Zpos mc) ec) as (l & Hcore & Hl); try lia.
  exists l. split; [| exact Hl].
  unfold div, c, SFdiv. rewrite Hcore. reflexivity.
Qed.

Lemma div_upper ma ea :
  0 <= ma -> ea <= 971 -> vle ma ea (Zpos mc) ec ->
  leb (div (pack false ma ea) c) (of_Z 1) = true /\
  leb (of_Z 0) (div (pack false ma ea) c) = true.
Proof.
  intros Hm He Hle. destruct ma as [| p | p]; try lia.
  { split; reflexivity. }
  rewrite pack_pos by lia. simpl Z.to_pos.
  destruct (div_finite p ea) as (l & -> & Hl).
  pose proof (quotient_upper (Zpos p) (Zpos mc) ea ec ltac:(lia) ltac:(lia) Hle) as [Hq Hex].
  pose proof (quotient_nonneg (Zpos p) (Zpos mc) ea ec ltac:(lia) ltac:(lia)) as Hq0.
  pose proof (div_core_format (Zpos p) ea (Zpos mc) ec ltac:(lia) ltac:(lia)) as Hfmt.
  destruct (binary_round_aux_upper 4503599627370496 (-52) one_canonical ltac:(lia) false
              _ _ l Hq0 Hfmt Hq) as (m3 & e3 & -> & Hm3 & He3 & Hsyn & _).
  { intros Hge. apply Hl. apply Hex. exact Hge. }
  split.
  - apply leb_pack_one; auto.
  - apply signed_nonneg. apply pack_signed. exact Hm3.
Qed.

Lemma div_lower ma ea :
  0 < ma -> vle (Zpos mc) ec ma ea ->
  leb (of_Z 1) (div (pack false ma ea) c) = true.
Proof.
  intros Hm Hle. destruct ma as [| p | p]; try lia.
  destruct (Z_le_gt_dec ea 971) as [He | He].
  2:{ simpl pack. destruct (Z.leb_spec ea 971); [lia | reflexivity]. }
  rewrite pack_pos by lia. simpl Z.to_pos.
  destruct (div_finite p ea) as (l & -> & Hl).
  pose proof (quotient_lower_one (Zpos p) (Zpos mc) ea ec ltac:(lia) ltac:(lia) Hle) as Hq.
  pose proof (quotient_nonneg (Zpos p) (Zpos mc) ea ec ltac:(lia) ltac:(lia)) as Hq0.
  destruct (binary_round_aux_lower 4503599627370496 (-52) one_canonical ltac:(lia) false
              _ _ l Hq0 Hq) as (m3 & e3 & -> & Hm3 & Hsyn & _).
  apply leb_one_pack; auto.
Qed.

End Constant.

End Operations.

(** ** Rounding to decimals *)

Module Decimals.
Import Rounding RoundAux Bounds Values Division Operations.

(** A double whose mantissa has at most 53 bits: every result of an
    arithmetic operation, and every valid double. *)
Definition wf (x : float) : Prop :=
  match x with S754_finite _ m _ => Zpos m < 2 ^ 53 | _ => True end.

Lemma valid_canonical s m e :
  valid_binary prec emax (S754_finite s m e) = true ->
  fexp' (Zdigits2 (Zpos m) + e) = e /\ e <= 971.
Proof.
  unfold valid_binary, bounded, canonical_mantissa. intros Hv.
  apply andb_true_iff in Hv as [Hc He].
  apply Z.eqb_eq in Hc. apply Z.leb_le in He. split; [exact Hc | exact He].
Qed.

Lemma valid_wf x : valid_binary prec emax x = true -> wf x.
Proof.
  destruct x as [s | s | | s m e]; simpl wf; auto.
  intros Hv. apply valid_canonical in Hv as [Hc _]. exact (canonical_lt m e Hc).
Qed.

Lemma pack_wf sx m3 e3 : 0 <= m3 < 2 ^ 53 -> wf (pack sx m3 e3).
Proof.
  intros Hm. destruct m3 as [| p | p]; simpl; auto.
  destruct (e3 <=? 971); simpl; auto. lia.
Qed.

Lemma binary_round_aux_wf sx mx ex lx :
  0 <= mx -> wf (binary_round_aux prec emax sx mx ex lx).
Proof.
  intros Hm.
  destruct (binary_round_aux_spec sx mx ex lx Hm) as (m1 & e1 & m2 & m3 & e3 & Hr & ->).
  apply pack_wf. exact (rounds_digits _ _ _ _ _ _ _ _ Hr Hm).
Qed.

Lemma binary_round_wf sx mx ex : wf (binary_round prec emax sx mx ex).
Proof.
  destruct (binary_round_aligned sx mx ex) as (mz & ez & -> & _).
  apply binary_round_aux_wf. lia.
Qed.

Lemma binary_normalize_wf m e sz : wf (binary_normalize prec emax m e sz).
Proof. destruct m; simpl; auto; apply binary_round_wf. Qed.

Lemma add_wf x y : wf x -> wf y -> wf (add x y).
Proof.
  intros Hx Hy. unfold add, SFadd.
  destruct x as [sx | sx | | sx mx ex], y as [sy | sy | | sy my ey];
    try apply binary_normalize_wf; simpl; auto;
    destruct sx, sy; simpl; auto.
Qed.

Lemma div_wf x y : wf (div x y).
Proof.
  unfold div, SFdiv.
  destruct x as [sx | sx | | sx mx ex], y as [sy | sy | | sy my ey]; simpl; auto.
  destruct (div_core_spec (Zpos mx) ex (Zpos my) ey) as (l & Hcore & _); try lia.
  rewrite Hcore. apply binary_round_aux_wf.
  apply Z.div_pos; [| lia]. apply Z.mul_nonneg_nonneg; [lia |].
  apply Z.pow_nonneg. lia.
Qed.

(** *** Comparison with 1.0 *)

Lemma compare_higher_exp p q e1 e2 :
  e2 < e1 -> SFcompare (S754_finite false p e1) (S754_finite false q e2) = Some Gt.
Proof.
  intros Hlt. unfold SFcompare. apply Z.compare_gt_iff in Hlt. rewrite Hlt. reflexivity.
Qed.

Lemma leb_one_vle m e :
  fexp' (Zdigits2 (Zpos m) + e) = e ->
  leb (of_Z 1) (S754_finite false m e) = true -> vle 1 0 (Zpos m) e.
Proof.
  intros Hc. rewrite of_Z_1. unfold leb, SFleb.
  destruct (Z.lt_trichotomy e (-52)) as [Hlt | [-> | Hgt]].
  - rewrite compare_higher_exp by exact Hlt. discriminate.
  - rewrite compare_same_exp. intros Hcmp.
    assert (Hle : 4503599627370496 <= Zpos m).
    { destruct (Z.compare_spec 4503599627370496 (Zpos m)); lia || discriminate Hcmp. }
    apply (vle_of _ _ _ _ (-52)); [lia | lia |].
    change (1 * 2 ^ (0 - -52)) with 4503599627370496.
    change (2 ^ (-52 - -52)) with 1. lia.
  - intros _. pose proof (canonical_normal m e Hc ltac:(lia)) as Hn.
    rewrite pow2_52 in Hn.
    apply (vle_of _ _ _ _ (-52)); [lia | lia |].
    change (1 * 2 ^ (0 - -52)) with 4503599627370496.
    pose proof (pow2_pos (e - -52) ltac:(lia)). nia.
Qed.

Lemma leb_vle_one m e :
  Zpos m < 2 ^ 53 ->
  leb (S754_finite false m e) (of_Z 1) = true -> vle (Zpos m) e 1 0.
Proof.
  intros Hm. rewrite of_Z_1. unfold leb, SFleb.
  destruct (Z.lt_trichotomy e (-52)) as [Hlt | [-> | Hgt]].
  - intros _. apply (vle_of _ _ _ _ e); [lia | lia |].
    rewrite Z.sub_diag, Z.pow_0_r, Z.mul_1_r, Z.mul_1_l.
    assert (2 ^ 53 <= 2 ^ (0 - e)) by (apply pow2_le; lia). lia.
  - rewrite compare_same_exp. intros Hcmp.
    assert (Hle : Zpos m <= 4503599627370496).
    { destruct (Z.compare_spec (Zpos m) 4503599627370496); lia || discriminate Hcmp. }
    apply (vle_of _ _ _ _ (-52)); [lia | lia |].
    change (1 * 2 ^ (0 - -52)) with 4503599627370496.
    change (2 ^ (-52 - -52)) with 1. lia.
  - rewrite compare_higher_exp by exact Hgt. discriminate.
Qed.

(** *** The constants [10^2] and [10^4] *)

Lemma of_Z_100 : of_Z (10 ^ 2) = S754_finite false 7036874417766400 (-46).
Proof. vm_compute. reflexivity. Qed.

Lemma of_Z_10000 : of_Z (10 ^ 4) = S754_finite false 5497558138880000 (-39).
Proof. vm_compute. reflexivity. Qed.

Lemma hundred_canonical : fexp' (Zdigits2 (Zpos 7036874417766400) + -46) = -46.
Proof. vm_compute. reflexivity. Qed.

Lemma hundred_normal : 2 ^ 52 <= Zpos 7036874417766400.
Proof. rewrite pow2_52. lia. Qed.

Lemma hundred_value : Zpos 7036874417766400 = 100 * 2 ^ (- -46).
Proof. vm_compute. reflexivity. Qed.

Lemma myriad_canonical : fexp' (Zdigits2 (Zpos 5497558138880000) + -39) = -39.
Proof. vm_compute. reflexivity. Qed.

Lemma myriad_normal : 2 ^ 52 <= Zpos 5497558138880000.
Proof. rewrite pow2_52. lia. Qed.

Lemma myriad_value : Zpos 5497558138880000 = 10000 * 2 ^ (- -39).
Proof. vm_compute. reflexivity. Qed.

(** *** [np.round] keeps a value on its side of 1.0 *)

Section Scale.

Variables (mc : positive) (ec T : Z).
Hypothesis Hcan : fexp' (Zdigits2 (Zpos mc) + ec) = ec.
Hypothesis Hnorm : 2 ^ 52 <= Zpos mc.
Hypothesis Hec : ec <= 0.
Hypothesis HT : Zpos mc = T * 2 ^ (- ec).

Let c : float := S754_finite false mc ec.

Definition scaled (x : float) : float := div (rint (mul x c)) c.

Lemma scaled_ge_one x :
  valid_binary prec emax x = true -> leb (of_Z 1) x = true ->
  leb (of_Z 1) (scaled x) = true.
Proof.
  intros Hv Hle. destruct x as [s | [] | | [] m e]; try discriminate Hle.
  - rewrite of_Z_1. reflexivity.
  - apply valid_canonical in Hv as [Hc _].
    pose proof (leb_one_vle m e Hc Hle) as Hval.
    destruct (mul_lower mc ec Hcan Hnorm Hec m e Hval) as (m3 & e3 & Hmul & Hm3 & Hv3).
    destruct (rint_lower mc ec T Hcan Hnorm Hec HT m3 e3 Hm3 Hv3)
      as (mr & er & Hr & Hmr & Hvr).
    unfold scaled, c. rewrite Hmul, Hr.
    exact (div_lower mc ec Hnorm mr er Hmr Hvr).
Qed.

Lemma scaled_unit x :
  wf x -> leb (of_Z 0) x = true -> leb x (of_Z 1) = true ->
  leb (of_Z 0) (scaled x) = true /\ leb (scaled x) (of_Z 1) = true.
Proof.
  intros Hw H0 H1. destruct x as [s | [] | | [] m e]; try discriminate H0.
  - unfold scaled, c. rewrite of_Z_1. destruct s; split; reflexivity.
  - rewrite of_Z_1 in H1. discriminate H1.
  - pose proof (leb_vle_one m e Hw H1) as Hval.
    destruct (mul_upper mc ec T Hcan Hnorm Hec HT m e Hval)
      as (m3 & e3 & Hmul & Hm3 & He3 & Hv3).
    destruct (rint_upper mc ec T Hcan Hnorm Hec HT m3 e3 Hm3 He3 Hv3)
      as (mr & er & Hr & Hmr & Her & Hvr).
    unfold scaled, c. rewrite Hmul, Hr.
    destruct (div_upper mc ec Hnorm mr er Hmr Her Hvr) as [Hu Hl].
    split; [exact Hl | exact Hu].
Qed.

Lemma scaled_nan : scaled S754_nan = S754_nan.
Proof. reflexivity. Qed.

End Scale.

Lemma np_round_2 x : np_round 2 x = scaled 7036874417766400 (-46) x.
Proof. unfold np_round, scaled. cbv zeta. rewrite of_Z_100. reflexivity. Qed.

Lemma np_round_4 x : np_round 4 x = scaled 5497558138880000 (-39) x.
Proof. unfold np_round, scaled. cbv zeta. rewrite of_Z_10000. reflexivity. Qed.

(** [np.round(x, 2)] of a double that is at least 1.0 is at least 1.0. *)
Lemma np_round_ge_one x :
  valid_binary prec emax x = true -> leb (of_Z 1) x = true ->
  leb (of_Z 1) (np_round 2 x) = true.
Proof.
  intros Hv Hle. rewrite np_round_2.
  exact (scaled_ge_one _ _ 100 hundred_canonical hundred_normal ltac:(lia)
           hundred_value x Hv Hle).
Qed.

(** [np.round(x, 4)] of a double in [0, 1] stays in [0, 1]. *)
Lemma np_round_unit x :
  wf x -> leb (of_Z 0) x = true -> leb x (of_Z 1) = true ->
  leb (of_Z 0) (np_round 4 x) = true /\ leb (np_round 4 x) (of_Z 1) = true.
Proof.
  intros Hw H0 H1. rewrite np_round_4.
  exact (scaled_unit _ _ 10000 myriad_canonical myriad_normal ltac:(lia)
           myriad_value x Hw H0 H1).
Qed.

Lemma np_round_nan d : np_round d S754_nan = S754_nan.
Proof. reflexivity. Qed.

(** *** The floor at 1.0 and the clip to [0, 1] *)

Lemma lit_10_1 : lit 10 1 = of_Z 1.
Proof. vm_compute. reflexivity. Qed.

Lemma py_max_one x :
  valid_binary prec emax x = true ->
  valid_binary prec emax (py_max (lit 10 1) x) = true /\
  leb (of_Z 1) (py_max (lit 10 1) x) = true.
Proof.
  intros Hv. rewrite lit_10_1. unfold py_max, gtb, ltb, leb, SFltb, SFleb.
  destruct (SFcompare (of_Z 1) x) as [[] |] eqn:Hc; cbv iota.
  - rewrite of_Z_1. split; reflexivity.
  - split; [exact Hv | rewrite Hc; reflexivity].
  - rewrite of_Z_1. split; reflexivity.
  - rewrite of_Z_1. split; reflexivity.
Qed.

Lemma np_clip_nan lo hi : np_clip S754_nan lo hi = S754_nan.
Proof. reflexivity. Qed.

Lemma ltb_leb x y : ltb x y = true -> leb x y = true.
Proof.
  unfold ltb, leb, SFltb, SFleb. destruct (SFcompare x y) as [[] |]; auto.
Qed.

Lemma np_clip_unit x :
  wf x -> is_nan x = false ->
  wf (np_clip x (of_Z 0) (of_Z 1)) /\
  leb (of_Z 0) (np_clip x (of_Z 0) (of_Z 1)) = true /\
  leb (np_clip x (of_Z 0) (of_Z 1)) (of_Z 1) = true.
Proof.
  intros Hw Hn. unfold np_clip, npy_max, npy_min. rewrite Hn.
  destruct (gtb x (of_Z 0)) eqn:Hg.
  - rewrite Hn. destruct (ltb x (of_Z 1)) eqn:Hl.
    + split_and!; [exact Hw | apply ltb_leb; exact Hg | apply ltb_leb; exact Hl].
    + rewrite of_Z_1. split_and!; [vm_compute; reflexivity | reflexivity | reflexivity].
  - rewrite of_Z_1. split_and!; reflexivity || (vm_compute; reflexivity).
Qed.

End Decimals.

(** ** What a completed run establishes *)

Ltac fields :=
  cbv beta iota delta
    [merchant_cats geos pay_methods amounts total_seconds raw_seconds timestamps
     hour_mult raw_risk risk_min risk_max risk_score_base noise risk_score
     fail_probs outcomes is_failed failed_idx retryable_mask retry_assigns
     nonretry_assigns assigned_codes failure_codes retryable recovered
     recoverable merchant_pop merchant_ids df
     transaction_id timestamp merchant_id merchant_category geography_ currency
     payment_method amount_usd pre_auth_risk_score status failure_code
     is_retryable retry_recovered is_recoverable hour_of_day day_of_week
     is_weekend month year].

Section Run.

Context {G : Type} `{GeneratorLaws G}.
Variable np_log np_exp : float -> float.
Variable np_sum : list float -> float.

Record script_post (N : nat) (gl : Globals) : Prop := {
  post_cats_len : length (merchant_cats gl) = N;
  post_cats_in : Forall (fun mc => In mc (dict_keys MERCHANT_CATEGORIES)) (merchant_cats gl);
  post_geos_len : length (geos gl) = N;
  post_geos_in : Forall (fun g => In g (dict_keys GEOGRAPHIES)) (geos gl);
  post_pm_len : length (pay_methods gl) = N;
  post_pm_in : Forall (fun pm => In pm (dict_keys PAYMENT_METHODS)) (pay_methods gl);
  post_amounts :
    Forall2 (fun (mc : string) a => exists c x,
               dict_lookup MERCHANT_CATEGORIES mc = Some c /\
               (exists g, x = fst (lognormal (np_log (of_Z (avg_amount c))) (lit 7 1) g)) /\
               valid_binary prec emax x = true /\
               a = np_round 2 (py_max (lit 10 1) x))
            (merchant_cats gl) (amounts gl);
  post_total : total_seconds gl = end_ts - start_ts;
  post_raw_len : length (raw_seconds gl) = N;
  post_raw_range : Forall (fun s => 0 <= s < end_ts - start_ts) (raw_seconds gl);
  post_timestamps : timestamps gl = map (fun s => start_ts + s) (raw_seconds gl);
  post_raw_risk : exists mc_base geo_mult pm_mult,
    Forall2 (fun mc b => exists c, dict_lookup MERCHANT_CATEGORIES mc = Some c /\ b = fail_base c)
            (merchant_cats gl) mc_base /\
    Forall2 (fun g b => exists c, dict_lookup GEOGRAPHIES g = Some c /\ b = geo_fail_mult c)
            (geos gl) geo_mult /\
    Forall2 (fun pm b => exists c, dict_lookup PAYMENT_METHODS pm = Some c /\ b = pm_fail_mult c)
            (pay_methods gl) pm_mult /\
    raw_risk gl = zip_with add (zip_with mul (zip_with mul mc_base geo_mult) pm_mult)
                               (map amount_risk (amounts gl));
  post_min : array_min (raw_risk gl) = Some (risk_min gl);
  post_max : array_max (raw_risk gl) = Some (risk_max gl);
  post_base : risk_score_base gl =
    map (fun r => div (sub r (risk_min gl)) (sub (risk_max gl) (risk_min gl))) (raw_risk gl);
  post_noise_len : length (noise gl) = N;
  post_noise_valid : Forall (fun x => valid_binary prec emax x = true) (noise gl);
  post_score : risk_score gl =
    map (fun x => np_clip x (of_Z 0) (of_Z 1)) (zip_with add (risk_score_base gl) (noise gl));
  post_fail_probs : fail_probs gl = map (fail_prob np_exp) (risk_score gl);
  post_outcomes_len : length (outcomes gl) = N;
  post_is_failed : is_failed gl = zip_with ltb (outcomes gl) (fail_probs gl);
  post_failed_idx : failed_idx gl = np_where (is_failed gl);
  post_mask_len : length (retryable_mask gl) = length (failed_idx gl);
  post_retry_len : length (retry_assigns gl) = length (failed_idx gl);
  post_retry_in : Forall (fun c => In c RETRY_CODES) (retry_assigns gl);
  post_nonretry_len : length (nonretry_assigns gl) = length (failed_idx gl);
  post_nonretry_in : Forall (fun c => In c NON_RETRY_CODES) (nonretry_assigns gl);
  post_assigned :
    mapE (code_for (retryable_mask gl) (retry_assigns gl) (nonretry_assigns gl))
         (seq 0 (length (failed_idx gl))) = inr (assigned_codes gl);
  post_codes :
    setitem_fancy (map (fun b : bool => U30 (if b then "pending_code" else "success"))
                       (is_failed gl))
                  (failed_idx gl) (assigned_codes gl) = inr (failure_codes gl);
  post_retryable : mapE retryable_of (failure_codes gl) = inr (retryable gl);
  post_recovered : exists g1 g2,
    foldM (recovery_step (failure_codes gl))
          (boolean_index (failed_idx gl) (retryable_mask gl)) (replicate N false) g1
    = inr (recovered gl, g2);
  post_recoverable : recoverable gl =
    zip_with andb (zip_with andb (retryable gl) (map negb (recovered gl))) (is_failed gl);
  post_df_transaction_id : transaction_id (df gl) = map (fmt_id "TXN_" 7) (seq 0 N);
  post_df_timestamp : timestamp (df gl) = timestamps gl;
  post_df_amount : amount_usd (df gl) = amounts gl;
  post_df_score : pre_auth_risk_score (df gl) = map (np_round 4) (risk_score gl);
  post_df_status :
    status (df gl) = map (fun b : bool => if b then "failed" else "success") (is_failed gl);
  post_df_code : failure_code (df gl) = failure_codes gl;
  post_df_retryable : is_retryable (df gl) = map astype_int (retryable gl);
  post_df_recovered : retry_recovered (df gl) = map astype_int (recovered gl);
  post_df_recoverable : is_recoverable (df gl) = map astype_int (recoverable gl);
  post_hour_mult : hour_mult gl =
    map (fun h => if (9 <=? h) && (h <=? 22) then lit 10 1 else lit 5 1)
        (map Calendar.hour (timestamps gl));
  post_mask : exists draws,
    length draws = length (failed_idx gl) /\
    retryable_mask gl = map (fun u => ltb u (lit 60 2)) draws;
  post_pop : exists pop,
    length pop = n_merchants /\ merchant_pop gl = map (fun x => div x (np_sum pop)) pop;
  post_ids_len : length (merchant_ids gl) = N;
  post_ids_in :
    Forall (fun m => In m (map (fmt_id "MID_" 5) (seq 0 n_merchants))) (merchant_ids gl);
  post_df_merchant_id : merchant_id (df gl) = merchant_ids gl;
  post_df_category : merchant_category (df gl) = merchant_cats gl;
  post_df_geography : geography_ (df gl) = geos gl;
  post_df_currency :
    mapE (fun g => c <~ getitem GEOGRAPHIES g ;; inr (geo_currency c))%exn (geos gl)
    = inr (currency (df gl));
  post_df_payment : payment_method (df gl) = pay_methods gl;
  post_df_hour : hour_of_day (df gl) = map Calendar.hour (timestamps gl);
  post_df_dow : day_of_week (df gl) = map Calendar.dayofweek (timestamps gl);
  post_df_weekend : is_weekend (df gl) =
    map astype_int (map (fun d => (d =? 5) || (d =? 6)) (day_of_week (df gl)));
  post_df_month : month (df gl) = map Calendar.month (timestamps gl);
  post_df_year : year (df gl) = map Calendar.year (timestamps gl);
  post_cats_draw : exists g,
    merchant_cats gl
    = fst (choice (dict_keys MERCHANT_CATEGORIES)
                  (Some (map (fun kv => cat_weight (snd kv)) MERCHANT_CATEGORIES)) N g);
  post_geos_draw : exists g,
    geos gl
    = fst (choice (dict_keys GEOGRAPHIES)
                  (Some (map (fun kv => geo_weight (snd kv)) GEOGRAPHIES)) N g);
  post_pm_draw : exists g,
    pay_methods gl
    = fst (choice (dict_keys PAYMENT_METHODS)
                  (Some (map (fun kv => pm_weight (snd kv)) PAYMENT_METHODS)) N g);
  post_noise_draw : exists g, noise gl = fst (normal (of_Z 0) (lit 4 2) N g)
}.

Lemma getitem_inr {V} (d : list (string * V)) k v :
  getitem d k = inr v -> dict_lookup d k = Some v.
Proof. unfold getitem. destruct (dict_lookup d k); congruence. Qed.

Lemma draw_amount_inr mc g a g' :
  draw_amount np_log mc g = inr (a, g') ->
  exists c x,
    dict_lookup MERCHANT_CATEGORIES mc = Some c /\
    (exists g0, x = fst (lognormal (np_log (of_Z (avg_amount c))) (lit 7 1) g0)) /\
    valid_binary prec emax x = true /\ a = py_max (lit 10 1) x.
Proof.
  unfold draw_amount. intros E.
  apply bind_inr in E as (c & g1 & Ec & E).
  apply bind_inr in E as (x & g2 & Ex & E).
  apply try_inr in Ec as [Ec ->]. apply getitem_inr in Ec.
  apply draw_inr in Ex as [-> _]. apply ret_inr in E as [-> _].
  exists c. eexists. split_and!; [exact Ec | eexists; reflexivity | apply lognormal_valid | reflexivity].
Qed.

Lemma from_option_inr {A} (o : option A) (a : A) :
  from_option inr (inl ValueError) o = inr a -> o = Some a.
Proof. destruct o; simpl; congruence. Qed.

Lemma lookup_field {V B} (d : list (string * V)) (f : V -> B) k b :
  (c <~ getitem d k ;; inr (f c))%exn = inr b ->
  exists c, dict_lookup d k = Some c /\ b = f c.
Proof.
  unfold getitem. destruct (dict_lookup d k); simpl; [| discriminate].
  intros [= <-]. eauto.
Qed.

Lemma script_inr N g gl g' :
  script np_log np_exp np_sum N g = inr (gl, g') -> script_post N gl.
Proof.
  unfold script. cbv beta zeta. intros E.
  apply bind_inr in E as (cats & g1 & Ecats & E); cbv beta zeta in E.
  apply bind_inr in E as (gs & g2 & Egeos & E); cbv beta zeta in E.
  apply bind_inr in E as (pms & g3 & Epms & E); cbv beta zeta in E.
  apply bind_inr in E as (am & g4 & Eam & E); cbv beta zeta in E.
  apply bind_inr in E as (raw & g5 & Eraw & E); cbv beta zeta in E.
  apply bind_inr in E as (mcb & g6 & Emcb & E); cbv beta zeta in E.
  apply bind_inr in E as (gm & g7 & Egm & E); cbv beta zeta in E.
  apply bind_inr in E as (pmm & g8 & Epmm & E); cbv beta zeta in E.
  apply bind_inr in E as (rmin & g9 & Ermin & E); cbv beta zeta in E.
  apply bind_inr in E as (rmax & g10 & Ermax & E); cbv beta zeta in E.
  apply bind_inr in E as (nz & g11 & Enz & E); cbv beta zeta in E.
  apply bind_inr in E as (out & g12 & Eout & E); cbv beta zeta in E.
  apply bind_inr in E as (md & g13 & Emd & E); cbv beta zeta in E.
  apply bind_inr in E as (ra & g14 & Era & E); cbv beta zeta in E.
  apply bind_inr in E as (nra & g15 & Enra & E); cbv beta zeta in E.
  apply bind_inr in E as (ac & g16 & Eac & E); cbv beta zeta in E.
  apply bind_inr in E as (fc & g17 & Efc & E); cbv beta zeta in E.
  apply bind_inr in E as (rt & g18 & Ert & E); cbv beta zeta in E.
  apply bind_inr in E as (rr & g19 & Err & E); cbv beta zeta in E.
  apply bind_inr in E as (mp & g20 & Emp & E); cbv beta zeta in E.
  apply bind_inr in E as (mids & g21 & Emids & E); cbv beta zeta in E.
  apply bind_inr in E as (cur & g22 & Ecur & E); cbv beta zeta in E.
  apply ret_inr in E as [-> _].
  apply draw_inr in Ecats as [Ecats _], Egeos as [Egeos _], Epms as [Epms _].
  apply draw_inr in Eraw as [Eraw _], Enz as [Enz _], Eout as [Eout _].
  apply draw_inr in Emd as [Emd _], Era as [Era _], Enra as [Enra _].
  apply draw_inr in Emp as [Emp _], Emids as [Emids _].
  apply try_inr in Ecur as [Ecur _].
  apply try_inr in Emcb as [Emcb _], Egm as [Egm _], Epmm as [Epmm _].
  apply try_inr in Ermin as [Ermin _], Ermax as [Ermax _].
  apply try_inr in Eac as [Eac _], Efc as [Efc _], Ert as [Ert _].
  apply from_option_inr in Ermin, Ermax.
  assert (Hstart : start_ts < end_ts) by (vm_compute; reflexivity).
  constructor; fields.
  - rewrite Ecats. apply choice_length. discriminate.
  - rewrite Ecats. apply List.Forall_forall. intros x Hx. eapply choice_member; eauto.
  - rewrite Egeos. apply choice_length. discriminate.
  - rewrite Egeos. apply List.Forall_forall. intros x Hx. eapply choice_member; eauto.
  - rewrite Epms. apply choice_length. discriminate.
  - rewrite Epms. apply List.Forall_forall. intros x Hx. eapply choice_member; eauto.
  - apply mapM_inr in Eam. apply Forall2_fmap_r.
    eapply Forall2_impl; [exact Eam |]. cbv beta.
    intros mc a (ga & gb & Ea).
    apply draw_amount_inr in Ea as (c & x & Hc & Hg & Hx & ->). eauto 8.
  - reflexivity.
  - rewrite Eraw. apply integers_length. lia.
  - rewrite Eraw. apply List.Forall_forall. intros x Hx. eapply integers_range; eauto.
  - reflexivity.
  - exists mcb, gm, pmm. apply mapE_inr in Emcb, Egm, Epmm.
    repeat split; try reflexivity;
      (eapply Forall2_impl; [eassumption |]; intros ? ?; apply lookup_field).
  - exact Ermin.
  - exact Ermax.
  - reflexivity.
  - rewrite Enz. apply normal_length.
  - rewrite Enz. apply List.Forall_forall. intros x Hx. eapply normal_valid; eauto.
  - reflexivity.
  - reflexivity.
  - rewrite Eout. apply random_length.
  - reflexivity.
  - reflexivity.
  - rewrite length_map, Emd. apply random_length.
  - rewrite Era. apply choice_length. discriminate.
  - rewrite Era. apply List.Forall_forall. intros x Hx. eapply choice_member; eauto.
  - rewrite Enra. apply choice_length. discriminate.
  - rewrite Enra. apply List.Forall_forall. intros x Hx. eapply choice_member; eauto.
  - exact Eac.
  - exact Efc.
  - exact Ert.
  - eauto.
  - reflexivity.
  - reflexivity.
  - reflexivity.
  - reflexivity.
  - reflexivity.
  - reflexivity.
  - reflexivity.
  - reflexivity.
  - reflexivity.
  - reflexivity.
  - reflexivity.
  - exists md. split; [rewrite Emd; apply random_length | reflexivity].
  - exists mp. split; [rewrite Emp; apply power_length | reflexivity].
  - rewrite Emids. apply choice_length. discriminate.
  - rewrite Emids. apply List.Forall_forall. intros x Hx. eapply choice_member; eauto.
  - reflexivity.
  - reflexivity.
  - reflexivity.
  - exact Ecur.
  - reflexivity.
  - reflexivity.
  - reflexivity.
  - reflexivity.
  - reflexivity.
  - reflexivity.
  - eexists. exact Ecats.
  - eexists. exact Egeos.
  - eexists. exact Epms.
  - eexists. exact Enz.
Qed.

End Run.

(** ** Failure codes *)

Lemma retry_code_facts c :
  In c RETRY_CODES ->
  U30 c = c /\ c <> "success" /\ c <> "pending_code" /\
  In c (dict_keys FAILURE_CODES) /\ retryable_of c = inr true.
Proof.
  intros Hc. vm_compute in Hc.
  repeat (destruct Hc as [<- | Hc]; [vm_compute; intuition discriminate |]).
  destruct Hc.
Qed.

Lemma nonretry_code_facts c :
  In c NON_RETRY_CODES ->
  U30 c = c /\ c <> "success" /\ c <> "pending_code" /\
  In c (dict_keys FAILURE_CODES) /\ retryable_of c = inr false.
Proof.
  intros Hc. vm_compute in Hc.
  repeat (destruct Hc as [<- | Hc]; [vm_compute; intuition discriminate |]).
  destruct Hc.
Qed.

Lemma index_inr {A} (a : list A) i v : index a i = inr v -> a !! i = Some v.
Proof. unfold index. destruct (a !! i); congruence. Qed.

Lemma code_for_inr mask ra nra j c :
  code_for mask ra nra j = inr c ->
  (mask !! j = Some true /\ ra !! j = Some c) \/
  (mask !! j = Some false /\ nra !! j = Some c).
Proof.
  unfold code_for. intros E. apply bindE_inr in E as (b & Eb & E).
  apply index_inr in Eb. destruct b; apply index_inr in E; auto.
Qed.

(** *** Assigning codes to the failed rows *)

Section Assign.

Variables (flags mask : list bool) (ra nra assigned codes : list string).
Hypothesis Hra : Forall (fun c => In c RETRY_CODES) ra.
Hypothesis Hnra : Forall (fun c => In c NON_RETRY_CODES) nra.
Hypothesis Hassigned :
  mapE (code_for mask ra nra) (seq 0 (length (np_where flags))) = inr assigned.
Hypothesis Hcodes :
  setitem_fancy (map (fun b : bool => U30 (if b then "pending_code" else "success")) flags)
                (np_where flags) assigned = inr codes.

Lemma codes_length : length codes = length flags.
Proof.
  destruct (setitem_fancy_inr _ _ _ _ Hcodes) as (_ & _ & ->).
  rewrite scatter_length. apply length_map.
Qed.

Lemma assigned_class j c :
  assigned !! j = Some c ->
  (mask !! j = Some true /\ In c RETRY_CODES) \/
  (mask !! j = Some false /\ In c NON_RETRY_CODES).
Proof.
  intros Hc. pose proof (mapE_inr _ _ _ Hassigned) as HF.
  destruct (Forall2_lookup_r _ _ _ _ _ HF Hc) as (k & Hk & Ek).
  apply lookup_seq in Hk as [-> _]. simpl in Ek.
  apply code_for_inr in Ek as [[Hm Hr] | [Hm Hr]]; [left | right]; split; auto.
  - eapply (proj1 (List.Forall_forall _ _) Hra).
    apply list_elem_of_In. eapply list_elem_of_lookup_2; eauto.
  - eapply (proj1 (List.Forall_forall _ _) Hnra).
    apply list_elem_of_In. eapply list_elem_of_lookup_2; eauto.
Qed.

Lemma code_at_success i : flags !! i = Some false -> codes !! i = Some "success".
Proof.
  intros Hi.
  destruct (setitem_fancy_inr _ _ _ _ Hcodes) as (_ & _ & ->).
  rewrite scatter_other.
  - rewrite list_lookup_fmap, Hi. reflexivity.
  - rewrite np_where_spec. congruence.
Qed.

Lemma code_at_failed i :
  flags !! i = Some true ->
  exists j c, np_where flags !! j = Some i /\ assigned !! j = Some c /\
              codes !! i = Some c /\
              ((mask !! j = Some true /\ In c RETRY_CODES) \/
               (mask !! j = Some false /\ In c NON_RETRY_CODES)).
Proof.
  intros Hi.
  destruct (setitem_fancy_inr _ _ _ _ Hcodes) as (Hlen & Hlt & Hfc).
  assert (Hin : i ∈ np_where flags) by (rewrite np_where_spec; exact Hi).
  apply list_elem_of_lookup_1 in Hin as (j & Hj).
  destruct (lookup_lt_is_Some_2 assigned j) as (c & Hc).
  { rewrite <- Hlen. eapply lookup_lt_Some; eauto. }
  pose proof (assigned_class _ _ Hc) as Hcls.
  exists j, c. repeat split; auto.
  rewrite Hfc. erewrite scatter_hit; eauto.
  - f_equal. destruct Hcls as [[_ Hr] | [_ Hr]];
      [apply retry_code_facts in Hr | apply nonretry_code_facts in Hr]; tauto.
  - apply np_where_NoDup.
Qed.

Lemma code_at i c :
  codes !! i = Some c ->
  (flags !! i = Some false /\ c = "success") \/
  (flags !! i = Some true /\ (In c RETRY_CODES \/ In c NON_RETRY_CODES)).
Proof.
  intros Hc.
  destruct (lookup_lt_is_Some_2 flags i) as ([|] & Hb).
  { rewrite <- codes_length. eapply lookup_lt_Some; eauto. }
  - right. split; auto.
    destruct (code_at_failed _ Hb) as (j & c' & _ & _ & Hc' & Hcls).
    assert (c' = c) as -> by congruence. tauto.
  - left. split; auto. pose proof (code_at_success _ Hb). congruence.
Qed.

(** Every code of the column has an entry in [FAILURE_CODES] or is
    "success": the comprehension that builds [is_retryable] cannot raise. *)
Lemma retryable_of_total : Forall (fun c => exists r, retryable_of c = inr r) codes.
Proof.
  apply Forall_lookup_2. intros i c Hc.
  destruct (code_at _ _ Hc) as [[_ ->] | [_ [Hr | Hr]]].
  - exists false. reflexivity.
  - exists true. apply retry_code_facts in Hr. tauto.
  - exists false. apply nonretry_code_facts in Hr. tauto.
Qed.

End Assign.

Section Codes.

Context {G : Type} `{GeneratorLaws G}.
Variable np_log np_exp : float -> float.
Variable np_sum : list float -> float.
Variables (N : nat) (gl : Globals).
Hypothesis Hpost : script_post np_log np_exp np_sum N gl.

Lemma is_failed_length : length (is_failed gl) = N.
Proof.
  rewrite (post_is_failed _ _ _ _ _ Hpost), length_zip_with, (post_outcomes_len _ _ _ _ _ Hpost).
  rewrite (post_fail_probs _ _ _ _ _ Hpost), length_map, (post_score _ _ _ _ _ Hpost).
  rewrite length_map, length_zip_with, (post_base _ _ _ _ _ Hpost), length_map.
  rewrite (post_noise_len _ _ _ _ _ Hpost).
  destruct (post_raw_risk _ _ _ _ _ Hpost) as (mb & gm & pm & Hmb & Hgm & Hpm & ->).
  rewrite !length_zip_with, length_map.
  apply Forall2_length in Hmb, Hgm, Hpm.
  pose proof (Forall2_length _ _ _ (post_amounts _ _ _ _ _ Hpost)) as Ham.
  pose proof (post_cats_len _ _ _ _ _ Hpost). pose proof (post_geos_len _ _ _ _ _ Hpost).
  pose proof (post_pm_len _ _ _ _ _ Hpost). lia.
Qed.

Lemma post_assigned_where :
  mapE (code_for (retryable_mask gl) (retry_assigns gl) (nonretry_assigns gl))
       (seq 0 (length (np_where (is_failed gl)))) = inr (assigned_codes gl).
Proof. rewrite <- (post_failed_idx _ _ _ _ _ Hpost). exact (post_assigned _ _ _ _ _ Hpost). Qed.

Lemma post_codes_where :
  setitem_fancy (map (fun b : bool => U30 (if b then "pending_code" else "success"))
                     (is_failed gl))
                (np_where (is_failed gl)) (assigned_codes gl) = inr (failure_codes gl).
Proof. rewrite <- (post_failed_idx _ _ _ _ _ Hpost). exact (post_codes _ _ _ _ _ Hpost). Qed.

Lemma failure_codes_length : length (failure_codes gl) = N.
Proof.
  rewrite (codes_length _ _ _ post_codes_where). apply is_failed_length.
Qed.

Lemma assigned_code j c :
  assigned_codes gl !! j = Some c ->
  (retryable_mask gl !! j = Some true /\ In c RETRY_CODES) \/
  (retryable_mask gl !! j = Some false /\ In c NON_RETRY_CODES).
Proof.
  exact (assigned_class _ _ _ _ _ (post_retry_in _ _ _ _ _ Hpost)
           (post_nonretry_in _ _ _ _ _ Hpost) post_assigned_where j c).
Qed.

(** A row that did not fail keeps the code "success". *)
Lemma code_of_success i :
  is_failed gl !! i = Some false -> failure_codes gl !! i = Some "success".
Proof. exact (code_at_success _ _ _ post_codes_where i). Qed.

(** A failed row receives the code assigned at its rank among the failed rows. *)
Lemma code_of_failed i :
  is_failed gl !! i = Some true ->
  exists j c, failed_idx gl !! j = Some i /\ assigned_codes gl !! j = Some c /\
              failure_codes gl !! i = Some c /\
              ((retryable_mask gl !! j = Some true /\ In c RETRY_CODES) \/
               (retryable_mask gl !! j = Some false /\ In c NON_RETRY_CODES)).
Proof.
  rewrite (post_failed_idx _ _ _ _ _ Hpost).
  exact (code_at_failed _ _ _ _ _ _ (post_retry_in _ _ _ _ _ Hpost)
           (post_nonretry_in _ _ _ _ _ Hpost) post_assigned_where post_codes_where i).
Qed.

Lemma code_cases i c :
  failure_codes gl !! i = Some c ->
  (is_failed gl !! i = Some false /\ c = "success") \/
  (is_failed gl !! i = Some true /\ (In c RETRY_CODES \/ In c NON_RETRY_CODES)).
Proof.
  exact (code_at _ _ _ _ _ _ (post_retry_in _ _ _ _ _ Hpost)
           (post_nonretry_in _ _ _ _ _ Hpost) post_assigned_where post_codes_where i c).
Qed.

(** The lookup that defines [is_retryable] never raises. *)
Lemma retryable_lookup i c :
  failure_codes gl !! i = Some c ->
  exists r, retryable gl !! i = Some r /\ retryable_of c = inr r.
Proof.
  intros Hc. pose proof (mapE_inr _ _ _ (post_retryable _ _ _ _ _ Hpost)) as HF.
  destruct (Forall2_lookup_l _ _ _ _ _ HF Hc) as (r & Hr & Er). eauto.
Qed.

End Codes.

(** ** Recovery *)

Section Recovery.

Context {G : Type} `{Generator G}.

Lemma recovery_step_inr codes rr idx g rr' g' :
  recovery_step codes rr idx g = inr (rr', g') ->
  exists b, rr' = <[idx := b]> rr.
Proof.
  unfold recovery_step. intros E.
  apply bind_inr in E as (c & g1 & _ & E).
  apply bind_inr in E as (u & g2 & _ & E).
  apply ret_inr in E as [-> _]. eauto.
Qed.

Lemma recovery_loop codes targets rr g rr' g' :
  foldM (recovery_step codes) targets rr g = inr (rr', g') ->
  length rr' = length rr /\
  forall i, rr' !! i = Some true -> rr !! i = Some true \/ i ∈ targets.
Proof.
  revert rr g. induction targets as [| t targets IH]; simpl; intros rr g E.
  - apply ret_inr in E as [-> _]. auto.
  - apply bind_inr in E as (rr1 & g1 & E1 & E).
    apply recovery_step_inr in E1 as (b & ->).
    apply IH in E as [Hlen Hrr]. rewrite length_insert in Hlen. split; [exact Hlen |].
    intros i Hi. destruct (Hrr i Hi) as [Hi' | Hi'].
    + destruct (decide (t = i)) as [-> | Hne].
      * right. left.
      * left. rewrite list_lookup_insert_ne in Hi'; auto.
    + right. right. exact Hi'.
Qed.

Lemma recovery_loop_total codes targets rr g :
  Forall (fun i => (i < length codes)%nat) targets ->
  exists rr' g', foldM (recovery_step codes) targets rr g = inr (rr', g').
Proof.
  intros Ht. revert rr g. induction Ht as [| t targets Hlt _ IH]; simpl; intros rr g.
  - unfold ret. eauto.
  - destruct (lookup_lt_is_Some_2 codes t Hlt) as (c & Hc).
    unfold bind at 1, recovery_step, bind, try, index, draw, ret. rewrite Hc.
    destruct (random_scalar g) as [u g1]. apply IH.
Qed.

End Recovery.

(** ** The calendar window *)

Lemma window_seconds : end_ts - start_ts = 47433600.
Proof. reflexivity. Qed.

Definition day_before_end (k : nat) : bool :=
  let '(y, m, d) := Calendar.civil_from_days (start_ts / 86400 + Z.of_nat k) in
  (y <? 2024) || ((y =? 2024) && ((m <? 12) || ((m =? 12) && (d <=? 30)))).

Lemma window_days_before_end : forallb day_before_end (seq 0 549) = true.
Proof. vm_compute. reflexivity. Qed.

(** No offset below the window length reaches the end date. *)
Lemma window_date s :
  0 <= s < end_ts - start_ts ->
  let '(y, m, d) := Calendar.date (start_ts + s) in
  y < 2024 \/ (y = 2024 /\ (m < 12 \/ (m = 12 /\ d <= 30))).
Proof.
  rewrite window_seconds. intros Hs. unfold Calendar.date.
  assert (Hday : (start_ts + s) / 86400 = start_ts / 86400 + Z.of_nat (Z.to_nat (s / 86400))).
  { change start_ts with (19539 * 86400).
    rewrite Z.add_comm, Z.div_add by lia. rewrite Z.div_mul by lia.
    rewrite Z2Nat.id by (apply Z.div_pos; lia). lia. }
  rewrite Hday.
  pose proof window_days_before_end as Hall. rewrite forallb_forall in Hall.
  specialize (Hall (Z.to_nat (s / 86400))).
  assert (Hin : In (Z.to_nat (s / 86400)) (seq 0 549)).
  { apply in_seq. split; [lia |].
    assert (s / 86400 < 549) by (apply Z.div_lt_upper_bound; lia). lia. }
  specialize (Hall Hin). unfold day_before_end in Hall.
  destruct (Calendar.civil_from_days _) as [[y m] d].
  repeat (apply orb_prop in Hall as [Hall | Hall] || apply andb_prop in Hall as [? Hall]);
    lia.
Qed.
(** ** The run completes *)

Lemma bind_draw {G A B} (f : G -> A * G) (k : A -> M G B) g :
  bind (draw f) k g = k (fst (f g)) (snd (f g)).
Proof. unfold bind, draw. destruct (f g); reflexivity. Qed.

Lemma bind_try {G A B} (r : exn + A) (k : A -> M G B) (g : G) a :
  r = inr a -> bind (try r) k g = k a g.
Proof. intros ->. reflexivity. Qed.

Lemma bind_step {G A B} (c : M G A) (k : A -> M G B) g a g1 :
  c g = inr (a, g1) -> bind c k g = k a g1.
Proof. unfold bind. intros ->. reflexivity. Qed.

Lemma getitem_total {V} (d : list (string * V)) k :
  In k (dict_keys d) -> exists v, getitem d k = inr v.
Proof.
  unfold getitem, dict_keys. induction d as [| [k' v] d IH]; simpl; [tauto |].
  intros [-> | Hk].
  - rewrite String.eqb_refl. eauto.
  - destruct (String.eqb k' k); eauto.
Qed.

Lemma lookup_field_total {V B} (d : list (string * V)) (f : V -> B) l :
  Forall (fun k => In k (dict_keys d)) l ->
  exists l', mapE (fun k => c <~ getitem d k ;; inr (f c))%exn l = inr l' /\
             length l' = length l.
Proof.
  intros Hl.
  destruct (mapE_total (fun k => c <~ getitem d k ;; inr (f c))%exn l) as (l' & El).
  - eapply Forall_impl; [exact Hl |]. cbv beta. intros k Hk.
    destruct (getitem_total d k Hk) as (v & ->). simpl. eauto.
  - exists l'. split; [exact El |]. apply mapE_inr in El.
    symmetry. exact (Forall2_length _ _ _ El).
Qed.

Lemma code_for_total mask ra nra n :
  length mask = n -> length ra = n -> length nra = n ->
  exists l, mapE (code_for mask ra nra) (seq 0 n) = inr l /\ length l = n.
Proof.
  intros Hm Hr Hn.
  destruct (mapE_total (code_for mask ra nra) (seq 0 n)) as (l & El).
  - apply List.Forall_forall. intros i Hi. apply in_seq in Hi.
    destruct (lookup_lt_is_Some_2 mask i ltac:(lia)) as (b & Hb).
    destruct (lookup_lt_is_Some_2 ra i ltac:(lia)) as (c1 & Hc1).
    destruct (lookup_lt_is_Some_2 nra i ltac:(lia)) as (c2 & Hc2).
    unfold code_for, index. rewrite Hb. simpl. destruct b; [rewrite Hc1 | rewrite Hc2]; eauto.
  - exists l. split; [exact El |]. apply mapE_inr in El.
    rewrite <- (Forall2_length _ _ _ El). apply length_seq.
Qed.

Lemma np_where_lt mask : Forall (fun i => (i < length mask)%nat) (np_where mask).
Proof.
  apply Forall_forall. intros i Hi. apply np_where_spec in Hi.
  eapply lookup_lt_Some; eauto.
Qed.

Lemma setitem_fancy_total a idx vals :
  length idx = length vals -> Forall (fun i => (i < length a)%nat) idx ->
  exists a', setitem_fancy a idx vals = inr a'.
Proof.
  intros Hlen Hlt. unfold setitem_fancy.
  rewrite (proj2 (Nat.eqb_eq _ _) Hlen). simpl.
  assert (Hall : forallb (fun i => Nat.ltb i (length a)) idx = true).
  { apply forallb_forall. intros i Hi. apply Nat.ltb_lt.
    rewrite Forall_forall in Hlt. apply Hlt. apply list_elem_of_In. exact Hi. }
  rewrite Hall. simpl. eauto.
Qed.

Lemma boolean_index_lt (idx : list nat) mask n :
  Forall (fun i => (i < n)%nat) idx -> Forall (fun i => (i < n)%nat) (boolean_index idx mask).
Proof.
  intros Hlt. apply Forall_forall. intros i Hi.
  apply boolean_index_spec in Hi as (j & Hj & _).
  rewrite Forall_forall in Hlt. apply Hlt. eapply list_elem_of_lookup_2; eauto.
Qed.

Section Total.

Context {G : Type} `{GeneratorLaws G}.
Variable np_log np_exp : float -> float.
Variable np_sum : list float -> float.

Lemma draw_amount_total mc g :
  In mc (dict_keys MERCHANT_CATEGORIES) ->
  exists a g', draw_amount np_log mc g = inr (a, g').
Proof.
  intros Hmc. destruct (getitem_total MERCHANT_CATEGORIES mc Hmc) as (c & Ec).
  unfold draw_amount. rewrite (bind_try _ _ _ _ Ec), bind_draw. unfold ret. eauto.
Qed.

Ltac draw_step x g E :=
  rewrite bind_draw;
  match goal with |- context [fst ?c] => destruct c as [x g] eqn:E end;
  cbn [fst snd]; cbv beta zeta.

(** With at least one row, no step of the script raises. *)
Lemma script_total N g :
  (0 < N)%nat -> exists gl g', script np_log np_exp np_sum N g = inr (gl, g').
Proof.
  intros HN. unfold script. cbv beta zeta.
  draw_step cats g1 Ecats.
  assert (Hcats : length cats = N /\ Forall (fun k => In k (dict_keys MERCHANT_CATEGORIES)) cats).
  { change cats with (fst (cats, g1)). rewrite <- Ecats. split.
    - apply choice_length. discriminate.
    - apply List.Forall_forall. intros x Hx. eapply choice_member; eauto. }
  destruct Hcats as [Hcats_len Hcats_in]. clear Ecats.
  draw_step gs g2 Egeos.
  assert (Hgeos : length gs = N /\ Forall (fun k => In k (dict_keys GEOGRAPHIES)) gs).
  { change gs with (fst (gs, g2)). rewrite <- Egeos. split.
    - apply choice_length. discriminate.
    - apply List.Forall_forall. intros x Hx. eapply choice_member; eauto. }
  destruct Hgeos as [Hgeos_len Hgeos_in]. clear Egeos.
  draw_step pms g3 Epms.
  assert (Hpms : length pms = N /\ Forall (fun k => In k (dict_keys PAYMENT_METHODS)) pms).
  { change pms with (fst (pms, g3)). rewrite <- Epms. split.
    - apply choice_length. discriminate.
    - apply List.Forall_forall. intros x Hx. eapply choice_member; eauto. }
  destruct Hpms as [Hpms_len Hpms_in]. clear Epms.
  (* amounts *)
  destruct (mapM_total (draw_amount np_log) cats) with (g := g3) as (am & g4 & Eam).
  { intros x gx Hx. apply draw_amount_total.
    rewrite List.Forall_forall in Hcats_in. auto. }
  rewrite (bind_step _ _ _ _ _ Eam). cbv beta zeta.
  assert (Ham_len : length am = N).
  { apply mapM_inr in Eam. rewrite <- (Forall2_length _ _ _ Eam). exact Hcats_len. }
  clear Eam.
  draw_step raw g5 Eraw. clear Eraw.
  (* risk *)
  destruct (lookup_field_total MERCHANT_CATEGORIES fail_base cats Hcats_in) as (mcb & Emcb & Hmcb).
  rewrite (bind_try _ _ _ _ Emcb). cbv beta zeta. clear Emcb.
  destruct (lookup_field_total GEOGRAPHIES geo_fail_mult gs Hgeos_in) as (gm & Egm & Hgm).
  rewrite (bind_try _ _ _ _ Egm). cbv beta zeta. clear Egm.
  destruct (lookup_field_total PAYMENT_METHODS pm_fail_mult pms Hpms_in) as (pmm & Epmm & Hpmm).
  rewrite (bind_try _ _ _ _ Epmm). cbv beta zeta. clear Epmm.
  assert (Hrisk_len :
    length (zip_with add (zip_with mul (zip_with mul mcb gm) pmm)
                         (map amount_risk (map (np_round 2) am))) = N).
  { rewrite !length_zip_with, !length_map. lia. }
  destruct (zip_with add (zip_with mul (zip_with mul mcb gm) pmm)
                     (map amount_risk (map (np_round 2) am))) as [| r0 rs] eqn:Erisk.
  { simpl in Hrisk_len. lia. }
  rewrite (bind_try (from_option inr (inl ValueError) (array_min (r0 :: rs))) _ _ _ eq_refl).
  cbv beta zeta.
  rewrite (bind_try (from_option inr (inl ValueError) (array_max (r0 :: rs))) _ _ _ eq_refl).
  cbv beta zeta.
  draw_step nz g6 Enz. clear Enz.
  draw_step out g7 Eout. clear Eout.
  (* failure codes *)
  match goal with |- context [np_where ?m] => set (flags := m) end.
  draw_step md g8 Emd.
  assert (Hmd : length md = length (np_where flags)).
  { change md with (fst (md, g8)). rewrite <- Emd. apply random_length. }
  clear Emd.
  draw_step ra g9 Era.
  assert (Hra : length ra = length (np_where flags) /\ Forall (fun c => In c RETRY_CODES) ra).
  { change ra with (fst (ra, g9)). rewrite <- Era. split.
    - apply choice_length. discriminate.
    - apply List.Forall_forall. intros x Hx. eapply choice_member; eauto. }
  destruct Hra as [Hra_len Hra_in]. clear Era.
  draw_step nra g10 Enra.
  assert (Hnra : length nra = length (np_where flags) /\
                 Forall (fun c => In c NON_RETRY_CODES) nra).
  { change nra with (fst (nra, g10)). rewrite <- Enra. split.
    - apply choice_length. discriminate.
    - apply List.Forall_forall. intros x Hx. eapply choice_member; eauto. }
  destruct Hnra as [Hnra_len Hnra_in]. clear Enra.
  destruct (code_for_total (map (fun u => ltb u (lit 60 2)) md) ra nra
              (length (np_where flags))) as (ac & Eac & Hac); auto.
  { rewrite length_map. exact Hmd. }
  rewrite (bind_try _ _ _ _ Eac). cbv beta zeta.
  destruct (setitem_fancy_total
              (map (fun b : bool => U30 (if b then "pending_code" else "success")) flags)
              (np_where flags) ac) as (fc & Efc).
  { symmetry. exact Hac. }
  { rewrite length_map. apply np_where_lt. }
  rewrite (bind_try _ _ _ _ Efc). cbv beta zeta.
  (* retryable flag and recovery *)
  destruct (mapE_total retryable_of fc) as (rt & Ert).
  { exact (retryable_of_total _ _ _ _ _ _ Hra_in Hnra_in Eac Efc). }
  rewrite (bind_try _ _ _ _ Ert). cbv beta zeta.
  destruct (recovery_loop_total fc
              (boolean_index (np_where flags) (map (fun u => ltb u (lit 60 2)) md))
              (replicate N false) g10) as (rr & g11 & Err).
  { apply boolean_index_lt. rewrite (codes_length _ _ _ Efc). apply np_where_lt. }
  rewrite (bind_step _ _ _ _ _ Err). cbv beta zeta.
  (* merchants and the table *)
  draw_step mp g12 Emp. clear Emp.
  draw_step mids g13 Emids. clear Emids.
  destruct (lookup_field_total GEOGRAPHIES geo_currency gs Hgeos_in) as (cur & Ecur & _).
  rewrite (bind_try _ _ _ _ Ecur). cbv beta zeta.
  unfold ret. eauto.
Qed.

(** With no row, the reduction [raw_risk.min()] has no element to start
    from and raises. *)
Lemma script_empty g : script np_log np_exp np_sum 0 g = inl ValueError.
Proof.
  unfold script. cbv beta zeta.
  draw_step cats g1 Ecats.
  assert (Hcats : cats = []).
  { apply nil_length_inv. change cats with (fst (cats, g1)). rewrite <- Ecats.
    apply choice_length. discriminate. }
  subst cats. clear Ecats.
  draw_step gs g2 Egs.
  assert (Hgs : gs = []).
  { apply nil_length_inv. change gs with (fst (gs, g2)). rewrite <- Egs.
    apply choice_length. discriminate. }
  subst gs. clear Egs.
  draw_step pms g3 Epms.
  assert (Hpms : pms = []).
  { apply nil_length_inv. change pms with (fst (pms, g3)). rewrite <- Epms.
    apply choice_length. discriminate. }
  subst pms. clear Epms.
  rewrite (bind_step (mapM _ []) _ g3 [] g3 eq_refl). cbv beta zeta.
  draw_step raw g5 Eraw. clear Eraw.
  rewrite (bind_try (mapE _ []) _ _ [] eq_refl). cbv beta zeta.
  rewrite (bind_try (mapE _ []) _ _ [] eq_refl). cbv beta zeta.
  rewrite (bind_try (mapE _ []) _ _ [] eq_refl). cbv beta zeta.
  reflexivity.
Qed.

End Total.

(** ** Row-wise properties of a completed run *)

Section RowProperties.

Context {G : Type} `{GeneratorLaws G}.
Variable np_log np_exp : float -> float.
Variable np_sum : list float -> float.

Lemma run_total seed N :
  (0 < N)%nat -> exists gl, run np_log np_exp np_sum seed N = inr gl.
Proof.
  intros HN. unfold run.
  destruct (script_total np_log np_exp np_sum N (default_rng seed) HN) as (gl & g' & E).
  rewrite E. eauto.
Qed.

Lemma run_empty seed : run np_log np_exp np_sum seed 0 = inl ValueError.
Proof. unfold run. rewrite script_empty. reflexivity. Qed.

Lemma run_inr seed N gl :
  run np_log np_exp np_sum seed N = inr gl -> script_post np_log np_exp np_sum N gl.
Proof.
  unfold run. destruct (script _ _ _ _ _) as [e | [gl' g']] eqn:E; [discriminate |].
  intros [= <-]. eapply script_inr; eauto.
Qed.

(** C1: on every row, [failure_code] is "success" exactly when [status]
    is "success"; a failed row carries a code other than "success". *)
Theorem failure_code_success_iff_status seed N gl i :
  run np_log np_exp np_sum seed N = inr gl -> (i < N)%nat ->
  exists st fc,
    status (df gl) !! i = Some st /\ failure_code (df gl) !! i = Some fc /\
    (st = "success" \/ st = "failed") /\
    (fc = "success" <-> st = "success") /\
    (st = "failed" <-> fc <> "success").
Proof.
  intros Hrun Hi. apply run_inr in Hrun as Hpost.
  rewrite (post_df_status _ _ _ _ _ Hpost), (post_df_code _ _ _ _ _ Hpost).
  destruct (lookup_lt_is_Some_2 (is_failed gl) i) as (b & Hb).
  { rewrite (is_failed_length np_log np_exp np_sum N gl Hpost). exact Hi. }
  rewrite list_lookup_fmap, Hb. simpl. destruct b.
  - destruct (code_of_failed np_log np_exp np_sum N gl Hpost i Hb) as (j & c & _ & _ & Hc & Hcls).
    exists "failed", c. repeat split; auto; try discriminate.
    + intros ->. destruct Hcls as [[_ Hr] | [_ Hr]];
        [apply retry_code_facts in Hr | apply nonretry_code_facts in Hr];
        exfalso; tauto.
    + intros _. destruct Hcls as [[_ Hr] | [_ Hr]];
        [apply retry_code_facts in Hr | apply nonretry_code_facts in Hr]; tauto.
  - exists "success", "success". rewrite (code_of_success np_log np_exp np_sum N gl Hpost i Hb).
    repeat split; auto; try discriminate. intros Hne. exfalso. auto.
Qed.

(** C10: on every row, [failure_code] is "success" or one of the twelve
    keys of [FAILURE_CODES]; the placeholder "pending_code" never remains. *)
Theorem failure_code_in_table seed N gl i :
  run np_log np_exp np_sum seed N = inr gl -> (i < N)%nat ->
  exists fc,
    failure_code (df gl) !! i = Some fc /\
    (fc = "success" \/ In fc (dict_keys FAILURE_CODES)) /\
    fc <> "pending_code" /\
    length (dict_keys FAILURE_CODES) = 12%nat.
Proof.
  intros Hrun Hi. apply run_inr in Hrun as Hpost.
  rewrite (post_df_code _ _ _ _ _ Hpost).
  destruct (lookup_lt_is_Some_2 (failure_codes gl) i) as (c & Hc).
  { rewrite (failure_codes_length np_log np_exp np_sum N gl Hpost). exact Hi. }
  exists c. split; [exact Hc |].
  destruct (code_cases np_log np_exp np_sum N gl Hpost i c Hc) as [[_ ->] | [_ [Hr | Hr]]].
  - repeat split; auto; discriminate.
  - apply retry_code_facts in Hr. repeat split; tauto.
  - apply nonretry_code_facts in Hr. repeat split; tauto.
Qed.

(** C2: on every row, [is_retryable] is the flag stored for the row's
    [failure_code] in [FAILURE_CODES] (false for "success"); it is set
    exactly on the rows whose code is one of [RETRY_CODES]. *)
Theorem is_retryable_is_table_lookup seed N gl i :
  run np_log np_exp np_sum seed N = inr gl -> (i < N)%nat ->
  exists fc flag,
    failure_code (df gl) !! i = Some fc /\
    is_retryable (df gl) !! i = Some (astype_int flag) /\
    (fc = "success" -> flag = false) /\
    (fc <> "success" ->
       exists descr, dict_lookup FAILURE_CODES fc = Some (flag, descr)) /\
    (flag = true <-> In fc RETRY_CODES).
Proof.
  intros Hrun Hi. apply run_inr in Hrun as Hpost.
  rewrite (post_df_code _ _ _ _ _ Hpost), (post_df_retryable _ _ _ _ _ Hpost).
  destruct (lookup_lt_is_Some_2 (failure_codes gl) i) as (c & Hc).
  { rewrite (failure_codes_length np_log np_exp np_sum N gl Hpost). exact Hi. }
  destruct (retryable_lookup np_log np_exp np_sum N gl Hpost i c Hc) as (r & Hr & Er).
  exists c, r. rewrite list_lookup_fmap, Hr. repeat split; auto.
  - intros ->. vm_compute in Er. congruence.
  - intros Hne. unfold retryable_of in Er.
    destruct (String.eqb c "success") eqn:Eq; [apply String.eqb_eq in Eq; contradiction |].
    simpl in Er. unfold getitem in Er.
    destruct (dict_lookup FAILURE_CODES c) as [[b d] |]; simpl in Er; [| discriminate].
    injection Er as ->. eauto.
  - intros ->.
    destruct (code_cases np_log np_exp np_sum N gl Hpost i c Hc) as [[_ ->] | [_ [Hin | Hin]]]; auto.
    + vm_compute in Er. discriminate.
    + apply nonretry_code_facts in Hin. destruct Hin as (_ & _ & _ & _ & Hin). congruence.
  - intros Hin. apply retry_code_facts in Hin. destruct Hin as (_ & _ & _ & _ & Hin). congruence.
Qed.

(** C3: on every row, a recovered retry implies a retryable failed row, and
    a recoverable row is retryable, failed and not recovered. *)
Theorem recovery_flags_consistent seed N gl i :
  run np_log np_exp np_sum seed N = inr gl -> (i < N)%nat ->
  exists retr rec rcv st,
    is_retryable (df gl) !! i = Some (astype_int retr) /\
    retry_recovered (df gl) !! i = Some (astype_int rec) /\
    is_recoverable (df gl) !! i = Some (astype_int rcv) /\
    status (df gl) !! i = Some st /\
    (rec = true -> retr = true /\ st = "failed") /\
    (rcv = true -> retr = true /\ rec = false /\ st = "failed").
Proof.
  intros Hrun Hi. apply run_inr in Hrun as Hpost.
  pose proof (is_failed_length np_log np_exp np_sum N gl Hpost) as Hlf.
  pose proof (failure_codes_length np_log np_exp np_sum N gl Hpost) as Hlc.
  pose proof (Forall2_length _ _ _ (mapE_inr _ _ _ (post_retryable _ _ _ _ _ Hpost))) as Hlr.
  destruct (post_recovered _ _ _ _ _ Hpost) as (g1 & g2 & Hloop).
  apply recovery_loop in Hloop as [Hlrec Hrec]. rewrite length_replicate in Hlrec.
  destruct (lookup_lt_is_Some_2 (is_failed gl) i) as (b & Hb); [lia |].
  destruct (lookup_lt_is_Some_2 (retryable gl) i) as (r & Hr); [lia |].
  destruct (lookup_lt_is_Some_2 (recovered gl) i) as (v & Hv); [lia |].
  rewrite (post_df_retryable _ _ _ _ _ Hpost), (post_df_recovered _ _ _ _ _ Hpost),
          (post_df_recoverable _ _ _ _ _ Hpost), (post_df_status _ _ _ _ _ Hpost).
  rewrite (post_recoverable _ _ _ _ _ Hpost).
  exists r, v, (r && negb v && b), (if b then "failed" else "success").
  rewrite !list_lookup_fmap, !lookup_zip_with, list_lookup_fmap, Hr, Hv, Hb. simpl.
  split_and!; auto.
  - (* recovered: the row is one of the retryable failed rows *)
    intros ->. destruct (Hrec i Hv) as [Hinit | Hin].
    { apply lookup_replicate_1 in Hinit. destruct Hinit. discriminate. }
    apply boolean_index_spec in Hin as (j & Hj & Hm).
    assert (Hfail : is_failed gl !! i = Some true).
    { apply np_where_spec. rewrite <- (post_failed_idx _ _ _ _ _ Hpost).
      eapply list_elem_of_lookup_2; eauto. }
    assert (b = true) as -> by congruence. split; [| reflexivity].
    destruct (code_of_failed np_log np_exp np_sum N gl Hpost i Hfail) as (j' & c & Hj' & _ & Hc & Hcls).
    assert (j' = j) as ->.
    { eapply NoDup_lookup; eauto.
      rewrite (post_failed_idx _ _ _ _ _ Hpost). apply np_where_NoDup. }
    destruct Hcls as [[_ Hin] | [Hm' _]]; [| congruence].
    destruct (retryable_lookup np_log np_exp np_sum N gl Hpost i c Hc) as (r' & Hr' & Er).
    apply retry_code_facts in Hin. destruct Hin as (_ & _ & _ & _ & Hin). congruence.
  - intros Hrcv. apply andb_prop in Hrcv as [Hrcv ->]. apply andb_prop in Hrcv as [-> Hv'].
    destruct v; simpl in *; [discriminate | auto].
Qed.

(** C4: on every row, the probability compared with the row's uniform
    draw is [clip(sigmoid((score - 0.45) / 0.025) * 0.40 + 0.03, 0.02, 0.90)]
    with [sigmoid(x) = 1 / (1 + exp(-x))], [score] being the row's clipped
    risk score; the row fails exactly when the draw is below it. *)
Theorem fail_probability_formula seed N gl i :
  run np_log np_exp np_sum seed N = inr gl -> (i < N)%nat ->
  exists score p u,
    risk_score gl !! i = Some score /\
    fail_probs gl !! i = Some p /\
    outcomes gl !! i = Some u /\
    p = np_clip
          (add (mul (div (of_Z 1)
                         (add (of_Z 1)
                              (np_exp (opp (div (sub score (lit 45 2)) (lit 25 3))))))
                    (lit 40 2))
               (lit 3 2))
          (lit 2 2) (lit 90 2) /\
    is_failed gl !! i = Some (ltb u p) /\
    status (df gl) !! i = Some (if ltb u p then "failed" else "success").
Proof.
  intros Hrun Hi. apply run_inr in Hrun as Hpost.
  pose proof (is_failed_length np_log np_exp np_sum N gl Hpost) as Hlf.
  rewrite (post_is_failed _ _ _ _ _ Hpost), length_zip_with,
          (post_fail_probs _ _ _ _ _ Hpost), length_map in Hlf.
  destruct (lookup_lt_is_Some_2 (risk_score gl) i) as (s & Hs); [lia |].
  destruct (lookup_lt_is_Some_2 (outcomes gl) i) as (u & Hu); [lia |].
  exists s, (fail_prob np_exp s), u.
  rewrite (post_df_status _ _ _ _ _ Hpost), (post_is_failed _ _ _ _ _ Hpost),
          (post_fail_probs _ _ _ _ _ Hpost).
  rewrite !list_lookup_fmap, !lookup_zip_with, !list_lookup_fmap, Hs, Hu. simpl.
  repeat split; reflexivity.
Qed.

(** C7, as the script has it: every timestamp is the window start plus an
    integer offset in seconds with [0 <= offset < 47433600], so it lies
    from 2023-07-01T00:00:00 to 2024-12-30T23:59:59; no timestamp falls on
    2024-12-31. *)
Theorem timestamp_in_half_open_window seed N gl i :
  run np_log np_exp np_sum seed N = inr gl -> (i < N)%nat ->
  exists offset t,
    raw_seconds gl !! i = Some offset /\
    timestamp (df gl) !! i = Some t /\
    t = Calendar.Timestamp 2023 7 1 + offset /\
    0 <= offset < 47433600 /\
    Calendar.Timestamp 2023 7 1 <= t < Calendar.Timestamp 2024 12 31 /\
    Calendar.date t <> (2024, 12, 31).
Proof.
  intros Hrun Hi. apply run_inr in Hrun as Hpost.
  destruct (lookup_lt_is_Some_2 (raw_seconds gl) i) as (s & Hs).
  { rewrite (post_raw_len _ _ _ _ _ Hpost). exact Hi. }
  assert (Hrange : 0 <= s < end_ts - start_ts).
  { eapply (proj1 (List.Forall_forall _ _) (post_raw_range _ _ _ _ _ Hpost)).
    apply list_elem_of_In. eapply list_elem_of_lookup_2; eauto. }
  exists s, (start_ts + s).
  rewrite (post_df_timestamp _ _ _ _ _ Hpost), (post_timestamps _ _ _ _ _ Hpost).
  rewrite list_lookup_fmap, Hs. simpl.
  pose proof (window_date s Hrange) as Hd.
  rewrite window_seconds in Hrange.
  split_and!; auto; try lia.
  - change (Calendar.Timestamp 2023 7 1) with start_ts. lia.
  - change (Calendar.Timestamp 2024 12 31) with (start_ts + 47433600). lia.
  - destruct (Calendar.date (start_ts + s)) as [[y m] d].
    intros [= -> -> ->]. lia.
Qed.

End RowProperties.

(** ** Amounts and risk scores *)








Section Scores.

Context {G : Type} `{GeneratorLaws G}.
Variable np_log np_exp : float -> float.
Variable np_sum : list float -> float.
Variables (N : nat) (gl : Globals).
Hypothesis Hpost : script_post np_log np_exp np_sum N gl.

Lemma amounts_length : length (amounts gl) = N.
Proof.
  rewrite <- (Forall2_length _ _ _ (post_amounts _ _ _ _ _ Hpost)).
  exact (post_cats_len _ _ _ _ _ Hpost).
Qed.

Lemma raw_risk_length : length (raw_risk gl) = N.
Proof.
  destruct (post_raw_risk _ _ _ _ _ Hpost) as (mb & gm & pm & Hmb & Hgm & Hpm & ->).
  rewrite !length_zip_with, length_map, amounts_length.
  apply Forall2_length in Hmb, Hgm, Hpm.
  pose proof (post_cats_len _ _ _ _ _ Hpost). pose proof (post_geos_len _ _ _ _ _ Hpost).
  pose proof (post_pm_len _ _ _ _ _ Hpost). lia.
Qed.

Lemma risk_score_base_length : length (risk_score_base gl) = N.
Proof. rewrite (post_base _ _ _ _ _ Hpost), length_map. apply raw_risk_length. Qed.

(** The amount of a row: the draw anchored to its category, floored, rounded. *)
Lemma amount_of_row i :
  (i < N)%nat ->
  exists mc c x a,
    merchant_cats gl !! i = Some mc /\
    dict_lookup MERCHANT_CATEGORIES mc = Some c /\
    (exists g, x = fst (lognormal (np_log (of_Z (avg_amount c))) (lit 7 1) g)) /\
    valid_binary prec emax x = true /\
    amounts gl !! i = Some a /\ a = np_round 2 (py_max (lit 10 1) x).
Proof.
  intros Hi.
  destruct (lookup_lt_is_Some_2 (merchant_cats gl) i) as (mc & Hmc).
  { rewrite (post_cats_len _ _ _ _ _ Hpost). exact Hi. }
  destruct (Forall2_lookup_l _ _ _ _ _ (post_amounts _ _ _ _ _ Hpost) Hmc)
    as (a & Ha & c & x & Hc & Hg & Hx & Heq).
  exists mc, c, x, a. split_and!; auto.
Qed.

(** The score of a row before it is written. *)
Lemma score_of_row i :
  (i < N)%nat ->
  exists r z,
    raw_risk gl !! i = Some r /\ noise gl !! i = Some z /\
    valid_binary prec emax z = true /\
    risk_score_base gl !! i
      = Some (div (sub r (risk_min gl)) (sub (risk_max gl) (risk_min gl))) /\
    risk_score gl !! i
      = Some (np_clip (add (div (sub r (risk_min gl)) (sub (risk_max gl) (risk_min gl))) z)
                      (of_Z 0) (of_Z 1)).
Proof.
  intros Hi.
  destruct (lookup_lt_is_Some_2 (raw_risk gl) i) as (r & Hr).
  { rewrite raw_risk_length. exact Hi. }
  destruct (lookup_lt_is_Some_2 (noise gl) i) as (z & Hz).
  { rewrite (post_noise_len _ _ _ _ _ Hpost). exact Hi. }
  assert (Hb : risk_score_base gl !! i
               = Some (div (sub r (risk_min gl)) (sub (risk_max gl) (risk_min gl)))).
  { rewrite (post_base _ _ _ _ _ Hpost), list_lookup_fmap, Hr. reflexivity. }
  exists r, z. split_and!; auto.
  - pose proof (post_noise_valid _ _ _ _ _ Hpost) as Hv.
    rewrite List.Forall_forall in Hv. apply Hv.
    apply list_elem_of_In. eapply list_elem_of_lookup_2; eauto.
  - rewrite (post_score _ _ _ _ _ Hpost), list_lookup_fmap, lookup_zip_with, Hb, Hz.
    reflexivity.
Qed.


End Scores.

Section ScoreProperties.

Context {G : Type} `{GeneratorLaws G}.
Variable np_log np_exp : float -> float.
Variable np_sum : list float -> float.


(** X20: the written score of a row is the normalised risk plus noise,
    clipped to [0, 1] and rounded to four decimals.  It lies in [0, 1], or
    the sum was NaN and so is the written score: no other value is
    written. *)
Theorem written_score_in_unit_interval_or_nan seed N gl i :
  run np_log np_exp np_sum seed N = inr gl -> (i < N)%nat ->
  exists b z w,
    risk_score_base gl !! i = Some b /\ noise gl !! i = Some z /\
    pre_auth_risk_score (df gl) !! i = Some w /\
    w = np_round 4 (np_clip (add b z) (of_Z 0) (of_Z 1)) /\
    ((leb (of_Z 0) w = true /\ leb w (of_Z 1) = true) \/
     (is_nan (add b z) = true /\ w = S754_nan)).
Proof.
  intros Hrun Hi. apply run_inr in Hrun as Hpost.
  destruct (score_of_row np_log np_exp np_sum N gl Hpost i Hi)
    as (r & z & Hr & Hz & Hzv & Hb & Hs).
  set (b := div (sub r (risk_min gl)) (sub (risk_max gl) (risk_min gl))) in *.
  exists b, z, (np_round 4 (np_clip (add b z) (of_Z 0) (of_Z 1))).
  split_and!; auto.
  - rewrite (post_df_score _ _ _ _ _ Hpost), list_lookup_fmap, Hs. reflexivity.
  - destruct (is_nan (add b z)) eqn:Hn.
    + right. split; [reflexivity |]. destruct (add b z); try discriminate Hn. reflexivity.
    + left.
      assert (Hw : Decimals.wf (add b z)).
      { apply Decimals.add_wf; [apply Decimals.div_wf | apply Decimals.valid_wf; exact Hzv]. }
      destruct (Decimals.np_clip_unit _ Hw Hn) as (Hwc & Hlo & Hhi).
      exact (Decimals.np_round_unit _ Hwc Hlo Hhi).
Qed.

End ScoreProperties.

(** ** The concrete generator satisfies the laws *)

Module LcgLaws.
Import Lcg.

Lemma sample_length {A} (f : Z -> A) n s : length (fst (sample f n s)) = n.
Proof.
  revert s. induction n as [| n IH]; intros s; simpl; [reflexivity |].
  specialize (IH (next s)). destruct (sample f n (next s)). simpl in *. lia.
Qed.

Lemma sample_In {A} (f : Z -> A) n s x :
  In x (fst (sample f n s)) -> exists s', x = f s'.
Proof.
  revert s. induction n as [| n IH]; intros s; simpl; [tauto |].
  specialize (IH (next s)). destruct (sample f n (next s)). simpl in *.
  intros [<- | Hx]; eauto.
Qed.

Lemma table_index (len : nat) (z : Z) :
  (0 < len)%nat -> (Z.to_nat (z mod Z.of_nat len) < len)%nat.
Proof. intros Hl. pose proof (Z.mod_pos_bound z (Z.of_nat len)). lia. Qed.

Lemma pick_In a s : a <> [] -> In (pick a s) a.
Proof.
  intros Ha. unfold pick. apply nth_In. apply table_index.
  destruct a; [contradiction | simpl; lia].
Qed.

Lemma pick_float_In t s : t <> [] -> In (pick_float t s) t.
Proof.
  intros Ht. unfold pick_float. apply nth_In. apply table_index.
  destruct t; [contradiction | simpl; lia].
Qed.

Lemma amounts_table_valid x :
  In x amounts_table -> valid_binary prec emax x = true.
Proof.
  intros Hx. vm_compute in Hx.
  repeat (destruct Hx as [<- | Hx]; [reflexivity |]). destruct Hx.
Qed.

Lemma noise_table_valid x :
  In x noise_table -> valid_binary prec emax x = true.
Proof.
  intros Hx. vm_compute in Hx.
  repeat (destruct Hx as [<- | Hx]; [reflexivity |]). destruct Hx.
Qed.

#[export] Instance lcg_laws : GeneratorLaws Z.
Proof.
  constructor; simpl.
  - intros a p n g Ha. unfold lcg_choice. destruct a; [contradiction |].
    apply sample_length.
  - intros a p n g x. unfold lcg_choice. destruct a as [| y a]; [simpl; tauto |].
    intros Hx. apply sample_In in Hx as (s' & ->). apply pick_In. discriminate.
  - intros lo hi n g Hlt. unfold lcg_integers.
    apply Z.ltb_lt in Hlt. rewrite Hlt. apply sample_length.
  - intros lo hi n g x. unfold lcg_integers.
    destruct (lo <? hi) eqn:Hlt; [| simpl; tauto].
    apply Z.ltb_lt in Hlt. intros Hx. apply sample_In in Hx as (s' & ->).
    pose proof (Z.mod_pos_bound (s' / 2 ^ 20) (hi - lo)). lia.
  - intros. apply sample_length.
  - intros. apply sample_length.
  - intros. apply sample_length.
  - intros. apply amounts_table_valid. apply pick_float_In. discriminate.
  - intros mu sd n g x Hx. apply sample_In in Hx as (s' & ->).
    apply noise_table_valid. apply pick_float_In. discriminate.
Qed.

End LcgLaws.

(** ** The order in which the generator is consumed *)

Section DrawOrder.

Context {G : Type} `{Generator G}.
Variable np_log np_exp : float -> float.
Variable np_sum : list float -> float.

Abbreviation T := (G * list draw_event)%type.

Lemma logged_log {A} ev (f : G -> A * G) (st : T) :
  snd (snd (logged ev f st)) = snd st ++ [ev].
Proof. unfold logged. destruct (f (fst st)). reflexivity. Qed.

Lemma traced_choice_log a p n (st : T) :
  snd (snd (choice a p n st)) = snd st ++ [Choice a p n].
Proof. exact (logged_log _ _ _). Qed.

Lemma traced_integers_log lo hi n (st : T) :
  snd (snd (integers lo hi n st)) = snd st ++ [Integers lo hi n].
Proof. exact (logged_log _ _ _). Qed.

Lemma traced_normal_log mu sd n (st : T) :
  snd (snd (normal mu sd n st)) = snd st ++ [Normal mu sd n].
Proof. exact (logged_log _ _ _). Qed.

Lemma traced_random_log n (st : T) :
  snd (snd (random n st)) = snd st ++ [Random n].
Proof. exact (logged_log _ _ _). Qed.

Lemma traced_random_scalar_log (st : T) :
  snd (snd (random_scalar st)) = snd st ++ [RandomScalar].
Proof. exact (logged_log _ _ _). Qed.

Lemma traced_lognormal_log mean sigma (st : T) :
  snd (snd (lognormal mean sigma st)) = snd st ++ [Lognormal mean sigma].
Proof. exact (logged_log _ _ _). Qed.

Lemma traced_power_log a n (st : T) :
  snd (snd (power a n st)) = snd st ++ [Power a n].
Proof. exact (logged_log _ _ _). Qed.

Lemma draw_amount_log mc (st : T) a st' :
  draw_amount (G := T) np_log mc st = inr (a, st') ->
  exists c, dict_lookup MERCHANT_CATEGORIES mc = Some c /\
            snd st' = snd st ++ [Lognormal (np_log (of_Z (avg_amount c))) (lit 7 1)].
Proof.
  unfold draw_amount. intros E.
  apply bind_inr in E as (c & st1 & Ec & E).
  apply try_inr in Ec as [Ec ->].
  apply bind_inr in E as (x & st2 & Ex & E).
  apply draw_inr in Ex as [_ ->]. apply ret_inr in E as [_ ->].
  unfold getitem in Ec. destruct (dict_lookup MERCHANT_CATEGORIES mc) as [c' |]; [| discriminate].
  injection Ec as ->. exists c. split; [reflexivity |]. apply traced_lognormal_log.
Qed.

Lemma amounts_log cats (st : T) am st' :
  mapM (draw_amount (G := T) np_log) cats st = inr (am, st') ->
  snd st' = snd st ++
    flat_map (fun mc =>
        match dict_lookup MERCHANT_CATEGORIES mc with
        | Some c => [Lognormal (np_log (of_Z (avg_amount c))) (lit 7 1)]
        | None => []
        end) cats.
Proof.
  revert st am. induction cats as [| mc cats IH]; cbn [mapM flat_map]; intros st am E.
  - apply ret_inr in E as [_ ->]. rewrite app_nil_r. reflexivity.
  - apply bind_inr in E as (a & st1 & Ea & E).
    apply bind_inr in E as (am' & st2 & Eam & E).
    apply ret_inr in E as [_ ->].
    apply draw_amount_log in Ea as (c & -> & Hlog).
    rewrite (IH _ _ Eam), Hlog, <- app_assoc. reflexivity.
Qed.

Lemma recovery_log codes targets rr (st : T) rr' st' :
  foldM (recovery_step (G := T) codes) targets rr st = inr (rr', st') ->
  snd st' = snd st ++ repeat RandomScalar (length targets).
Proof.
  revert rr st. induction targets as [| t targets IH]; simpl; intros rr st E.
  - apply ret_inr in E as [_ ->]. rewrite app_nil_r. reflexivity.
  - apply bind_inr in E as (rr1 & st1 & E1 & E).
    unfold recovery_step in E1.
    apply bind_inr in E1 as (c & st2 & Ec & E1). apply try_inr in Ec as [_ ->].
    apply bind_inr in E1 as (u & st3 & Eu & E1). apply draw_inr in Eu as [_ ->].
    apply ret_inr in E1 as [_ ->].
    rewrite (IH _ _ E), traced_random_scalar_log, <- app_assoc. reflexivity.
Qed.

Lemma script_log N (st : T) gl st' :
  script (G := T) np_log np_exp np_sum N st = inr (gl, st') ->
  snd st' = snd st ++ draw_order np_log N gl.
Proof.
  unfold script. cbv beta zeta. intros E.
  apply bind_inr in E as (cats & g1 & Ecats & E); cbv beta zeta in E.
  apply bind_inr in E as (gs & g2 & Egeos & E); cbv beta zeta in E.
  apply bind_inr in E as (pms & g3 & Epms & E); cbv beta zeta in E.
  apply bind_inr in E as (am & g4 & Eam & E); cbv beta zeta in E.
  apply bind_inr in E as (raw & g5 & Eraw & E); cbv beta zeta in E.
  apply bind_inr in E as (mcb & g6 & Emcb & E); cbv beta zeta in E.
  apply bind_inr in E as (gm & g7 & Egm & E); cbv beta zeta in E.
  apply bind_inr in E as (pmm & g8 & Epmm & E); cbv beta zeta in E.
  apply bind_inr in E as (rmin & g9 & Ermin & E); cbv beta zeta in E.
  apply bind_inr in E as (rmax & g10 & Ermax & E); cbv beta zeta in E.
  apply bind_inr in E as (nz & g11 & Enz & E); cbv beta zeta in E.
  apply bind_inr in E as (out & g12 & Eout & E); cbv beta zeta in E.
  apply bind_inr in E as (md & g13 & Emd & E); cbv beta zeta in E.
  apply bind_inr in E as (ra & g14 & Era & E); cbv beta zeta in E.
  apply bind_inr in E as (nra & g15 & Enra & E); cbv beta zeta in E.
  apply bind_inr in E as (ac & g16 & Eac & E); cbv beta zeta in E.
  apply bind_inr in E as (fc & g17 & Efc & E); cbv beta zeta in E.
  apply bind_inr in E as (rt & g18 & Ert & E); cbv beta zeta in E.
  apply bind_inr in E as (rr & g19 & Err & E); cbv beta zeta in E.
  apply bind_inr in E as (mp & g20 & Emp & E); cbv beta zeta in E.
  apply bind_inr in E as (mids & g21 & Emids & E); cbv beta zeta in E.
  apply bind_inr in E as (cur & g22 & Ecur & E); cbv beta zeta in E.
  apply ret_inr in E as [-> ->].
  apply try_inr in Ecur as [_ ->], Ert as [_ ->], Efc as [_ ->], Eac as [_ ->].
  apply try_inr in Ermax as [_ ->], Ermin as [_ ->], Epmm as [_ ->], Egm as [_ ->],
    Emcb as [_ ->].
  apply amounts_log in Eam. apply recovery_log in Err.
  apply draw_inr in Ecats as [Ecats Hg1], Egeos as [Egeos Hg2], Epms as [Epms Hg3].
  apply draw_inr in Eraw as [Eraw Hg5], Enz as [Enz Hg11], Eout as [Eout Hg12].
  apply draw_inr in Emd as [Emd Hg13], Era as [Era Hg14], Enra as [Enra Hg15].
  apply draw_inr in Emp as [Emp Hg20], Emids as [Emids Hg21].
  apply (f_equal snd) in Hg1, Hg2, Hg3, Hg5, Hg11, Hg12, Hg13, Hg14, Hg15, Hg20, Hg21.
  rewrite traced_choice_log in Hg1, Hg2, Hg3, Hg14, Hg15, Hg21.
  rewrite traced_integers_log in Hg5. rewrite traced_normal_log in Hg11.
  rewrite traced_random_log in Hg12, Hg13. rewrite traced_power_log in Hg20.
  unfold draw_order. fields.
  rewrite Hg21, Hg20, Err, Hg15, Hg14, Hg13, Hg12, Hg11, Hg5, Eam, Hg3, Hg2, Hg1.
  repeat rewrite <- app_assoc. reflexivity.
Qed.

End DrawOrder.

(** The recording generator satisfies the laws of the generator it wraps. *)

Section TracedLaws.

Context {G : Type} `{GeneratorLaws G}.

Lemma logged_fst {A} ev (f : G -> A * G) (st : G * list draw_event) :
  fst (logged ev f st) = fst (f (fst st)).
Proof. unfold logged. destruct (f (fst st)). reflexivity. Qed.

#[export] Instance traced_laws : GeneratorLaws (G * list draw_event).
Proof.
  constructor; intros; cbn [traced choice lognormal integers normal random power] in *;
    rewrite ?logged_fst in *.
  - apply choice_length. assumption.
  - eapply choice_member; eauto.
  - apply integers_length. assumption.
  - eapply integers_range; eauto.
  - apply normal_length.
  - apply random_length.
  - apply power_length.
  - apply lognormal_valid.
  - eapply normal_valid; eauto.
Qed.

Lemma traced_run_total (np_log np_exp : float -> float) (np_sum : list float -> float)
    seed N :
  (0 < N)%nat ->
  exists gl log, traced_run (G := G) np_log np_exp np_sum seed N = inr (gl, log).
Proof.
  intros HN. unfold traced_run.
  destruct (script_total (G := G * list draw_event) np_log np_exp np_sum N
              (default_rng seed) HN) as (gl & [g' log] & E).
  rewrite E. eauto.
Qed.

End TracedLaws.

(** ** Two generators that agree draw for draw

    Two runs of the script are two processes, each with a generator object
    of its own built from the seed.  The two objects are related by [R]
    when they return the same values from then on. *)

Section Agreement.

Context {G1 G2 : Type} {H1 : Generator G1} {H2 : Generator G2}.
Variable R : G1 -> G2 -> Prop.

Definition same_result {A} (f1 : G1 -> A * G1) (f2 : G2 -> A * G2) : Prop :=
  forall g1 g2, R g1 g2 -> fst (f1 g1) = fst (f2 g2) /\ R (snd (f1 g1)) (snd (f2 g2)).

Record same_draws : Prop := {
  same_rng : forall seed, R (default_rng seed) (default_rng seed);
  same_choice : forall a p n, same_result (choice a p n) (choice a p n);
  same_lognormal : forall mean sigma,
    same_result (lognormal mean sigma) (lognormal mean sigma);
  same_integers : forall lo hi n, same_result (integers lo hi n) (integers lo hi n);
  same_normal : forall mu sd n, same_result (normal mu sd n) (normal mu sd n);
  same_random : forall n, same_result (random n) (random n);
  same_random_scalar : same_result random_scalar random_scalar;
  same_power : forall a n, same_result (power a n) (power a n)
}.








Hypothesis Hsame : same_draws.

Variable np_log np_exp : float -> float.
Variable np_sum : list float -> float.





End Agreement.

(** Recording the calls keeps two generators in agreement, with equal
    logs; and a recording generator agrees with the one it wraps. *)
Lemma logged_same_result {G1 G2 A} (R : G1 -> G2 -> Prop) ev
    (f1 : G1 -> A * G1) (f2 : G2 -> A * G2) :
  same_result R f1 f2 ->
  same_result (fun s1 s2 => R (fst s1) (fst s2) /\ snd s1 = snd s2)
              (logged ev f1) (logged ev f2).
Proof.
  intros Hf [g1 l1] [g2 l2] [Hg Hl]. simpl in Hg, Hl. subst l2.
  specialize (Hf g1 g2 Hg). unfold logged. simpl.
  destruct (f1 g1), (f2 g2). simpl in *. tauto.
Qed.

Lemma traced_same_draws {G1 G2} {H1 : Generator G1} {H2 : Generator G2}
    (R : G1 -> G2 -> Prop) :
  same_draws R ->
  same_draws (H1 := traced G1) (H2 := traced G2)
             (fun s1 s2 => R (fst s1) (fst s2) /\ snd s1 = snd s2).
Proof.
  intros Hs. constructor; intros; try apply logged_same_result.
  - simpl. split; [apply (same_rng R Hs) | reflexivity].
  - apply (same_choice R Hs).
  - apply (same_lognormal R Hs).
  - apply (same_integers R Hs).
  - apply (same_normal R Hs).
  - apply (same_random R Hs).
  - apply (same_random_scalar R Hs).
  - apply (same_power R Hs).
Qed.



Section Determinism.

Context {G1 G2 : Type} {H1 : Generator G1} {H2 : Generator G2}.
Variable R : G1 -> G2 -> Prop.
Variable np_log np_exp : float -> float.
Variable np_sum : list float -> float.
Variable to_csv : DataFrame -> string.



End Determinism.

(** ** The generators without state satisfy the laws *)

Module PatternLaws.
Import Pattern.

Lemma member_In vary a k : a <> [] -> In (member vary a k) a.
Proof.
  intros Ha. unfold member. apply nth_In.
  assert (0 < length a)%nat by (destruct a; [contradiction | simpl; lia]).
  destruct vary; [apply Nat.mod_upper_bound; lia | lia].
Qed.

Lemma replicate_In {A} n (x y : A) : In y (replicate n x) -> y = x.
Proof. induction n as [| n IH]; simpl; [tauto | intros [<- | Hy]; auto]. Qed.

Lemma pattern_laws vary : GeneratorLaws unit (H := pattern vary).
Proof.
  constructor; simpl.
  - intros a p n g Ha. destruct a; [contradiction |].
    rewrite length_map, length_seq. reflexivity.
  - intros a p n g x. destruct a as [| y a]; [simpl; tauto |].
    intros Hx. apply in_map_iff in Hx as (k & <- & _). apply member_In. discriminate.
  - intros lo hi n g Hlt. apply Z.ltb_lt in Hlt. rewrite Hlt. apply length_replicate.
  - intros lo hi n g x. destruct (lo <? hi) eqn:Hlt; [| simpl; tauto].
    intros Hx. apply replicate_In in Hx as ->. apply Z.ltb_lt in Hlt. lia.
  - intros mu sd n g. apply length_replicate.
  - intros n g. apply length_replicate.
  - intros a n g. apply length_replicate.
  - intros mean sigma g. vm_compute. reflexivity.
  - intros mu sd n g x Hx. apply replicate_In in Hx as ->. vm_compute. reflexivity.
Qed.


End PatternLaws.

(** ** Batches whose rows are all alike *)

Section Degenerate.

Variable np_log np_exp : float -> float.
Variable np_sum : list float -> float.






End Degenerate.

(** ** The generator on two halves agrees with the generator *)

Module HalvesAgree.
Import Lcg.




End HalvesAgree.

(** ** The theorems at the concrete generator *)

Lemma failure_code_success_iff_status_witness :
  exists gl,
    run (G := Z) (H := Lcg.lcg) Lcg.log Lcg.exp Lcg.sum 7 40 = inr gl /\
    exists st fc,
      status (df gl) !! 2%nat = Some st /\
      failure_code (df gl) !! 2%nat = Some fc /\
      (st = "success" \/ st = "failed") /\
      (fc = "success" <-> st = "success") /\
      (st = "failed" <-> fc <> "success").
Proof.
  destruct (run_total (G := Z) (H := Lcg.lcg) (H0 := LcgLaws.lcg_laws)
             Lcg.log Lcg.exp Lcg.sum 7 40 ltac:(lia)) as (gl & E).
  exists gl. split; [exact E |].
  exact (failure_code_success_iff_status (G := Z) (H := Lcg.lcg) (H0 := LcgLaws.lcg_laws)
             Lcg.log Lcg.exp Lcg.sum
           7 40 gl 2 E ltac:(lia)).
Defined.

Lemma failure_code_in_table_witness :
  exists gl,
    run (G := Z) (H := Lcg.lcg) Lcg.log Lcg.exp Lcg.sum 7 40 = inr gl /\
    exists fc,
      failure_code (df gl) !! 7%nat = Some fc /\
      (fc = "success" \/ In fc (dict_keys FAILURE_CODES)) /\
      fc <> "pending_code" /\
      length (dict_keys FAILURE_CODES) = 12%nat.
Proof.
  destruct (run_total (G := Z) (H := Lcg.lcg) (H0 := LcgLaws.lcg_laws)
             Lcg.log Lcg.exp Lcg.sum 7 40 ltac:(lia)) as (gl & E).
  exists gl. split; [exact E |].
  exact (failure_code_in_table (G := Z) (H := Lcg.lcg) (H0 := LcgLaws.lcg_laws)
             Lcg.log Lcg.exp Lcg.sum 7 40 gl 7 E ltac:(lia)).
Defined.

Lemma is_retryable_is_table_lookup_witness :
  exists gl,
    run (G := Z) (H := Lcg.lcg) Lcg.log Lcg.exp Lcg.sum 7 40 = inr gl /\
    exists fc flag,
      failure_code (df gl) !! 8%nat = Some fc /\
      is_retryable (df gl) !! 8%nat = Some (astype_int flag) /\
      (fc = "success" -> flag = false) /\
      (fc <> "success" ->
         exists descr, dict_lookup FAILURE_CODES fc = Some (flag, descr)) /\
      (flag = true <-> In fc RETRY_CODES).
Proof.
  destruct (run_total (G := Z) (H := Lcg.lcg) (H0 := LcgLaws.lcg_laws)
             Lcg.log Lcg.exp Lcg.sum 7 40 ltac:(lia)) as (gl & E).
  exists gl. split; [exact E |].
  exact (is_retryable_is_table_lookup (G := Z) (H := Lcg.lcg) (H0 := LcgLaws.lcg_laws)
             Lcg.log Lcg.exp Lcg.sum
           7 40 gl 8 E ltac:(lia)).
Defined.

Lemma recovery_flags_consistent_witness :
  exists gl,
    run (G := Z) (H := Lcg.lcg) Lcg.log Lcg.exp Lcg.sum 7 40 = inr gl /\
    exists retr rec rcv st,
      is_retryable (df gl) !! 8%nat = Some (astype_int retr) /\
      retry_recovered (df gl) !! 8%nat = Some (astype_int rec) /\
      is_recoverable (df gl) !! 8%nat = Some (astype_int rcv) /\
      status (df gl) !! 8%nat = Some st /\
      (rec = true -> retr = true /\ st = "failed") /\
      (rcv = true -> retr = true /\ rec = false /\ st = "failed").
Proof.
  destruct (run_total (G := Z) (H := Lcg.lcg) (H0 := LcgLaws.lcg_laws)
             Lcg.log Lcg.exp Lcg.sum 7 40 ltac:(lia)) as (gl & E).
  exists gl. split; [exact E |].
  exact (recovery_flags_consistent (G := Z) (H := Lcg.lcg) (H0 := LcgLaws.lcg_laws)
             Lcg.log Lcg.exp Lcg.sum 7 40 gl 8 E ltac:(lia)).
Defined.

Lemma fail_probability_formula_witness :
  exists gl,
    run (G := Z) (H := Lcg.lcg) Lcg.log Lcg.exp Lcg.sum 7 40 = inr gl /\
    exists score p u,
      risk_score gl !! 2%nat = Some score /\
      fail_probs gl !! 2%nat = Some p /\
      outcomes gl !! 2%nat = Some u /\
      p = np_clip
            (add (mul (div (of_Z 1)
                           (add (of_Z 1)
                                (Lcg.exp (opp (div (sub score (lit 45 2)) (lit 25 3))))))
                      (lit 40 2))
                 (lit 3 2))
            (lit 2 2) (lit 90 2) /\
      is_failed gl !! 2%nat = Some (ltb u p) /\
      status (df gl) !! 2%nat = Some (if ltb u p then "failed" else "success").
Proof.
  destruct (run_total (G := Z) (H := Lcg.lcg) (H0 := LcgLaws.lcg_laws)
             Lcg.log Lcg.exp Lcg.sum 7 40 ltac:(lia)) as (gl & E).
  exists gl. split; [exact E |].
  exact (fail_probability_formula (G := Z) (H := Lcg.lcg) (H0 := LcgLaws.lcg_laws)
             Lcg.log Lcg.exp Lcg.sum 7 40 gl 2 E ltac:(lia)).
Defined.


Lemma timestamp_in_half_open_window_witness :
  exists gl,
    run (G := Z) (H := Lcg.lcg) Lcg.log Lcg.exp Lcg.sum 7 40 = inr gl /\
    exists offset t,
      raw_seconds gl !! 0%nat = Some offset /\
      timestamp (df gl) !! 0%nat = Some t /\
      t = Calendar.Timestamp 2023 7 1 + offset /\
      0 <= offset < 47433600 /\
      Calendar.Timestamp 2023 7 1 <= t < Calendar.Timestamp 2024 12 31 /\
      Calendar.date t <> (2024, 12, 31).
Proof.
  destruct (run_total (G := Z) (H := Lcg.lcg) (H0 := LcgLaws.lcg_laws)
             Lcg.log Lcg.exp Lcg.sum 7 40 ltac:(lia)) as (gl & E).
  exists gl. split; [exact E |].
  exact (timestamp_in_half_open_window (G := Z) (H := Lcg.lcg) (H0 := LcgLaws.lcg_laws)
             Lcg.log Lcg.exp Lcg.sum
           7 40 gl 0 E ltac:(lia)).
Defined.

(** The first instant of the end date, 2024-12-31T00:00:00, needs the
    offset 47433600, which [integers(0, 47433600)] never returns; the last
    instant of the window is 2024-12-30T23:59:59. *)
Definition in_sampled_range (t : Z) : bool :=
  (0 <=? t - start_ts) && (t - start_ts <? end_ts - start_ts).

Lemma end_date_not_sampled :
  Calendar.date end_ts = (2024, 12, 31) /\
  in_sampled_range end_ts = false /\
  in_sampled_range (end_ts - 1) = true /\
  Calendar.date (end_ts - 1) = (2024, 12, 30).
Proof. vm_compute. auto. Qed.


(** ** Further properties of a run *)

Lemma bool_sum_from (a : list bool) (s : Z) :
  fold_left (fun s (b : bool) => s + astype_int b) a s = s + bool_sum a.
Proof.
  unfold bool_sum. revert s. induction a as [| b a IH]; intros s; simpl; [lia |].
  rewrite (IH (s + astype_int b)), (IH (0 + astype_int b)). lia.
Qed.

Lemma bool_sum_cons b a : bool_sum (b :: a) = astype_int b + bool_sum a.
Proof. unfold bool_sum at 1. simpl. rewrite bool_sum_from. lia. Qed.

Lemma bool_sum_bounds a : 0 <= bool_sum a <= Z.of_nat (length a).
Proof.
  induction a as [| b a IH]; [unfold bool_sum; simpl; lia |].
  rewrite bool_sum_cons. destruct b; simpl length; simpl astype_int; lia.
Qed.

Lemma bool_sum_le a b :
  Forall2 (fun x y : bool => x = true -> y = true) a b -> bool_sum a <= bool_sum b.
Proof.
  induction 1 as [| x y a b Hxy _ IH]; [lia |].
  rewrite !bool_sum_cons. destruct x, y; simpl; lia.
Qed.

Lemma where_from_length k mask : Z.of_nat (length (where_from k mask)) = bool_sum mask.
Proof.
  revert k. induction mask as [| b mask IH]; intros k; [reflexivity |].
  rewrite bool_sum_cons. simpl where_from. destruct b; simpl; rewrite <- (IH (S k)); lia.
Qed.

Lemma where_from_increasing mask k j1 j2 i1 i2 :
  (j1 < j2)%nat ->
  where_from k mask !! j1 = Some i1 -> where_from k mask !! j2 = Some i2 ->
  (i1 < i2)%nat.
Proof.
  revert k j1 j2. induction mask as [| b mask IH]; intros k j1 j2 Hlt H1 H2; simpl in *;
    [discriminate |].
  destruct b; [| eapply IH; eauto].
  destruct j2 as [| j2]; [lia |]. simpl in H2.
  destruct j1 as [| j1]; simpl in H1.
  - injection H1 as <-.
    apply list_elem_of_lookup_2, where_from_spec in H2 as (j & -> & _). lia.
  - eapply (IH (S k) j1 j2); eauto. lia.
Qed.

Lemma boolean_index_length (idx : list nat) mask :
  length idx = length mask ->
  Z.of_nat (length (boolean_index idx mask)) = bool_sum mask.
Proof.
  revert mask. induction idx as [| i idx IH]; intros [| b mask] Hl; simpl in *; try lia.
  - reflexivity.
  - rewrite bool_sum_cons. destruct b; simpl; rewrite <- (IH mask) by lia; lia.
Qed.

Lemma fold_minimum_In l r : In (fold_left np_minimum l r) (r :: l).
Proof.
  revert r. induction l as [| x l IH]; intros r; simpl; [auto |].
  destruct (IH (np_minimum r x)) as [Hh | Ht]; [| auto].
  rewrite <- Hh. unfold np_minimum. destruct (_ || _); auto.
Qed.

Lemma fold_maximum_In l r : In (fold_left np_maximum l r) (r :: l).
Proof.
  revert r. induction l as [| x l IH]; intros r; simpl; [auto |].
  destruct (IH (np_maximum r x)) as [Hh | Ht]; [| auto].
  rewrite <- Hh. unfold np_maximum. destruct (_ || _); auto.
Qed.

Lemma retry_recovery_entries c :
  In c RETRY_CODES ->
  exists rate, dict_lookup RETRY_RECOVERY c = Some rate /\
               forall dflt, dict_get RETRY_RECOVERY c dflt = rate.
Proof.
  intros Hc. vm_compute in Hc.
  repeat (destruct Hc as [<- | Hc]; [eexists; split; [reflexivity | intros; reflexivity] |]).
  destruct Hc.
Qed.

(** Flags that are [False] off the selected rows and copy a mask on them
    have as many [True] entries as the mask. *)
Lemma scatter_count (flags : list bool) k (mask r : list bool) :
  length r = length flags ->
  length mask = length (where_from k flags) ->
  (forall i j, where_from k flags !! j = Some (k + i)%nat -> r !! i = mask !! j) ->
  (forall i, flags !! i = Some false -> r !! i = Some false) ->
  bool_sum r = bool_sum mask.
Proof.
  revert k mask r. induction flags as [| b fl IH]; intros k mask r Hr Hm H1 H2.
  - destruct r; [| discriminate]. destruct mask; [| discriminate]. reflexivity.
  - destruct r as [| r0 rt]; [discriminate |]. simpl in Hr, Hm.
    destruct b.
    + destruct mask as [| m mk]; [discriminate |]. simpl in Hm.
      assert (E0 : r0 = m).
      { specialize (H1 0%nat 0%nat). simpl in H1. rewrite Nat.add_0_r in H1.
        specialize (H1 eq_refl). congruence. }
      rewrite !bool_sum_cons, E0. f_equal.
      apply (IH (S k)); [lia | lia | |].
      * intros i j Hj. apply (H1 (S i) (S j)). simpl. rewrite Hj. f_equal. lia.
      * intros i Hi. exact (H2 (S i) Hi).
    + assert (E0 : r0 = false) by (specialize (H2 0%nat eq_refl); simpl in H2; congruence).
      rewrite bool_sum_cons, E0. simpl astype_int. rewrite Z.add_0_l.
      apply (IH (S k)); [lia | exact Hm | |].
      * intros i j Hj. apply (H1 (S i) j). simpl. rewrite Hj. f_equal. lia.
      * intros i Hi. exact (H2 (S i) Hi).
Qed.

Section Further.

Context {G : Type} `{GeneratorLaws G}.
Variable np_log np_exp : float -> float.
Variable np_sum : list float -> float.

(** X1: a run returns its table exactly when it has at least one row: no
    dictionary access, index or assignment of the script can raise. *)
Theorem run_completes_iff_nonempty seed N :
  (exists gl, run np_log np_exp np_sum seed N = inr gl) <-> (0 < N)%nat.
Proof.
  split.
  - intros (gl & E). destruct N; [| lia].
    rewrite run_empty in E. discriminate.
  - apply run_total.
Qed.

(** X2: from the first draw to the assembled table (the steps between the
    creation of the generator and the call of [to_csv]), the only
    exception raised is the [ValueError] of [raw_risk.min()] on an empty
    batch.  The two statements that touch the file system, [os.makedirs]
    and [df.to_csv], are outside [run] and can fail on their own. *)
Theorem only_empty_batch_raises seed N e :
  run np_log np_exp np_sum seed N = inl e -> N = 0%nat /\ e = ValueError.
Proof.
  intros E. destruct N as [| n].
  - rewrite run_empty in E. injection E as <-. auto.
  - destruct (run_total np_log np_exp np_sum seed (S n) ltac:(lia)) as (gl & E').
    congruence.
Qed.

(** *** Shapes *)

Section Rows.

Variables (N : nat) (gl : Globals).
Hypothesis Hpost : script_post np_log np_exp np_sum N gl.

Lemma timestamps_length : length (timestamps gl) = N.
Proof.
  rewrite (post_timestamps _ _ _ _ _ Hpost), length_map.
  exact (post_raw_len _ _ _ _ _ Hpost).
Qed.

Lemma risk_score_length : length (risk_score gl) = N.
Proof.
  rewrite (post_score _ _ _ _ _ Hpost), length_map, length_zip_with.
  rewrite (risk_score_base_length np_log np_exp np_sum N gl Hpost).
  rewrite (post_noise_len _ _ _ _ _ Hpost). lia.
Qed.

Lemma retryable_length : length (retryable gl) = N.
Proof.
  rewrite <- (Forall2_length _ _ _ (mapE_inr _ _ _ (post_retryable _ _ _ _ _ Hpost))).
  exact (failure_codes_length np_log np_exp np_sum N gl Hpost).
Qed.

Lemma recovered_length : length (recovered gl) = N.
Proof.
  destruct (post_recovered _ _ _ _ _ Hpost) as (g1 & g2 & Hloop).
  apply recovery_loop in Hloop as [Hlen _]. rewrite Hlen. apply length_replicate.
Qed.

Lemma recoverable_length : length (recoverable gl) = N.
Proof.
  rewrite (post_recoverable _ _ _ _ _ Hpost), !length_zip_with, length_map.
  rewrite retryable_length, recovered_length.
  rewrite (is_failed_length np_log np_exp np_sum N gl Hpost). lia.
Qed.

Lemma currency_length : length (currency (df gl)) = N.
Proof.
  rewrite <- (Forall2_length _ _ _ (mapE_inr _ _ _ (post_df_currency _ _ _ _ _ Hpost))).
  exact (post_geos_len _ _ _ _ _ Hpost).
Qed.

(** A failed row takes its retryable flag from the mask entry at its rank
    among the failed rows. *)
Lemma retryable_of_failed_row i :
  is_failed gl !! i = Some true ->
  exists j (m : bool) c,
    failed_idx gl !! j = Some i /\ retryable_mask gl !! j = Some m /\
    failure_codes gl !! i = Some c /\
    (if m then In c RETRY_CODES else In c NON_RETRY_CODES) /\
    retryable gl !! i = Some m.
Proof.
  intros Hi.
  destruct (code_of_failed np_log np_exp np_sum N gl Hpost i Hi)
    as (j & c & Hj & _ & Hc & Hcls).
  destruct (retryable_lookup np_log np_exp np_sum N gl Hpost i c Hc) as (r & Hr & Er).
  destruct Hcls as [[Hm Hin] | [Hm Hin]].
  - exists j, true, c. split_and!; auto.
    apply retry_code_facts in Hin. destruct Hin as (_ & _ & _ & _ & Hin). congruence.
  - exists j, false, c. split_and!; auto.
    apply nonretry_code_facts in Hin. destruct Hin as (_ & _ & _ & _ & Hin). congruence.
Qed.

Lemma retryable_of_success_row i :
  is_failed gl !! i = Some false -> retryable gl !! i = Some false.
Proof.
  intros Hi.
  pose proof (code_of_success np_log np_exp np_sum N gl Hpost i Hi) as Hc.
  destruct (retryable_lookup np_log np_exp np_sum N gl Hpost i _ Hc) as (r & Hr & Er).
  vm_compute in Er. congruence.
Qed.

(** The retryable rows are as many as the entries of the recovery loop. *)
Lemma retryable_count :
  bool_sum (retryable gl)
  = Z.of_nat (length (boolean_index (failed_idx gl) (retryable_mask gl))).
Proof.
  pose proof (is_failed_length np_log np_exp np_sum N gl Hpost) as Hlf.
  pose proof retryable_length as Hlr.
  rewrite (boolean_index_length _ _ (eq_sym (post_mask_len _ _ _ _ _ Hpost))).
  apply (scatter_count (is_failed gl) 0%nat); [lia | | |].
  - rewrite (post_mask_len _ _ _ _ _ Hpost), (post_failed_idx _ _ _ _ _ Hpost).
    reflexivity.
  - intros i j Hj. simpl in Hj. fold (np_where (is_failed gl)) in Hj.
    assert (Hfail : is_failed gl !! i = Some true).
    { apply np_where_spec. eapply list_elem_of_lookup_2; eauto. }
    destruct (retryable_of_failed_row i Hfail) as (j' & m & c & Hj' & Hm & _ & _ & Hr).
    rewrite (post_failed_idx _ _ _ _ _ Hpost) in Hj'.
    pose proof (NoDup_lookup _ _ _ _ (np_where_NoDup _) Hj' Hj) as ->.
    congruence.
  - intros i Hi. exact (retryable_of_success_row i Hi).
Qed.

End Rows.

(** X3: every column of the table has one entry per row. *)
Theorem columns_have_one_entry_per_row seed N gl :
  run np_log np_exp np_sum seed N = inr gl ->
  length (transaction_id (df gl)) = N /\ length (timestamp (df gl)) = N /\
  length (merchant_id (df gl)) = N /\ length (merchant_category (df gl)) = N /\
  length (geography_ (df gl)) = N /\ length (currency (df gl)) = N /\
  length (payment_method (df gl)) = N /\ length (amount_usd (df gl)) = N /\
  length (pre_auth_risk_score (df gl)) = N /\ length (status (df gl)) = N /\
  length (failure_code (df gl)) = N /\ length (is_retryable (df gl)) = N /\
  length (retry_recovered (df gl)) = N /\ length (is_recoverable (df gl)) = N /\
  length (hour_of_day (df gl)) = N /\ length (day_of_week (df gl)) = N /\
  length (is_weekend (df gl)) = N /\ length (month (df gl)) = N /\
  length (year (df gl)) = N.
Proof.
  intros Hrun. apply run_inr in Hrun as Hpost.
  pose proof (timestamps_length N gl Hpost) as Hts.
  rewrite (post_df_transaction_id _ _ _ _ _ Hpost), (post_df_timestamp _ _ _ _ _ Hpost),
    (post_df_merchant_id _ _ _ _ _ Hpost), (post_df_category _ _ _ _ _ Hpost),
    (post_df_geography _ _ _ _ _ Hpost), (post_df_payment _ _ _ _ _ Hpost),
    (post_df_amount _ _ _ _ _ Hpost), (post_df_score _ _ _ _ _ Hpost),
    (post_df_status _ _ _ _ _ Hpost), (post_df_code _ _ _ _ _ Hpost),
    (post_df_retryable _ _ _ _ _ Hpost), (post_df_recovered _ _ _ _ _ Hpost),
    (post_df_recoverable _ _ _ _ _ Hpost), (post_df_weekend _ _ _ _ _ Hpost),
    (post_df_hour _ _ _ _ _ Hpost), (post_df_dow _ _ _ _ _ Hpost),
    (post_df_month _ _ _ _ _ Hpost), (post_df_year _ _ _ _ _ Hpost).
  rewrite !length_map, length_seq.
  split_and!; auto.
  - exact (post_ids_len _ _ _ _ _ Hpost).
  - exact (post_cats_len _ _ _ _ _ Hpost).
  - exact (post_geos_len _ _ _ _ _ Hpost).
  - exact (currency_length N gl Hpost).
  - exact (post_pm_len _ _ _ _ _ Hpost).
  - exact (amounts_length np_log np_exp np_sum N gl Hpost).
  - exact (risk_score_length N gl Hpost).
  - exact (is_failed_length np_log np_exp np_sum N gl Hpost).
  - exact (failure_codes_length np_log np_exp np_sum N gl Hpost).
  - exact (retryable_length N gl Hpost).
  - exact (recovered_length N gl Hpost).
  - exact (recoverable_length N gl Hpost).
Qed.

(** X4: the three dimension columns hold keys of their tables, which is
    why no later dictionary access raises [KeyError]. *)
Theorem dimensions_are_table_keys seed N gl i :
  run np_log np_exp np_sum seed N = inr gl -> (i < N)%nat ->
  exists mc g pm,
    merchant_category (df gl) !! i = Some mc /\ In mc (dict_keys MERCHANT_CATEGORIES) /\
    geography_ (df gl) !! i = Some g /\ In g (dict_keys GEOGRAPHIES) /\
    payment_method (df gl) !! i = Some pm /\ In pm (dict_keys PAYMENT_METHODS).
Proof.
  intros Hrun Hi. apply run_inr in Hrun as Hpost.
  rewrite (post_df_category _ _ _ _ _ Hpost), (post_df_geography _ _ _ _ _ Hpost),
    (post_df_payment _ _ _ _ _ Hpost).
  destruct (lookup_lt_is_Some_2 (merchant_cats gl) i) as (mc & Hmc).
  { rewrite (post_cats_len _ _ _ _ _ Hpost). exact Hi. }
  destruct (lookup_lt_is_Some_2 (geos gl) i) as (g & Hg).
  { rewrite (post_geos_len _ _ _ _ _ Hpost). exact Hi. }
  destruct (lookup_lt_is_Some_2 (pay_methods gl) i) as (pm & Hpm).
  { rewrite (post_pm_len _ _ _ _ _ Hpost). exact Hi. }
  exists mc, g, pm. split_and!; auto.
  - exact (Forall_lookup_1 _ _ _ _ (post_cats_in _ _ _ _ _ Hpost) Hmc).
  - exact (Forall_lookup_1 _ _ _ _ (post_geos_in _ _ _ _ _ Hpost) Hg).
  - exact (Forall_lookup_1 _ _ _ _ (post_pm_in _ _ _ _ _ Hpost) Hpm).
Qed.

(** X5: the currency of a row is the one stored for its geography. *)
Theorem currency_follows_geography seed N gl i :
  run np_log np_exp np_sum seed N = inr gl -> (i < N)%nat ->
  exists g c,
    geography_ (df gl) !! i = Some g /\
    dict_lookup GEOGRAPHIES g = Some c /\
    currency (df gl) !! i = Some (geo_currency c).
Proof.
  intros Hrun Hi. apply run_inr in Hrun as Hpost.
  rewrite (post_df_geography _ _ _ _ _ Hpost).
  destruct (lookup_lt_is_Some_2 (geos gl) i) as (g & Hg).
  { rewrite (post_geos_len _ _ _ _ _ Hpost). exact Hi. }
  pose proof (mapE_inr _ _ _ (post_df_currency _ _ _ _ _ Hpost)) as HF.
  destruct (Forall2_lookup_l _ _ _ _ _ HF Hg) as (cur & Hcur & Ecur).
  apply lookup_field in Ecur as (c & Hc & ->).
  exists g, c. auto.
Qed.

(** X6: the merchant of a row is one of the 5000 identifiers
    [MID_00000] .. [MID_04999]. *)
Theorem merchant_id_in_population seed N gl i :
  run np_log np_exp np_sum seed N = inr gl -> (i < N)%nat ->
  exists k,
    (k < n_merchants)%nat /\ merchant_id (df gl) !! i = Some (fmt_id "MID_" 5 k).
Proof.
  intros Hrun Hi. apply run_inr in Hrun as Hpost.
  rewrite (post_df_merchant_id _ _ _ _ _ Hpost).
  destruct (lookup_lt_is_Some_2 (merchant_ids gl) i) as (m & Hm).
  { rewrite (post_ids_len _ _ _ _ _ Hpost). exact Hi. }
  pose proof (Forall_lookup_1 _ _ _ _ (post_ids_in _ _ _ _ _ Hpost) Hm) as Hin.
  apply in_map_iff in Hin as (k & <- & Hk). apply in_seq in Hk.
  exists k. split; [lia | exact Hm].
Qed.

(** The raw risk of a row, by the entries of the three tables and the
    amount of the row. *)
Lemma raw_risk_of_row seed N gl i :
  run np_log np_exp np_sum seed N = inr gl -> (i < N)%nat ->
  exists mc g pm cm cg cp a,
    merchant_category (df gl) !! i = Some mc /\
    dict_lookup MERCHANT_CATEGORIES mc = Some cm /\
    geography_ (df gl) !! i = Some g /\ dict_lookup GEOGRAPHIES g = Some cg /\
    payment_method (df gl) !! i = Some pm /\ dict_lookup PAYMENT_METHODS pm = Some cp /\
    amount_usd (df gl) !! i = Some a /\
    raw_risk gl !! i
      = Some (add (mul (mul (fail_base cm) (geo_fail_mult cg)) (pm_fail_mult cp))
                  (amount_risk a)).
Proof.
  intros Hrun Hi. apply run_inr in Hrun as Hpost.
  rewrite (post_df_category _ _ _ _ _ Hpost), (post_df_geography _ _ _ _ _ Hpost),
    (post_df_payment _ _ _ _ _ Hpost), (post_df_amount _ _ _ _ _ Hpost).
  destruct (lookup_lt_is_Some_2 (merchant_cats gl) i) as (mc & Hmc).
  { rewrite (post_cats_len _ _ _ _ _ Hpost). exact Hi. }
  destruct (lookup_lt_is_Some_2 (geos gl) i) as (g & Hg).
  { rewrite (post_geos_len _ _ _ _ _ Hpost). exact Hi. }
  destruct (lookup_lt_is_Some_2 (pay_methods gl) i) as (pm & Hpm).
  { rewrite (post_pm_len _ _ _ _ _ Hpost). exact Hi. }
  destruct (lookup_lt_is_Some_2 (amounts gl) i) as (a & Ha).
  { rewrite (amounts_length np_log np_exp np_sum N gl Hpost). exact Hi. }
  destruct (post_raw_risk _ _ _ _ _ Hpost) as (mb & gm & pmm & Hmb & Hgm & Hpmm & Hraw).
  destruct (Forall2_lookup_l _ _ _ _ _ Hmb Hmc) as (b1 & Hb1 & cm & Hcm & ->).
  destruct (Forall2_lookup_l _ _ _ _ _ Hgm Hg) as (b2 & Hb2 & cg & Hcg & ->).
  destruct (Forall2_lookup_l _ _ _ _ _ Hpmm Hpm) as (b3 & Hb3 & cp & Hcp & ->).
  exists mc, g, pm, cm, cg, cp, a. split_and!; auto.
  rewrite Hraw, !lookup_zip_with, Hb1, Hb2, Hb3, list_lookup_fmap, Ha. reflexivity.
Qed.

(** X8: the minimum and the maximum used by the normalisation are raw
    risks of rows of the batch. *)
Theorem risk_extremes_are_attained seed N gl :
  run np_log np_exp np_sum seed N = inr gl ->
  In (risk_min gl) (raw_risk gl) /\ In (risk_max gl) (raw_risk gl).
Proof.
  intros Hrun. apply run_inr in Hrun as Hpost.
  pose proof (post_min _ _ _ _ _ Hpost) as Hmin.
  pose proof (post_max _ _ _ _ _ Hpost) as Hmax.
  destruct (raw_risk gl) as [| r0 rs]; [discriminate |].
  simpl in Hmin, Hmax. injection Hmin as <-. injection Hmax as <-.
  split; [apply fold_minimum_In | apply fold_maximum_In].
Qed.

(** X9: [failed_idx] lists exactly the rows whose status is "failed", in
    increasing order, and its length is the failure count of the summary. *)
Theorem failed_idx_lists_failed_rows seed N gl :
  run np_log np_exp np_sum seed N = inr gl ->
  (forall i, i ∈ failed_idx gl <-> status (df gl) !! i = Some "failed") /\
  (forall j1 j2 i1 i2, (j1 < j2)%nat ->
     failed_idx gl !! j1 = Some i1 -> failed_idx gl !! j2 = Some i2 -> (i1 < i2)%nat) /\
  Z.of_nat (length (failed_idx gl)) = n_failed_total gl.
Proof.
  intros Hrun. apply run_inr in Hrun as Hpost.
  rewrite (post_failed_idx _ _ _ _ _ Hpost), (post_df_status _ _ _ _ _ Hpost).
  split_and!.
  - intros i. rewrite np_where_spec, list_lookup_fmap.
    destruct (is_failed gl !! i) as [[] |]; simpl; split; congruence.
  - intros j1 j2 i1 i2. apply where_from_increasing.
  - apply where_from_length.
Qed.

(** X10: on a failed row the retryable flag is the entry of
    [retryable_mask] at the row's rank among the failed rows, and the code
    comes from the list the mask selects; any other row has flag 0. *)
Theorem retryable_mask_decides_flag seed N gl i :
  run np_log np_exp np_sum seed N = inr gl -> (i < N)%nat ->
  exists st flag,
    status (df gl) !! i = Some st /\
    is_retryable (df gl) !! i = Some (astype_int flag) /\
    (st = "success" -> flag = false) /\
    (st = "failed" ->
       exists j c,
         failed_idx gl !! j = Some i /\ retryable_mask gl !! j = Some flag /\
         failure_code (df gl) !! i = Some c /\
         (if flag then In c RETRY_CODES else In c NON_RETRY_CODES)).
Proof.
  intros Hrun Hi. apply run_inr in Hrun as Hpost.
  rewrite (post_df_status _ _ _ _ _ Hpost), (post_df_retryable _ _ _ _ _ Hpost),
    (post_df_code _ _ _ _ _ Hpost).
  destruct (lookup_lt_is_Some_2 (is_failed gl) i) as (b & Hb).
  { rewrite (is_failed_length np_log np_exp np_sum N gl Hpost). exact Hi. }
  rewrite !list_lookup_fmap, Hb. destruct b; simpl.
  - destruct (retryable_of_failed_row N gl Hpost i Hb) as (j & m & c & Hj & Hm & Hc & Hcls & Hr).
    exists "failed", m. rewrite Hr. split_and!; auto; [discriminate |].
    intros _. exists j, c. auto.
  - rewrite (retryable_of_success_row N gl Hpost i Hb).
    exists "success", false. split_and!; auto. discriminate.
Qed.

(** X11: [is_recoverable] is 1 exactly on the retryable rows whose retry
    did not recover. *)
Theorem recoverable_is_retryable_and_not_recovered seed N gl i :
  run np_log np_exp np_sum seed N = inr gl -> (i < N)%nat ->
  exists retr rec,
    is_retryable (df gl) !! i = Some (astype_int retr) /\
    retry_recovered (df gl) !! i = Some (astype_int rec) /\
    is_recoverable (df gl) !! i = Some (astype_int (retr && negb rec)).
Proof.
  intros Hrun Hi. apply run_inr in Hrun as Hpost.
  destruct (lookup_lt_is_Some_2 (is_failed gl) i) as (b & Hb).
  { rewrite (is_failed_length np_log np_exp np_sum N gl Hpost). exact Hi. }
  destruct (lookup_lt_is_Some_2 (retryable gl) i) as (r & Hr).
  { rewrite (retryable_length N gl Hpost). exact Hi. }
  destruct (lookup_lt_is_Some_2 (recovered gl) i) as (v & Hv).
  { rewrite (recovered_length N gl Hpost). exact Hi. }
  exists r, v.
  rewrite (post_df_retryable _ _ _ _ _ Hpost), (post_df_recovered _ _ _ _ _ Hpost),
    (post_df_recoverable _ _ _ _ _ Hpost), (post_recoverable _ _ _ _ _ Hpost).
  rewrite !list_lookup_fmap, !lookup_zip_with, list_lookup_fmap, Hr, Hv, Hb. simpl.
  split_and!; auto. do 2 f_equal.
  destruct b; [apply andb_true_r |].
  rewrite (retryable_of_success_row N gl Hpost i Hb) in Hr. injection Hr as <-. reflexivity.
Qed.

(** X12: every row visited by the recovery loop carries a code that has
    an entry in [RETRY_RECOVERY]: the default rate 0.50 is never used. *)
Theorem recovery_rate_default_unused seed N gl :
  run np_log np_exp np_sum seed N = inr gl ->
  Forall (fun idx =>
            exists c rate,
              failure_codes gl !! idx = Some c /\ In c RETRY_CODES /\
              dict_lookup RETRY_RECOVERY c = Some rate /\
              dict_get RETRY_RECOVERY c (lit 50 2) = rate)
         (boolean_index (failed_idx gl) (retryable_mask gl)).
Proof.
  intros Hrun. apply run_inr in Hrun as Hpost.
  apply Forall_forall. intros idx Hidx.
  apply boolean_index_spec in Hidx as (j & Hj & Hm).
  assert (Hfail : is_failed gl !! idx = Some true).
  { apply np_where_spec. rewrite <- (post_failed_idx _ _ _ _ _ Hpost).
    eapply list_elem_of_lookup_2; eauto. }
  destruct (retryable_of_failed_row N gl Hpost idx Hfail)
    as (j' & m & c & Hj' & Hm' & Hc & Hcls & _).
  assert (Hnd : NoDup (failed_idx gl)).
  { rewrite (post_failed_idx _ _ _ _ _ Hpost). apply np_where_NoDup. }
  pose proof (NoDup_lookup _ _ _ _ Hnd Hj' Hj) as ->.
  assert (m = true) as -> by congruence.
  destruct (retry_recovery_entries c Hcls) as (rate & Hrate & Hget).
  exists c, rate. auto.
Qed.

(** X13: the three counts of the summary are ordered,
    [0 <= n_recoverable <= n_retryable <= n_failed_total <= N], and the
    recovery loop runs once per retryable row. *)
Theorem summary_counts_ordered seed N gl :
  run np_log np_exp np_sum seed N = inr gl ->
  0 <= n_recoverable gl <= n_retryable gl /\
  n_retryable gl <= n_failed_total gl <= Z.of_nat N /\
  n_retryable gl
    = Z.of_nat (length (boolean_index (failed_idx gl) (retryable_mask gl))).
Proof.
  intros Hrun. apply run_inr in Hrun as Hpost.
  pose proof (is_failed_length np_log np_exp np_sum N gl Hpost) as Hlf.
  pose proof (retryable_length N gl Hpost) as Hlr.
  pose proof (recoverable_length N gl Hpost) as Hlv.
  unfold n_recoverable, n_retryable, n_failed_total.
  assert (Hle1 : bool_sum (recoverable gl) <= bool_sum (retryable gl)).
  { apply bool_sum_le. apply Forall2_same_length_lookup_2; [lia |].
    intros i x y Hx Hy. rewrite (post_recoverable _ _ _ _ _ Hpost) in Hx.
    rewrite !lookup_zip_with, Hy in Hx. simpl in Hx.
    destruct (map negb (recovered gl) !! i) as [nv |]; simpl in Hx; [| discriminate].
    destruct (is_failed gl !! i) as [b |]; simpl in Hx; [| discriminate].
    injection Hx as <-. intros Ht.
    apply andb_prop in Ht as [Ht _]. apply andb_prop in Ht as [Ht _]. exact Ht. }
  assert (Hle2 : bool_sum (retryable gl) <= bool_sum (is_failed gl)).
  { apply bool_sum_le. apply Forall2_same_length_lookup_2; [lia |].
    intros i x y Hx Hy ->. destruct y; [reflexivity |].
    rewrite (retryable_of_success_row N gl Hpost i Hy) in Hx. discriminate. }
  pose proof (bool_sum_bounds (recoverable gl)) as Hlo.
  pose proof (bool_sum_bounds (is_failed gl)) as Hhi. rewrite Hlf in Hhi.
  split_and!; try lia.
  exact (retryable_count N gl Hpost).
Qed.

End Further.

(** ** Calendar columns *)

(** Day by day over the window: the civil date is in the second half of
    2023 or in 2024, it is a valid date, and it converts back to the day. *)
Definition civil_ok (k : nat) : bool :=
  let day := start_ts / 86400 + Z.of_nat k in
  let '(y, m, d) := Calendar.civil_from_days day in
  (((y =? 2023) && (7 <=? m)) || (y =? 2024))
  && (1 <=? m) && (m <=? 12) && (1 <=? d) && (d <=? 31)
  && (Calendar.days_from_civil y m d =? day).

Lemma window_days_civil : forallb civil_ok (seq 0 549) = true.
Proof. vm_compute. reflexivity. Qed.

Lemma window_day s :
  0 <= s < end_ts - start_ts ->
  (start_ts + s) / 86400 = start_ts / 86400 + Z.of_nat (Z.to_nat (s / 86400)) /\
  In (Z.to_nat (s / 86400)) (seq 0 549).
Proof.
  rewrite window_seconds. intros Hs. split.
  - change start_ts with (19539 * 86400).
    rewrite Z.add_comm, Z.div_add by lia. rewrite Z.div_mul by lia.
    rewrite Z2Nat.id by (apply Z.div_pos; lia). lia.
  - apply in_seq. split; [lia |].
    assert (s / 86400 < 549) by (apply Z.div_lt_upper_bound; lia). lia.
Qed.

Lemma window_civil s :
  0 <= s < end_ts - start_ts ->
  let '(y, m, d) := Calendar.date (start_ts + s) in
  ((y = 2023 /\ 7 <= m) \/ y = 2024) /\ 1 <= m <= 12 /\ 1 <= d <= 31 /\
  Calendar.Timestamp y m d + (start_ts + s) mod 86400 = start_ts + s.
Proof.
  intros Hs. destruct (window_day s Hs) as [Hday Hin].
  unfold Calendar.date, Calendar.Timestamp.
  pose proof window_days_civil as Hall. rewrite forallb_forall in Hall.
  specialize (Hall _ Hin). unfold civil_ok in Hall. cbv zeta in Hall.
  rewrite <- Hday in Hall.
  destruct (Calendar.civil_from_days ((start_ts + s) / 86400)) as [[y m] d].
  repeat (apply andb_prop in Hall as [Hall ?]).
  assert (Hy : (y = 2023 /\ 7 <= m) \/ y = 2024).
  { apply orb_prop in Hall as [Hall | Hall]; [left | right; lia].
    apply andb_prop in Hall as [? ?]. lia. }
  split_and!; try lia.
  assert (Hrt : Calendar.days_from_civil y m d = (start_ts + s) / 86400) by lia.
  rewrite Hrt. pose proof (Z.div_mod (start_ts + s) 86400 ltac:(lia)). lia.
Qed.

Lemma hour_bounds t :
  0 <= Calendar.hour t <= 23 /\
  3600 * Calendar.hour t <= t mod 86400 < 3600 * (Calendar.hour t + 1).
Proof.
  unfold Calendar.hour. pose proof (Z.mod_pos_bound t 86400 ltac:(lia)) as Hr.
  pose proof (Z.div_mod (t mod 86400) 3600 ltac:(lia)) as Hd.
  pose proof (Z.mod_pos_bound (t mod 86400) 3600 ltac:(lia)) as Hm.
  assert (0 <= t mod 86400 / 3600) by (apply Z.div_pos; lia).
  assert (t mod 86400 / 3600 < 24) by (apply Z.div_lt_upper_bound; lia).
  lia.
Qed.

(** 2023-07-01 was a Saturday. *)
Lemma dayofweek_from_start s :
  0 <= s ->
  Calendar.dayofweek (start_ts + s) = (5 + s / 86400) mod 7.
Proof.
  intros Hs. unfold Calendar.dayofweek. change start_ts with (19539 * 86400).
  replace (19539 * 86400 + s) with (s + 19539 * 86400) by lia.
  rewrite Z.div_add by lia.
  replace (s / 86400 + 19539 + 3) with (5 + s / 86400 + 2791 * 7) by lia.
  apply Z_mod_plus_full.
Qed.

Section CalendarColumns.

Context {G : Type} `{GeneratorLaws G}.
Variable np_log np_exp : float -> float.
Variable np_sum : list float -> float.

Lemma timestamp_of_row N gl i :
  script_post np_log np_exp np_sum N gl -> (i < N)%nat ->
  exists s, 0 <= s < end_ts - start_ts /\ timestamps gl !! i = Some (start_ts + s).
Proof.
  intros Hpost Hi.
  destruct (lookup_lt_is_Some_2 (raw_seconds gl) i) as (s & Hs).
  { rewrite (post_raw_len _ _ _ _ _ Hpost). exact Hi. }
  exists s. split.
  - exact (Forall_lookup_1 _ _ _ _ (post_raw_range _ _ _ _ _ Hpost) Hs).
  - rewrite (post_timestamps _ _ _ _ _ Hpost), list_lookup_fmap, Hs. reflexivity.
Qed.

(** X14: [year] and [month] are the civil year and month of the row's
    timestamp: a month of July to December 2023 or of 2024, and midnight
    of that date plus the seconds of the day gives the timestamp back. *)
Theorem year_month_decompose_timestamp seed N gl i :
  run np_log np_exp np_sum seed N = inr gl -> (i < N)%nat ->
  exists t y m d,
    timestamp (df gl) !! i = Some t /\ Calendar.date t = (y, m, d) /\
    year (df gl) !! i = Some y /\ month (df gl) !! i = Some m /\
    ((y = 2023 /\ 7 <= m) \/ y = 2024) /\ 1 <= m <= 12 /\ 1 <= d <= 31 /\
    Calendar.Timestamp y m d + t mod 86400 = t.
Proof.
  intros Hrun Hi. apply run_inr in Hrun as Hpost.
  destruct (timestamp_of_row N gl i Hpost Hi) as (s & Hs & Ht).
  pose proof (window_civil s Hs) as Hc.
  rewrite (post_df_timestamp _ _ _ _ _ Hpost), (post_df_year _ _ _ _ _ Hpost),
    (post_df_month _ _ _ _ _ Hpost), !list_lookup_fmap, Ht. simpl.
  unfold Calendar.year, Calendar.month.
  destruct (Calendar.date (start_ts + s)) as [[y m] d] eqn:Ed.
  exists (start_ts + s), y, m, d. rewrite Ed. simpl. tauto.
Qed.

(** X15: [hour_of_day] is the hour 0..23 that contains the timestamp,
    [day_of_week] counts days from the Saturday the window starts on
    (Monday = 0), and [is_weekend] is 1 exactly on days 5 and 6. *)
Theorem hour_and_weekday_columns seed N gl i :
  run np_log np_exp np_sum seed N = inr gl -> (i < N)%nat ->
  exists t h dw,
    timestamp (df gl) !! i = Some t /\
    hour_of_day (df gl) !! i = Some h /\ day_of_week (df gl) !! i = Some dw /\
    is_weekend (df gl) !! i = Some (astype_int (5 <=? dw)) /\
    0 <= h <= 23 /\ 3600 * h <= t mod 86400 < 3600 * (h + 1) /\
    0 <= dw <= 6 /\ dw = (5 + (t - start_ts) / 86400) mod 7.
Proof.
  intros Hrun Hi. apply run_inr in Hrun as Hpost.
  destruct (timestamp_of_row N gl i Hpost Hi) as (s & Hs & Ht).
  rewrite (post_df_weekend _ _ _ _ _ Hpost).
  rewrite (post_df_timestamp _ _ _ _ _ Hpost), (post_df_hour _ _ _ _ _ Hpost),
    (post_df_dow _ _ _ _ _ Hpost), !list_lookup_fmap, Ht. simpl.
  exists (start_ts + s), (Calendar.hour (start_ts + s)), (Calendar.dayofweek (start_ts + s)).
  pose proof (hour_bounds (start_ts + s)) as [Hh1 Hh2].
  pose proof (dayofweek_from_start s ltac:(lia)) as Hdw.
  pose proof (Z.mod_pos_bound (5 + s / 86400) 7 ltac:(lia)) as Hb.
  replace (start_ts + s - start_ts) with s by lia.
  rewrite Hdw in *. split_and!; auto; try lia.
  do 2 f_equal.
  destruct (Z.leb_spec 5 ((5 + s / 86400) mod 7));
    destruct (Z.eqb_spec ((5 + s / 86400) mod 7) 5);
    destruct (Z.eqb_spec ((5 + s / 86400) mod 7) 6); simpl; auto; lia.
Qed.

End CalendarColumns.

(** ** Identifiers *)

Lemma append_inj_l (p s t : string) : (p ++ s = p ++ t)%string -> s = t.
Proof. induction p as [| a p IH]; simpl; [auto |]. intros [= E]. auto. Qed.

Lemma length_append (s t : string) :
  String.length (s ++ t)%string = (String.length s + String.length t)%nat.
Proof. induction s as [| a s IH]; simpl; [reflexivity | rewrite IH; reflexivity]. Qed.

Lemma concat_zeros_S k :
  String.concat "" (repeat "0" (S k)) = String "0" (String.concat "" (repeat "0" k)).
Proof. destruct k; reflexivity. Qed.

Lemma length_concat_zeros k : String.length (String.concat "" (repeat "0" k)) = k.
Proof.
  induction k as [| k IH]; [reflexivity |].
  rewrite concat_zeros_S. simpl. rewrite IH. reflexivity.
Qed.

Lemma uint_of_zeros k s :
  NilEmpty.uint_of_string (String.concat "" (repeat "0" k) ++ s)%string
  = option_map (Nat.iter k Decimal.D0) (NilEmpty.uint_of_string s).
Proof.
  induction k as [| k IH].
  - change (String.concat "" (repeat "0" 0) ++ s)%string with s.
    destruct (NilEmpty.uint_of_string s); reflexivity.
  - rewrite concat_zeros_S.
    change (String "0" (String.concat "" (repeat "0" k)) ++ s)%string
      with (String "0" (String.concat "" (repeat "0" k) ++ s)).
    change (NilEmpty.uint_of_string (String "0" (String.concat "" (repeat "0" k) ++ s)))
      with (uint_of_char "0" (NilEmpty.uint_of_string (String.concat "" (repeat "0" k) ++ s))).
    rewrite IH. destruct (NilEmpty.uint_of_string s); reflexivity.
Qed.

Lemma of_uint_zeros k d : Nat.of_uint (Nat.iter k Decimal.D0 d) = Nat.of_uint d.
Proof. induction k as [| k IH]; [reflexivity |]. simpl Nat.iter. exact IH. Qed.

(** The digits of an identifier spell the number it was built from. *)
Lemma fmt_id_digits prefix w i :
  exists ds d,
    fmt_id prefix w i = (prefix ++ ds)%string /\
    NilEmpty.uint_of_string ds = Some d /\ Nat.of_uint d = i /\
    (w <= String.length ds)%nat.
Proof.
  unfold fmt_id, zfill.
  set (s := NilEmpty.string_of_uint (Nat.to_uint i)).
  exists (String.concat "" (repeat "0" (w - String.length s)) ++ s)%string,
         (Nat.iter (w - String.length s) Decimal.D0 (Nat.to_uint i)).
  split_and!.
  - reflexivity.
  - rewrite uint_of_zeros. unfold s. rewrite NilEmpty.usu. reflexivity.
  - rewrite of_uint_zeros. apply DecimalNat.Unsigned.of_to.
  - rewrite length_append, length_concat_zeros. lia.
Qed.

Lemma fmt_id_inj prefix w i j : fmt_id prefix w i = fmt_id prefix w j -> i = j.
Proof.
  destruct (fmt_id_digits prefix w i) as (ds1 & d1 & -> & Hu1 & <- & _).
  destruct (fmt_id_digits prefix w j) as (ds2 & d2 & -> & Hu2 & <- & _).
  intros E. apply append_inj_l in E. subst ds2. congruence.
Qed.

Lemma fmt_id_examples :
  fmt_id "TXN_" 7 42 = "TXN_0000042" /\ fmt_id "MID_" 5 4999 = "MID_04999" /\
  fmt_id "MID_" 5 0 = "MID_00000".
Proof. vm_compute. auto. Qed.

Section Identifiers.

Context {G : Type} `{GeneratorLaws G}.
Variable np_log np_exp : float -> float.
Variable np_sum : list float -> float.

(** X16: [transaction_id] is a key of the table: the identifier of row
    [i] is "TXN_" followed by at least seven digits that spell [i], and no
    two rows share an identifier. *)
Theorem transaction_ids_identify_rows seed N gl :
  run np_log np_exp np_sum seed N = inr gl ->
  NoDup (transaction_id (df gl)) /\
  forall i, (i < N)%nat ->
    exists ds d,
      transaction_id (df gl) !! i = Some ("TXN_" ++ ds)%string /\
      NilEmpty.uint_of_string ds = Some d /\ Nat.of_uint d = i /\
      (7 <= String.length ds)%nat.
Proof.
  intros Hrun. apply run_inr in Hrun as Hpost.
  rewrite (post_df_transaction_id _ _ _ _ _ Hpost). split.
  - assert (Hinj : Inj (=) (=) (fmt_id "TXN_" 7)) by (intros i j; apply fmt_id_inj).
    apply (NoDup_fmap_2 (fmt_id "TXN_" 7)). apply NoDup_seq.
  - intros i Hi.
    destruct (fmt_id_digits "TXN_" 7 i) as (ds & d & E & Hu & Hd & Hl).
    exists ds, d. split_and!; auto.
    rewrite list_lookup_fmap, lookup_seq_lt by exact Hi. simpl. f_equal. exact E.
Qed.

End Identifiers.

(** ** Clipped quantities *)

Lemma binary_round_aux_not_nan sx mx ex lx :
  0 <= mx -> is_nan (binary_round_aux prec emax sx mx ex lx) = false.
Proof.
  intros Hm.
  destruct (RoundAux.binary_round_aux_spec sx mx ex lx Hm)
    as (m1 & e1 & m2 & m3 & e3 & Hr & ->).
  apply Values.pack_not_nan. exact (proj1 (Bounds.rounds_digits _ _ _ _ _ _ _ _ Hr Hm)).
Qed.

Lemma binary_normalize_not_nan m e sz :
  is_nan (binary_normalize prec emax m e sz) = false.
Proof.
  destruct m as [| p | p]; simpl; [reflexivity | |];
    destruct (Values.binary_round_aligned false p e) as (mz & ez & E & _);
    destruct (Values.binary_round_aligned true p e) as (mz' & ez' & E' & _);
    rewrite ?E, ?E'; apply binary_round_aux_not_nan; lia.
Qed.

(** Subtracting a finite double, or dividing by one, does not produce a
    NaN from a number. *)
Lemma sub_finite_not_nan x s m e :
  is_nan x = false -> is_nan (sub x (S754_finite s m e)) = false.
Proof.
  intros Hx. unfold sub, SFsub. destruct x as [sx | sx | | sx mx ex]; try discriminate Hx;
    try reflexivity.
  apply binary_normalize_not_nan.
Qed.

Lemma div_finite_not_nan x s m e :
  is_nan x = false -> is_nan (div x (S754_finite s m e)) = false.
Proof.
  intros Hx. unfold div, SFdiv. destruct x as [sx | sx | | sx mx ex]; try discriminate Hx;
    try reflexivity.
  destruct (Division.div_core_spec (Zpos mx) ex (Zpos m) e) as (l & Hcore & _); try lia.
  rewrite Hcore. apply binary_round_aux_not_nan.
  apply Z.div_pos; [| lia]. apply Z.mul_nonneg_nonneg; [lia |].
  apply Z.pow_nonneg. lia.
Qed.

(** [np.clip] on a number: the result is between the bounds. *)
Lemma np_clip_between x lo hi :
  is_nan x = false ->
  leb lo lo = true -> leb hi hi = true -> leb lo hi = true ->
  leb lo (np_clip x lo hi) = true /\ leb (np_clip x lo hi) hi = true.
Proof.
  intros Hn Hlo Hhi Hlh. unfold np_clip, npy_max, npy_min. rewrite Hn.
  destruct (gtb x lo) eqn:Hg.
  - rewrite Hn. destruct (ltb x hi) eqn:Hl.
    + split; [apply Decimals.ltb_leb; exact Hg | apply Decimals.ltb_leb; exact Hl].
    + split; [exact Hlh | exact Hhi].
  - assert (Hnl : is_nan lo = false) by (destruct lo; [reflexivity .. | discriminate Hlo | reflexivity]).
    rewrite Hnl. destruct (ltb lo hi); split; assumption.
Qed.

Lemma np_clip_keeps_nan x lo hi : is_nan x = true -> np_clip x lo hi = x.
Proof. intros Hn. unfold np_clip, npy_max, npy_min. rewrite Hn, Hn. reflexivity. Qed.

Lemma of_Z_finite_50 : exists m e, of_Z 50 = S754_finite false m e.
Proof. vm_compute. eauto. Qed.

Lemma of_Z_finite_1000 : exists m e, of_Z 1000 = S754_finite false m e.
Proof. vm_compute. eauto. Qed.

Lemma amount_risk_bounds_ok :
  leb (of_Z 0) (of_Z 0) = true /\ leb (lit 12 2) (lit 12 2) = true /\
  leb (of_Z 0) (lit 12 2) = true.
Proof. vm_compute. auto. Qed.

Lemma fail_prob_bounds_ok :
  leb (lit 2 2) (lit 2 2) = true /\ leb (lit 90 2) (lit 90 2) = true /\
  leb (lit 2 2) (lit 90 2) = true.
Proof. vm_compute. auto. Qed.

Lemma amount_risk_range a :
  is_nan a = false ->
  leb (of_Z 0) (amount_risk a) = true /\ leb (amount_risk a) (lit 12 2) = true.
Proof.
  intros Ha. unfold amount_risk.
  destruct of_Z_finite_50 as (m1 & e1 & ->). destruct of_Z_finite_1000 as (m2 & e2 & ->).
  destruct amount_risk_bounds_ok as (H1 & H2 & H3).
  apply np_clip_between; auto.
  apply div_finite_not_nan, sub_finite_not_nan. exact Ha.
Qed.


(** Products and sums of numbers: no NaN from a finite factor or term. *)
Lemma mul_finite_not_nan x s m e :
  is_nan x = false -> is_nan (mul x (S754_finite s m e)) = false.
Proof.
  intros Hx. unfold mul, SFmul. destruct x as [sx | sx | | sx mx ex]; try discriminate Hx;
    try reflexivity.
  apply binary_round_aux_not_nan. lia.
Qed.

Lemma add_finite_not_nan x y :
  is_nan x = false -> is_finite y = true -> is_nan (add x y) = false.
Proof.
  intros Hx Hy. unfold add, SFadd.
  destruct x as [sx | sx | | sx mx ex]; try discriminate Hx;
    destruct y as [sy | sy | | sy my ey]; try discriminate Hy; try reflexivity.
  - destruct sx, sy; reflexivity.
  - apply binary_normalize_not_nan.
Qed.

Lemma lit_12_2_finite : exists m e, lit 12 2 = S754_finite false m e.
Proof. vm_compute. eauto. Qed.

Lemma amount_risk_finite a : is_nan a = false -> is_finite (amount_risk a) = true.
Proof.
  intros Ha. destruct (amount_risk_range a Ha) as [Hlo Hhi].
  destruct lit_12_2_finite as (m & e & E). rewrite E in Hhi.
  rewrite Operations.of_Z_0 in Hlo.
  destruct (amount_risk a) as [s | [] | | s m' e']; try reflexivity; try discriminate.
Qed.

Lemma dict_lookup_In {V} (d : list (string * V)) k v :
  dict_lookup d k = Some v -> In (k, v) d.
Proof.
  induction d as [| [k' v'] d IH]; simpl; [discriminate |].
  destruct (String.eqb k' k) eqn:E.
  - apply String.eqb_eq in E. intros [= <-]. left. congruence.
  - intros Hd. right. exact (IH Hd).
Qed.

Lemma fail_base_finite mc c :
  dict_lookup MERCHANT_CATEGORIES mc = Some c -> exists m e, fail_base c = S754_finite false m e.
Proof.
  intros Hc. apply dict_lookup_In in Hc. vm_compute in Hc.
  repeat (destruct Hc as [[= <- <-] | Hc]; [vm_compute; eauto |]). destruct Hc.
Qed.

Lemma geo_fail_mult_finite g c :
  dict_lookup GEOGRAPHIES g = Some c -> exists m e, geo_fail_mult c = S754_finite false m e.
Proof.
  intros Hc. apply dict_lookup_In in Hc. vm_compute in Hc.
  repeat (destruct Hc as [[= <- <-] | Hc]; [vm_compute; eauto |]). destruct Hc.
Qed.

Lemma pm_fail_mult_finite pm c :
  dict_lookup PAYMENT_METHODS pm = Some c -> exists m e, pm_fail_mult c = S754_finite false m e.
Proof.
  intros Hc. apply dict_lookup_In in Hc. vm_compute in Hc.
  repeat (destruct Hc as [[= <- <-] | Hc]; [vm_compute; eauto |]). destruct Hc.
Qed.

Section Clipped.

Context {G : Type} `{GeneratorLaws G}.
Variable np_log np_exp : float -> float.
Variable np_sum : list float -> float.

(** X17: the amount term of the raw risk is never NaN and lies in
    [0, 0.12] on every row. *)
Theorem amount_risk_in_range seed N gl i :
  run np_log np_exp np_sum seed N = inr gl -> (i < N)%nat ->
  exists a,
    amount_usd (df gl) !! i = Some a /\
    leb (of_Z 0) (amount_risk a) = true /\ leb (amount_risk a) (lit 12 2) = true.
Proof.
  intros Hrun Hi. apply run_inr in Hrun as Hpost.
  destruct (amount_of_row np_log np_exp np_sum N gl Hpost i Hi)
    as (mc & c & x & a & _ & _ & _ & Hx & Ha & Heq).
  exists a. rewrite (post_df_amount _ _ _ _ _ Hpost). split; [exact Ha |].
  apply amount_risk_range.
  destruct (Decimals.py_max_one x Hx) as [Hv Hle].
  pose proof (Decimals.np_round_ge_one _ Hv Hle) as Hge. rewrite <- Heq in Hge.
  destruct a; try reflexivity. rewrite Operations.of_Z_1 in Hge. discriminate Hge.
Qed.

(** X18: the failure probability of a row is a number in [0.02, 0.90], or
    it is NaN, and then the row does not fail. *)
Theorem fail_probability_in_range_or_nan seed N gl i :
  run np_log np_exp np_sum seed N = inr gl -> (i < N)%nat ->
  exists p,
    fail_probs gl !! i = Some p /\
    ((leb (lit 2 2) p = true /\ leb p (lit 90 2) = true) \/
     (is_nan p = true /\ status (df gl) !! i = Some "success")).
Proof.
  intros Hrun Hi. apply run_inr in Hrun as Hpost.
  pose proof (is_failed_length np_log np_exp np_sum N gl Hpost) as Hlf.
  rewrite (post_is_failed _ _ _ _ _ Hpost), length_zip_with,
          (post_fail_probs _ _ _ _ _ Hpost), length_map in Hlf.
  destruct (lookup_lt_is_Some_2 (risk_score gl) i) as (s & Hs); [lia |].
  destruct (lookup_lt_is_Some_2 (outcomes gl) i) as (u & Hu); [lia |].
  exists (fail_prob np_exp s).
  rewrite (post_df_status _ _ _ _ _ Hpost), (post_is_failed _ _ _ _ _ Hpost),
          (post_fail_probs _ _ _ _ _ Hpost).
  rewrite !list_lookup_fmap, !lookup_zip_with, !list_lookup_fmap, Hs, Hu. simpl.
  split; [reflexivity |].
  unfold fail_prob.
  set (v := add (mul (sigmoid np_exp (div (sub s THRESHOLD) SIGMA)) (lit 40 2)) (lit 3 2)).
  destruct (is_nan v) eqn:Hv.
  - right. rewrite (np_clip_keeps_nan v _ _ Hv). split; [exact Hv |].
    destruct v; try discriminate Hv. destruct u as [[] | [] | | [] ? ?]; reflexivity.
  - left. destruct fail_prob_bounds_ok as (H1 & H2 & H3).
    apply np_clip_between; auto.
Qed.

(** The raw risk of a row is not NaN. *)
Lemma raw_risk_not_nan seed N gl i :
  run np_log np_exp np_sum seed N = inr gl -> (i < N)%nat ->
  exists r, raw_risk gl !! i = Some r /\ is_nan r = false.
Proof.
  intros Hrun Hi.
  destruct (raw_risk_of_row np_log np_exp np_sum seed N gl i Hrun Hi)
    as (mc & g & pm & cm & cg & cp & a & _ & Hcm & _ & Hcg & _ & Hcp & Ha & Hr).
  apply run_inr in Hrun as Hpost.
  destruct (amount_of_row np_log np_exp np_sum N gl Hpost i Hi)
    as (mc' & c' & x & a2 & _ & _ & _ & Hx & Ha2 & Heq).
  rewrite (post_df_amount _ _ _ _ _ Hpost) in Ha. rewrite Ha in Ha2. injection Ha2 as <-.
  assert (Hna : is_nan a = false).
  { destruct (Decimals.py_max_one x Hx) as [Hv Hle].
    pose proof (Decimals.np_round_ge_one _ Hv Hle) as Hge. rewrite <- Heq in Hge.
    destruct a; try reflexivity. rewrite Operations.of_Z_1 in Hge. discriminate Hge. }
  eexists. split; [exact Hr |].
  destruct (fail_base_finite _ _ Hcm) as (m1 & e1 & ->).
  destruct (geo_fail_mult_finite _ _ Hcg) as (m2 & e2 & ->).
  destruct (pm_fail_mult_finite _ _ Hcp) as (m3 & e3 & ->).
  apply add_finite_not_nan; [| apply amount_risk_finite; exact Hna].
  apply mul_finite_not_nan, mul_finite_not_nan. reflexivity.
Qed.

(** X7: the raw risk of every row is a number: the three factors are
    finite entries of the tables, the amount is at least 1.0, so its risk
    lies in [0, 0.12], and neither the products nor the sum can be NaN.
    A NaN in the scores can therefore only come from the normalisation. *)
Theorem raw_risk_is_a_number seed N gl i :
  run np_log np_exp np_sum seed N = inr gl -> (i < N)%nat ->
  exists r a,
    raw_risk gl !! i = Some r /\ amount_usd (df gl) !! i = Some a /\
    is_nan a = false /\ is_finite (amount_risk a) = true /\ is_nan r = false.
Proof.
  intros Hrun Hi.
  destruct (raw_risk_not_nan seed N gl i Hrun Hi) as (r & Hr & Hn).
  apply run_inr in Hrun as Hpost.
  destruct (amount_of_row np_log np_exp np_sum N gl Hpost i Hi)
    as (mc & c & x & a & _ & _ & _ & Hx & Ha & Heq).
  assert (Hna : is_nan a = false).
  { destruct (Decimals.py_max_one x Hx) as [Hv Hle].
    pose proof (Decimals.np_round_ge_one _ Hv Hle) as Hge. rewrite <- Heq in Hge.
    destruct a; try reflexivity. rewrite Operations.of_Z_1 in Hge. discriminate Hge. }
  exists r, a. rewrite (post_df_amount _ _ _ _ _ Hpost).
  split_and!; [exact Hr | exact Ha | exact Hna | apply amount_risk_finite; exact Hna | exact Hn].
Qed.


End Clipped.

(** ** The number of generator calls *)

Lemma dict_lookup_key {V} (d : list (string * V)) k :
  In k (dict_keys d) -> exists v, dict_lookup d k = Some v.
Proof.
  intros Hk. destruct (getitem_total d k Hk) as (v & Ev).
  exists v. apply getitem_inr. exact Ev.
Qed.

Lemma lognormal_events_length (np_log : float -> float) cats :
  Forall (fun mc => In mc (dict_keys MERCHANT_CATEGORIES)) cats ->
  length (flat_map (fun mc =>
            match dict_lookup MERCHANT_CATEGORIES mc with
            | Some c => [Lognormal (np_log (of_Z (avg_amount c))) (lit 7 1)]
            | None => []
            end) cats) = length cats.
Proof.
  induction 1 as [| mc cats Hmc _ IH]; [reflexivity |].
  cbn [flat_map]. destruct (dict_lookup_key _ _ Hmc) as (c & ->).
  rewrite length_app, IH. reflexivity.
Qed.

Section Calls.

Context {G : Type} `{GeneratorLaws G}.
Variable np_log np_exp : float -> float.
Variable np_sum : list float -> float.

(** X21: a run calls the generator [N + 11 + n_retryable] times: eleven
    array draws, one log-normal draw per row and one uniform draw per
    retryable failed row. *)
Theorem generator_call_count seed N gl log :
  traced_run np_log np_exp np_sum seed N = inr (gl, log) ->
  Z.of_nat (length log) = Z.of_nat N + 11 + n_retryable gl.
Proof.
  unfold traced_run. intros E.
  destruct (script _ _ _ _ _) as [e | [gl' [g' log']]] eqn:Es; [discriminate |].
  injection E as -> ->.
  pose proof (script_log _ _ _ _ _ _ _ Es) as Hlog. simpl in Hlog. subst log.
  apply script_inr in Es as Hpost.
  unfold n_retryable. rewrite (retryable_count np_log np_exp np_sum N gl Hpost).
  unfold draw_order. rewrite !length_app, repeat_length.
  rewrite (lognormal_events_length np_log _ (post_cats_in _ _ _ _ _ Hpost)).
  rewrite (post_cats_len _ _ _ _ _ Hpost). simpl length. lia.
Qed.

End Calls.

(** ** The further properties at the concrete generator *)

Lemma columns_have_one_entry_per_row_witness :
  exists gl,
    run (G := Z) (H := Lcg.lcg) Lcg.log Lcg.exp Lcg.sum 7 40 = inr gl /\
    (length (transaction_id (df gl)) = 40%nat /\ length (timestamp (df gl)) = 40%nat /\
    length (merchant_id (df gl)) = 40%nat /\ length (merchant_category (df gl)) = 40%nat /\
    length (geography_ (df gl)) = 40%nat /\ length (currency (df gl)) = 40%nat /\
    length (payment_method (df gl)) = 40%nat /\ length (amount_usd (df gl)) = 40%nat /\
    length (pre_auth_risk_score (df gl)) = 40%nat /\ length (status (df gl)) = 40%nat /\
    length (failure_code (df gl)) = 40%nat /\ length (is_retryable (df gl)) = 40%nat /\
    length (retry_recovered (df gl)) = 40%nat /\ length (is_recoverable (df gl)) = 40%nat /\
    length (hour_of_day (df gl)) = 40%nat /\ length (day_of_week (df gl)) = 40%nat /\
    length (is_weekend (df gl)) = 40%nat /\ length (month (df gl)) = 40%nat /\
    length (year (df gl)) = 40%nat).
Proof.
  destruct (run_total (G := Z) (H := Lcg.lcg) (H0 := LcgLaws.lcg_laws)
             Lcg.log Lcg.exp Lcg.sum 7 40 ltac:(lia)) as (gl & E).
  exists gl. split; [exact E |].
  exact (columns_have_one_entry_per_row (G := Z) (H := Lcg.lcg) (H0 := LcgLaws.lcg_laws)
           Lcg.log Lcg.exp Lcg.sum 7 40 gl E).
Defined.

Lemma dimensions_are_table_keys_witness :
  exists gl,
    run (G := Z) (H := Lcg.lcg) Lcg.log Lcg.exp Lcg.sum 7 40 = inr gl /\
    (exists mc g pm,
      merchant_category (df gl) !! 2%nat = Some mc /\ In mc (dict_keys MERCHANT_CATEGORIES) /\
      geography_ (df gl) !! 2%nat = Some g /\ In g (dict_keys GEOGRAPHIES) /\
      payment_method (df gl) !! 2%nat = Some pm /\ In pm (dict_keys PAYMENT_METHODS)).
Proof.
  destruct (run_total (G := Z) (H := Lcg.lcg) (H0 := LcgLaws.lcg_laws)
             Lcg.log Lcg.exp Lcg.sum 7 40 ltac:(lia)) as (gl & E).
  exists gl. split; [exact E |].
  exact (dimensions_are_table_keys (G := Z) (H := Lcg.lcg) (H0 := LcgLaws.lcg_laws)
           Lcg.log Lcg.exp Lcg.sum 7 40 gl 2 E ltac:(lia)).
Defined.

Lemma currency_follows_geography_witness :
  exists gl,
    run (G := Z) (H := Lcg.lcg) Lcg.log Lcg.exp Lcg.sum 7 40 = inr gl /\
    (exists g c,
      geography_ (df gl) !! 3%nat = Some g /\
      dict_lookup GEOGRAPHIES g = Some c /\
      currency (df gl) !! 3%nat = Some (geo_currency c)).
Proof.
  destruct (run_total (G := Z) (H := Lcg.lcg) (H0 := LcgLaws.lcg_laws)
             Lcg.log Lcg.exp Lcg.sum 7 40 ltac:(lia)) as (gl & E).
  exists gl. split; [exact E |].
  exact (currency_follows_geography (G := Z) (H := Lcg.lcg) (H0 := LcgLaws.lcg_laws)
           Lcg.log Lcg.exp Lcg.sum 7 40 gl 3 E ltac:(lia)).
Defined.

Lemma merchant_id_in_population_witness :
  exists gl,
    run (G := Z) (H := Lcg.lcg) Lcg.log Lcg.exp Lcg.sum 7 40 = inr gl /\
    (exists k,
      (k < n_merchants)%nat /\ merchant_id (df gl) !! 4%nat = Some (fmt_id "MID_" 5 k)).
Proof.
  destruct (run_total (G := Z) (H := Lcg.lcg) (H0 := LcgLaws.lcg_laws)
             Lcg.log Lcg.exp Lcg.sum 7 40 ltac:(lia)) as (gl & E).
  exists gl. split; [exact E |].
  exact (merchant_id_in_population (G := Z) (H := Lcg.lcg) (H0 := LcgLaws.lcg_laws)
           Lcg.log Lcg.exp Lcg.sum 7 40 gl 4 E ltac:(lia)).
Defined.

Lemma raw_risk_is_a_number_witness :
  exists gl,
    run (G := Z) (H := Lcg.lcg) Lcg.log Lcg.exp Lcg.sum 7 40 = inr gl /\
    (exists r a,
      raw_risk gl !! 5%nat = Some r /\ amount_usd (df gl) !! 5%nat = Some a /\
      is_nan a = false /\ is_finite (amount_risk a) = true /\ is_nan r = false).
Proof.
  destruct (run_total (G := Z) (H := Lcg.lcg) (H0 := LcgLaws.lcg_laws)
             Lcg.log Lcg.exp Lcg.sum 7 40 ltac:(lia)) as (gl & E).
  exists gl. split; [exact E |].
  exact (raw_risk_is_a_number (G := Z) (H := Lcg.lcg) (H0 := LcgLaws.lcg_laws)
           Lcg.log Lcg.exp Lcg.sum 7 40 gl 5 E ltac:(lia)).
Defined.

Lemma risk_extremes_are_attained_witness :
  exists gl,
    run (G := Z) (H := Lcg.lcg) Lcg.log Lcg.exp Lcg.sum 7 40 = inr gl /\
    (In (risk_min gl) (raw_risk gl) /\ In (risk_max gl) (raw_risk gl)).
Proof.
  destruct (run_total (G := Z) (H := Lcg.lcg) (H0 := LcgLaws.lcg_laws)
             Lcg.log Lcg.exp Lcg.sum 7 40 ltac:(lia)) as (gl & E).
  exists gl. split; [exact E |].
  exact (risk_extremes_are_attained (G := Z) (H := Lcg.lcg) (H0 := LcgLaws.lcg_laws)
           Lcg.log Lcg.exp Lcg.sum 7 40 gl E).
Defined.

Lemma failed_idx_lists_failed_rows_witness :
  exists gl,
    run (G := Z) (H := Lcg.lcg) Lcg.log Lcg.exp Lcg.sum 7 40 = inr gl /\
    ((forall i, i ∈ failed_idx gl <-> status (df gl) !! i = Some "failed") /\
    (forall j1 j2 i1 i2, (j1 < j2)%nat ->
       failed_idx gl !! j1 = Some i1 -> failed_idx gl !! j2 = Some i2 -> (i1 < i2)%nat) /\
    Z.of_nat (length (failed_idx gl)) = n_failed_total gl).
Proof.
  destruct (run_total (G := Z) (H := Lcg.lcg) (H0 := LcgLaws.lcg_laws)
             Lcg.log Lcg.exp Lcg.sum 7 40 ltac:(lia)) as (gl & E).
  exists gl. split; [exact E |].
  exact (failed_idx_lists_failed_rows (G := Z) (H := Lcg.lcg) (H0 := LcgLaws.lcg_laws)
           Lcg.log Lcg.exp Lcg.sum 7 40 gl E).
Defined.

Lemma retryable_mask_decides_flag_witness :
  exists gl,
    run (G := Z) (H := Lcg.lcg) Lcg.log Lcg.exp Lcg.sum 7 40 = inr gl /\
    (exists st flag,
      status (df gl) !! 1%nat = Some st /\
      is_retryable (df gl) !! 1%nat = Some (astype_int flag) /\
      (st = "success" -> flag = false) /\
      (st = "failed" ->
         exists j c,
           failed_idx gl !! j = Some 1%nat /\ retryable_mask gl !! j = Some flag /\
           failure_code (df gl) !! 1%nat = Some c /\
           (if flag then In c RETRY_CODES else In c NON_RETRY_CODES))).
Proof.
  destruct (run_total (G := Z) (H := Lcg.lcg) (H0 := LcgLaws.lcg_laws)
             Lcg.log Lcg.exp Lcg.sum 7 40 ltac:(lia)) as (gl & E).
  exists gl. split; [exact E |].
  exact (retryable_mask_decides_flag (G := Z) (H := Lcg.lcg) (H0 := LcgLaws.lcg_laws)
           Lcg.log Lcg.exp Lcg.sum 7 40 gl 1 E ltac:(lia)).
Defined.

Lemma recoverable_is_retryable_and_not_recovered_witness :
  exists gl,
    run (G := Z) (H := Lcg.lcg) Lcg.log Lcg.exp Lcg.sum 7 40 = inr gl /\
    (exists retr rec,
      is_retryable (df gl) !! 2%nat = Some (astype_int retr) /\
      retry_recovered (df gl) !! 2%nat = Some (astype_int rec) /\
      is_recoverable (df gl) !! 2%nat = Some (astype_int (retr && negb rec))).
Proof.
  destruct (run_total (G := Z) (H := Lcg.lcg) (H0 := LcgLaws.lcg_laws)
             Lcg.log Lcg.exp Lcg.sum 7 40 ltac:(lia)) as (gl & E).
  exists gl. split; [exact E |].
  exact (recoverable_is_retryable_and_not_recovered (G := Z) (H := Lcg.lcg) (H0 := LcgLaws.lcg_laws)
           Lcg.log Lcg.exp Lcg.sum 7 40 gl 2 E ltac:(lia)).
Defined.

Lemma recovery_rate_default_unused_witness :
  exists gl,
    run (G := Z) (H := Lcg.lcg) Lcg.log Lcg.exp Lcg.sum 7 40 = inr gl /\
    (Forall (fun idx =>
              exists c rate,
                failure_codes gl !! idx = Some c /\ In c RETRY_CODES /\
                dict_lookup RETRY_RECOVERY c = Some rate /\
                dict_get RETRY_RECOVERY c (lit 50 2) = rate)
           (boolean_index (failed_idx gl) (retryable_mask gl))).
Proof.
  destruct (run_total (G := Z) (H := Lcg.lcg) (H0 := LcgLaws.lcg_laws)
             Lcg.log Lcg.exp Lcg.sum 7 40 ltac:(lia)) as (gl & E).
  exists gl. split; [exact E |].
  exact (recovery_rate_default_unused (G := Z) (H := Lcg.lcg) (H0 := LcgLaws.lcg_laws)
           Lcg.log Lcg.exp Lcg.sum 7 40 gl E).
Defined.

Lemma summary_counts_ordered_witness :
  exists gl,
    run (G := Z) (H := Lcg.lcg) Lcg.log Lcg.exp Lcg.sum 7 40 = inr gl /\
    (0 <= n_recoverable gl <= n_retryable gl /\
    n_retryable gl <= n_failed_total gl <= Z.of_nat 40%nat /\
    n_retryable gl
      = Z.of_nat (length (boolean_index (failed_idx gl) (retryable_mask gl)))).
Proof.
  destruct (run_total (G := Z) (H := Lcg.lcg) (H0 := LcgLaws.lcg_laws)
             Lcg.log Lcg.exp Lcg.sum 7 40 ltac:(lia)) as (gl & E).
  exists gl. split; [exact E |].
  exact (summary_counts_ordered (G := Z) (H := Lcg.lcg) (H0 := LcgLaws.lcg_laws)
           Lcg.log Lcg.exp Lcg.sum 7 40 gl E).
Defined.

Lemma year_month_decompose_timestamp_witness :
  exists gl,
    run (G := Z) (H := Lcg.lcg) Lcg.log Lcg.exp Lcg.sum 7 40 = inr gl /\
    (exists t y m d,
      timestamp (df gl) !! 5%nat = Some t /\ Calendar.date t = (y, m, d) /\
      year (df gl) !! 5%nat = Some y /\ month (df gl) !! 5%nat = Some m /\
      ((y = 2023 /\ 7 <= m) \/ y = 2024) /\ 1 <= m <= 12 /\ 1 <= d <= 31 /\
      Calendar.Timestamp y m d + t mod 86400 = t).
Proof.
  destruct (run_total (G := Z) (H := Lcg.lcg) (H0 := LcgLaws.lcg_laws)
             Lcg.log Lcg.exp Lcg.sum 7 40 ltac:(lia)) as (gl & E).
  exists gl. split; [exact E |].
  exact (year_month_decompose_timestamp (G := Z) (H := Lcg.lcg) (H0 := LcgLaws.lcg_laws)
           Lcg.log Lcg.exp Lcg.sum 7 40 gl 5 E ltac:(lia)).
Defined.

Lemma hour_and_weekday_columns_witness :
  exists gl,
    run (G := Z) (H := Lcg.lcg) Lcg.log Lcg.exp Lcg.sum 7 40 = inr gl /\
    (exists t h dw,
      timestamp (df gl) !! 6%nat = Some t /\
      hour_of_day (df gl) !! 6%nat = Some h /\ day_of_week (df gl) !! 6%nat = Some dw /\
      is_weekend (df gl) !! 6%nat = Some (astype_int (5 <=? dw)) /\
      0 <= h <= 23 /\ 3600 * h <= t mod 86400 < 3600 * (h + 1) /\
      0 <= dw <= 6 /\ dw = (5 + (t - start_ts) / 86400) mod 7).
Proof.
  destruct (run_total (G := Z) (H := Lcg.lcg) (H0 := LcgLaws.lcg_laws)
             Lcg.log Lcg.exp Lcg.sum 7 40 ltac:(lia)) as (gl & E).
  exists gl. split; [exact E |].
  exact (hour_and_weekday_columns (G := Z) (H := Lcg.lcg) (H0 := LcgLaws.lcg_laws)
           Lcg.log Lcg.exp Lcg.sum 7 40 gl 6 E ltac:(lia)).
Defined.

Lemma transaction_ids_identify_rows_witness :
  exists gl,
    run (G := Z) (H := Lcg.lcg) Lcg.log Lcg.exp Lcg.sum 7 40 = inr gl /\
    (NoDup (transaction_id (df gl)) /\
    forall i, (i < 40)%nat ->
      exists ds d,
        transaction_id (df gl) !! i = Some ("TXN_" ++ ds)%string /\
        NilEmpty.uint_of_string ds = Some d /\ Nat.of_uint d = i /\
        (7 <= String.length ds)%nat).
Proof.
  destruct (run_total (G := Z) (H := Lcg.lcg) (H0 := LcgLaws.lcg_laws)
             Lcg.log Lcg.exp Lcg.sum 7 40 ltac:(lia)) as (gl & E).
  exists gl. split; [exact E |].
  exact (transaction_ids_identify_rows (G := Z) (H := Lcg.lcg) (H0 := LcgLaws.lcg_laws)
           Lcg.log Lcg.exp Lcg.sum 7 40 gl E).
Defined.

Lemma amount_risk_in_range_witness :
  exists gl,
    run (G := Z) (H := Lcg.lcg) Lcg.log Lcg.exp Lcg.sum 7 40 = inr gl /\
    (exists a,
      amount_usd (df gl) !! 1%nat = Some a /\
      leb (of_Z 0) (amount_risk a) = true /\ leb (amount_risk a) (lit 12 2) = true).
Proof.
  destruct (run_total (G := Z) (H := Lcg.lcg) (H0 := LcgLaws.lcg_laws)
             Lcg.log Lcg.exp Lcg.sum 7 40 ltac:(lia)) as (gl & E).
  exists gl. split; [exact E |].
  exact (amount_risk_in_range (G := Z) (H := Lcg.lcg) (H0 := LcgLaws.lcg_laws)
           Lcg.log Lcg.exp Lcg.sum 7 40 gl 1 E ltac:(lia)).
Defined.

Lemma fail_probability_in_range_or_nan_witness :
  exists gl,
    run (G := Z) (H := Lcg.lcg) Lcg.log Lcg.exp Lcg.sum 7 40 = inr gl /\
    (exists p,
      fail_probs gl !! 2%nat = Some p /\
      ((leb (lit 2 2) p = true /\ leb p (lit 90 2) = true) \/
       (is_nan p = true /\ status (df gl) !! 2%nat = Some "success"))).
Proof.
  destruct (run_total (G := Z) (H := Lcg.lcg) (H0 := LcgLaws.lcg_laws)
             Lcg.log Lcg.exp Lcg.sum 7 40 ltac:(lia)) as (gl & E).
  exists gl. split; [exact E |].
  exact (fail_probability_in_range_or_nan (G := Z) (H := Lcg.lcg) (H0 := LcgLaws.lcg_laws)
           Lcg.log Lcg.exp Lcg.sum 7 40 gl 2 E ltac:(lia)).
Defined.


Lemma written_score_in_unit_interval_or_nan_witness :
  exists gl,
    run (G := Z) (H := Lcg.lcg) Lcg.log Lcg.exp Lcg.sum 7 40 = inr gl /\
    (exists b z w,
      risk_score_base gl !! 3%nat = Some b /\ noise gl !! 3%nat = Some z /\
      pre_auth_risk_score (df gl) !! 3%nat = Some w /\
      w = np_round 4 (np_clip (add b z) (of_Z 0) (of_Z 1)) /\
      ((leb (of_Z 0) w = true /\ leb w (of_Z 1) = true) \/
       (is_nan (add b z) = true /\ w = S754_nan))).
Proof.
  destruct (run_total (G := Z) (H := Lcg.lcg) (H0 := LcgLaws.lcg_laws)
             Lcg.log Lcg.exp Lcg.sum 7 40 ltac:(lia)) as (gl & E).
  exists gl. split; [exact E |].
  exact (written_score_in_unit_interval_or_nan (G := Z) (H := Lcg.lcg) (H0 := LcgLaws.lcg_laws)
           Lcg.log Lcg.exp Lcg.sum 7 40 gl 3 E ltac:(lia)).
Defined.

Lemma run_completes_iff_nonempty_witness :
  (exists gl, run (G := Z) (H := Lcg.lcg) Lcg.log Lcg.exp Lcg.sum 7 40 = inr gl)
  <-> (0 < 40)%nat.
Proof.
  exact (run_completes_iff_nonempty (G := Z) (H := Lcg.lcg) (H0 := LcgLaws.lcg_laws)
           Lcg.log Lcg.exp Lcg.sum 7 40).
Defined.

Lemma only_empty_batch_raises_witness :
  run (G := Z) (H := Lcg.lcg) Lcg.log Lcg.exp Lcg.sum 7 0 = inl ValueError /\
  (0%nat = 0%nat /\ ValueError = ValueError).
Proof.
  pose proof (run_empty (G := Z) (H := Lcg.lcg) (H0 := LcgLaws.lcg_laws)
                Lcg.log Lcg.exp Lcg.sum 7) as E.
  split; [exact E |].
  exact (only_empty_batch_raises (G := Z) (H := Lcg.lcg) (H0 := LcgLaws.lcg_laws)
           Lcg.log Lcg.exp Lcg.sum 7 0 ValueError E).
Defined.

Lemma generator_call_count_witness :
  exists gl log,
    traced_run (G := Z) (H := Lcg.lcg) Lcg.log Lcg.exp Lcg.sum 7 8 = inr (gl, log) /\
    Z.of_nat (length log) = Z.of_nat 8 + 11 + n_retryable gl.
Proof.
  destruct (traced_run_total (G := Z) (H := Lcg.lcg) (H0 := LcgLaws.lcg_laws)
              Lcg.log Lcg.exp Lcg.sum 7 8 ltac:(lia)) as (gl & log & E).
  exists gl, log. split; [exact E |].
  exact (generator_call_count (G := Z) (H := Lcg.lcg) (H0 := LcgLaws.lcg_laws)
           Lcg.log Lcg.exp Lcg.sum 7 8 gl log E).
Defined.

(** ** Batches with a spread of raw risks *)

Lemma np_maximum_not_nan a b :
  is_nan a = false -> is_nan b = false -> is_nan (np_maximum a b) = false.
Proof. intros Ha Hb. unfold np_maximum. destruct (gtb a b || is_nan a); assumption. Qed.

Lemma np_minimum_not_nan a b :
  is_nan a = false -> is_nan b = false -> is_nan (np_minimum a b) = false.
Proof. intros Ha Hb. unfold np_minimum. destruct (ltb a b || is_nan a); assumption. Qed.

Lemma np_maximum_inf a b :
  is_nan a = false -> is_nan b = false ->
  a = S754_infinity false \/ b = S754_infinity false ->
  np_maximum a b = S754_infinity false.
Proof.
  intros Ha Hb [-> | ->]; unfold np_maximum, gtb, ltb.
  - destruct b as [s | [] | | [] m e]; try discriminate Hb; reflexivity.
  - destruct a as [s | [] | | [] m e]; try discriminate Ha; reflexivity.
Qed.

Lemma np_minimum_inf a b :
  is_nan a = false -> is_nan b = false ->
  a = S754_infinity true \/ b = S754_infinity true ->
  np_minimum a b = S754_infinity true.
Proof.
  intros Ha Hb [-> | ->]; unfold np_minimum, ltb.
  - destruct b as [s | [] | | [] m e]; try discriminate Hb; reflexivity.
  - destruct a as [s | [] | | [] m e]; try discriminate Ha; reflexivity.
Qed.

(** An infinity among numbers is the result of the reduction. *)
Lemma fold_maximum_inf l acc :
  is_nan acc = false -> Forall (fun x => is_nan x = false) l ->
  acc = S754_infinity false \/ In (S754_infinity false) l ->
  fold_left np_maximum l acc = S754_infinity false.
Proof.
  revert acc. induction l as [| b l IH]; intros acc Ha Hl Hinf; simpl.
  - destruct Hinf as [-> | []]. reflexivity.
  - apply Forall_cons_1 in Hl as [Hb Hl].
    apply IH; [apply np_maximum_not_nan; assumption | exact Hl |].
    destruct Hinf as [-> | [-> | Hin]].
    + left. apply np_maximum_inf; auto.
    + left. apply np_maximum_inf; auto.
    + right. exact Hin.
Qed.

Lemma fold_minimum_inf l acc :
  is_nan acc = false -> Forall (fun x => is_nan x = false) l ->
  acc = S754_infinity true \/ In (S754_infinity true) l ->
  fold_left np_minimum l acc = S754_infinity true.
Proof.
  revert acc. induction l as [| b l IH]; intros acc Ha Hl Hinf; simpl.
  - destruct Hinf as [-> | []]. reflexivity.
  - apply Forall_cons_1 in Hl as [Hb Hl].
    apply IH; [apply np_minimum_not_nan; assumption | exact Hl |].
    destruct Hinf as [-> | [-> | Hin]].
    + left. apply np_minimum_inf; auto.
    + left. apply np_minimum_inf; auto.
    + right. exact Hin.
Qed.

(** Between a finite minimum and a finite maximum every number is finite. *)
Lemma finite_between l lo hi :
  array_min l = Some lo -> array_max l = Some hi ->
  Forall (fun x => is_nan x = false) l ->
  is_finite lo = true -> is_finite hi = true ->
  forall r, In r l -> is_finite r = true.
Proof.
  intros Hmin Hmax Hl Hlo Hhi r Hr.
  destruct l as [| x l]; [destruct Hr |].
  simpl in Hmin, Hmax. injection Hmin as Hmin. injection Hmax as Hmax.
  apply Forall_cons_1 in Hl as [Hx Hl].
  assert (Hn : is_nan r = false).
  { destruct Hr as [<- | Hr]; [exact Hx |].
    rewrite List.Forall_forall in Hl. exact (Hl r Hr). }
  destruct r as [s | [] | | s m e]; try reflexivity; try discriminate Hn.
  - rewrite (fold_minimum_inf l x Hx Hl) in Hmin.
    + subst lo. discriminate Hlo.
    + destruct Hr as [-> | Hr]; auto.
  - rewrite (fold_maximum_inf l x Hx Hl) in Hmax.
    + subst hi. discriminate Hhi.
    + destruct Hr as [-> | Hr]; auto.
Qed.

Lemma sub_finite_operands x y s m e :
  sub x y = S754_finite s m e -> is_finite x = true /\ is_finite y = true.
Proof.
  unfold sub, SFsub.
  destruct x as [sx | sx | | sx mx ex], y as [sy | sy | | sy my ey]; simpl;
    try discriminate; auto.
  destruct sx, sy; discriminate.
Qed.

Lemma sub_numbers_not_nan x y :
  is_finite x = true -> is_finite y = true -> is_nan (sub x y) = false.
Proof.
  intros Hx Hy. unfold sub, SFsub.
  destruct x as [sx | sx | | sx mx ex]; try discriminate Hx;
    destruct y as [sy | sy | | sy my ey]; try discriminate Hy; try reflexivity.
  - destruct sx, sy; reflexivity.
  - apply binary_normalize_not_nan.
Qed.

Section Spread.

Context {G : Type} `{GeneratorLaws G}.
Variable np_log np_exp : float -> float.
Variable np_sum : list float -> float.

Lemma raw_risks_not_nan seed N gl :
  run np_log np_exp np_sum seed N = inr gl ->
  Forall (fun x => is_nan x = false) (raw_risk gl).
Proof.
  intros Hrun. apply List.Forall_forall. intros r Hr.
  apply list_elem_of_In, list_elem_of_lookup_1 in Hr as (i & Hi).
  apply run_inr in Hrun as Hpost.
  assert (Hlt : (i < N)%nat).
  { rewrite <- (raw_risk_length np_log np_exp np_sum N gl Hpost).
    eapply lookup_lt_Some; eauto. }
  destruct (raw_risk_not_nan np_log np_exp np_sum seed N gl i Hrun Hlt) as (r' & Hr' & Hn).
  congruence.
Qed.

(** X22: when the raw risks of the batch have a spread, the maximum minus
    the minimum being a finite number other than zero, and the noise drawn
    for a row is finite, the score written on that row lies in [0, 1]. *)
Theorem score_in_unit_interval_when_spread seed N gl i :
  run np_log np_exp np_sum seed N = inr gl -> (i < N)%nat ->
  (exists s m e, sub (risk_max gl) (risk_min gl) = S754_finite s m e) ->
  (forall z, noise gl !! i = Some z -> is_finite z = true) ->
  exists w,
    pre_auth_risk_score (df gl) !! i = Some w /\
    leb (of_Z 0) w = true /\ leb w (of_Z 1) = true.
Proof.
  intros Hrun Hi (s & m & e & Hspread) Hnoise. apply run_inr in Hrun as Hpost.
  destruct (score_of_row np_log np_exp np_sum N gl Hpost i Hi)
    as (r & z & Hr & Hz & Hzv & Hb & Hs).
  destruct (sub_finite_operands _ _ _ _ _ Hspread) as [Hhi Hlo].
  assert (Hrf : is_finite r = true).
  { apply (finite_between (raw_risk gl) (risk_min gl) (risk_max gl)); auto.
    - exact (post_min _ _ _ _ _ Hpost).
    - exact (post_max _ _ _ _ _ Hpost).
    - exact (raw_risks_not_nan seed N gl Hrun).
    - apply list_elem_of_In. eapply list_elem_of_lookup_2; eauto. }
  set (b := div (sub r (risk_min gl)) (sub (risk_max gl) (risk_min gl))) in *.
  assert (Hn : is_nan (add b z) = false).
  { apply add_finite_not_nan; [| exact (Hnoise z Hz)].
    unfold b. rewrite Hspread. apply div_finite_not_nan, sub_numbers_not_nan; assumption. }
  exists (np_round 4 (np_clip (add b z) (of_Z 0) (of_Z 1))). split.
  - rewrite (post_df_score _ _ _ _ _ Hpost), list_lookup_fmap, Hs. reflexivity.
  - assert (Hw : Decimals.wf (add b z)).
    { apply Decimals.add_wf; [apply Decimals.div_wf | apply Decimals.valid_wf; exact Hzv]. }
    destruct (Decimals.np_clip_unit _ Hw Hn) as (Hwc & Hlo' & Hhi').
    exact (Decimals.np_round_unit _ Hwc Hlo' Hhi').
Qed.

End Spread.

(** A batch of two rows on the generator that walks through its
    populations: the rows differ in category, geography and method. *)
Lemma Forall2_pair {A B} (P : A -> B -> Prop) x y k :
  Forall2 P [x; y] k -> exists a b, k = [a; b] /\ P x a /\ P y b.
Proof.
  intros HF.
  apply Forall2_cons_inv_l in HF as (a & k1 & Ha & HF & ->).
  apply Forall2_cons_inv_l in HF as (b & k2 & Hb & HF & ->).
  apply Forall2_nil_inv_l in HF as ->. eauto.
Qed.

Lemma varied_pair_risks gl :
  run (H := Pattern.pattern true) Lcg.log Lcg.exp Lcg.sum 42 2 = inr gl ->
  raw_risk gl
  = [ add (mul (mul (lit 9 2) (lit 100 2)) (lit 90 2))
          (amount_risk (np_round 2 (py_max (lit 10 1) (of_Z 100))));
      add (mul (mul (lit 6 2) (lit 90 2)) (lit 110 2))
          (amount_risk (np_round 2 (py_max (lit 10 1) (of_Z 100)))) ].
Proof.
  intros Hrun.
  pose proof (run_inr (H0 := PatternLaws.pattern_laws true) _ _ _ _ _ _ Hrun) as Hpost.
  destruct (post_cats_draw _ _ _ _ _ Hpost) as (g1 & Hcats).
  destruct (post_geos_draw _ _ _ _ _ Hpost) as (g2 & Hgeos).
  destruct (post_pm_draw _ _ _ _ _ Hpost) as (g3 & Hpms).
  pose proof (post_amounts _ _ _ _ _ Hpost) as Ham.
  destruct (post_raw_risk _ _ _ _ _ Hpost) as (mb & gm & pm & Hmb & Hgm & Hpm & Hraw).
  assert (Ec : merchant_cats gl = ["E-commerce"; "SaaS/Subscription"])
    by (rewrite Hcats; reflexivity).
  assert (Eg : geos gl = ["US"; "EU"]) by (rewrite Hgeos; reflexivity).
  assert (Ep : pay_methods gl = ["Credit Card"; "Debit Card"]) by (rewrite Hpms; reflexivity).
  rewrite Ec in Hmb, Ham. rewrite Eg in Hgm. rewrite Ep in Hpm.
  apply Forall2_pair in Hmb as (b0 & b1 & -> & (c0 & Hc0 & ->) & (c1 & Hc1 & ->)).
  apply Forall2_pair in Hgm as (d0 & d1 & -> & (e0 & He0 & ->) & (e1 & He1 & ->)).
  apply Forall2_pair in Hpm as (p0 & p1 & -> & (q0 & Hq0 & ->) & (q1 & Hq1 & ->)).
  apply Forall2_pair in Ham as (a0 & a1 & Ea & (k0 & x0 & _ & (h0 & Hx0) & _ & ->)
                                          & (k1 & x1 & _ & (h1 & Hx1) & _ & ->)).
  change (x0 = of_Z 100) in Hx0. change (x1 = of_Z 100) in Hx1. subst x0 x1.
  lazy -[lit] in Hc0, Hc1, He0, He1, Hq0, Hq1.
  injection Hc0 as <-. injection Hc1 as <-. injection He0 as <-. injection He1 as <-.
  injection Hq0 as <-. injection Hq1 as <-.
  rewrite Hraw, Ea.
  lazy -[lit of_Z add mul amount_risk np_round py_max].
  reflexivity.
Qed.

Lemma varied_pair_spread gl :
  run (H := Pattern.pattern true) Lcg.log Lcg.exp Lcg.sum 42 2 = inr gl ->
  exists s m e, sub (risk_max gl) (risk_min gl) = S754_finite s m e.
Proof.
  intros Hrun.
  pose proof (run_inr (H0 := PatternLaws.pattern_laws true) _ _ _ _ _ _ Hrun) as Hpost.
  pose proof (post_min _ _ _ _ _ Hpost) as Hmin.
  pose proof (post_max _ _ _ _ _ Hpost) as Hmax.
  rewrite (varied_pair_risks gl Hrun) in Hmin, Hmax.
  apply (inj Some) in Hmin, Hmax. rewrite <- Hmin, <- Hmax.
  vm_compute. eauto.
Qed.

Lemma varied_pair_noise gl i z :
  run (H := Pattern.pattern true) Lcg.log Lcg.exp Lcg.sum 42 2 = inr gl ->
  noise gl !! i = Some z -> is_finite z = true.
Proof.
  intros Hrun Hz.
  pose proof (run_inr (H0 := PatternLaws.pattern_laws true) _ _ _ _ _ _ Hrun) as Hpost.
  destruct (post_noise_draw _ _ _ _ _ Hpost) as (g & Hn).
  rewrite Hn in Hz. change (replicate 2 (of_Z 0) !! i = Some z) in Hz.
  apply lookup_replicate_1 in Hz as [-> _]. reflexivity.
Qed.

Lemma score_in_unit_interval_when_spread_witness :
  exists gl,
    run (H := Pattern.pattern true) Lcg.log Lcg.exp Lcg.sum 42 2 = inr gl /\
    (exists s m e, sub (risk_max gl) (risk_min gl) = S754_finite s m e) /\
    (forall z, noise gl !! 1%nat = Some z -> is_finite z = true) /\
    exists w,
      pre_auth_risk_score (df gl) !! 1%nat = Some w /\
      leb (of_Z 0) w = true /\ leb w (of_Z 1) = true.
Proof.
  destruct (run_total (H := Pattern.pattern true) (H0 := PatternLaws.pattern_laws true)
              Lcg.log Lcg.exp Lcg.sum 42 2 ltac:(lia)) as (gl & E).
  exists gl.
  pose proof (varied_pair_spread gl E) as Hs.
  pose proof (fun z => varied_pair_noise gl 1 z E) as Hz.
  split; [exact E |]. split; [exact Hs |]. split; [exact Hz |].
  exact (score_in_unit_interval_when_spread (H := Pattern.pattern true)
           (H0 := PatternLaws.pattern_laws true)
           Lcg.log Lcg.exp Lcg.sum 42 2 gl 1 E ltac:(lia) Hs Hz).
Defined.
